(** * Nexus: M5 launch readiness simulator -- the scheduling engine of [app.py]

    A shallow embedding of the engine functions of [src/app.py]
    ([compute_allocation_delays], [build_product_tasks], [apply_constraints],
    [compute_cpm], [build_schedule], [confidence_score], [confidence_band])
    together with the part of the Python runtime they rely on: exceptions,
    insertion-ordered dictionaries, unbounded integers and binary64 floats. *)

From Stdlib Require Import ZArith List Bool String Ascii Lia Permutation Sorted Relations.
From Stdlib Require Import Floats.SpecFloat.
From Stdlib Require Import DecimalString.
From Equations Require Import Equations.
Import ListNotations.

Local Open Scope string_scope.
Local Open Scope Z_scope.

(** ** The Python runtime *)

Module Py.

(** *** Exceptions

    The engine can only raise the four built-in exceptions below.  A
    computation either returns a value or raises. *)

Inductive exn : Type :=
| KeyError (key : string)
| ValueError (msg : string)
| OverflowError
| ZeroDivisionError.

Inductive result (A : Type) : Type :=
| Ok (a : A)
| Raise (e : exn).

Arguments Ok {A} a.
Arguments Raise {A} e.

Definition bind {A B : Type} (c : result A) (k : A -> result B) : result B :=
  match c with
  | Ok a => k a
  | Raise e => Raise e
  end.

Definition returns {A : Type} (c : result A) : Prop := exists a, c = Ok a.

(** *** Dictionaries

    A [dict] keeps its items in insertion order; assigning to a key that is
    already present keeps the key's position.  Keys are strings. *)

Definition dict (V : Type) : Type := list (string * V).

Definition keys {V : Type} (d : dict V) : list string := map fst d.
Definition values {V : Type} (d : dict V) : list V := map snd d.

Fixpoint get {V : Type} (k : string) (d : dict V) : option V :=
  match d with
  | [] => None
  | (k', v) :: d' => if String.eqb k k' then Some v else get k d'
  end.

(** [d[k]]: raises [KeyError] on a missing key. *)
Definition getitem {V : Type} (k : string) (d : dict V) : result V :=
  match get k d with
  | Some v => Ok v
  | None => Raise (KeyError k)
  end.

(** [d[k] = v] *)
Fixpoint set {V : Type} (k : string) (v : V) (d : dict V) : dict V :=
  match d with
  | [] => [(k, v)]
  | (k', v') :: d' =>
      if String.eqb k k' then (k', v) :: d' else (k', v') :: set k v d'
  end.

(** [del d[k]], for a key that is present. *)
Definition del {V : Type} (k : string) (d : dict V) : dict V :=
  filter (fun kv => negb (String.eqb k (fst kv))) d.

(** The invariant of every dictionary: no key occurs twice. *)
Definition wf {V : Type} (d : dict V) : Prop := NoDup (keys d).

(** *** Floats

    A Python [float] is an IEEE 754 binary64 number; the operations are those
    of the Standard Library's specification of binary64 arithmetic. *)

Definition prec : Z := 53.
Definition emax : Z := 1024.

Definition float : Type := spec_float.

(** The integer [z] with its exact value, as a (not normalised) float. *)
Definition exact_int (z : Z) : float :=
  match z with
  | Z0 => S754_zero false
  | Zpos p => S754_finite false p 0
  | Zneg p => S754_finite true p 0
  end.

(** An infinite result of a conversion or of a division of integers is
    reported as [OverflowError]. *)
Definition finite_or_overflow (x : float) : result float :=
  match x with
  | S754_infinity _ => Raise OverflowError
  | _ => Ok x
  end.

(** [float(z)], the conversion applied to an [int] operand of a mixed
    operation: round to nearest even, [OverflowError] beyond the largest
    float. *)
Definition of_int (z : Z) : result float :=
  finite_or_overflow (binary_normalize prec emax z 0 false).

(** [a / b] on two [int]s: the correctly rounded quotient. *)
Definition truediv (a b : Z) : result float :=
  if b =? 0 then Raise ZeroDivisionError
  else if a =? 0 then Ok (S754_zero (b <? 0))
  else finite_or_overflow (SFdiv prec emax (exact_int a) (exact_int b)).

Definition fmul (x y : float) : float := SFmul prec emax x y.
Definition fadd (x y : float) : float := SFadd prec emax x y.
Definition fsub (x y : float) : float := SFsub prec emax x y.

(** [n * x], [x * n], [x + n] and [n - x] with an [int] [n] and a [float]
    [x]. *)
Definition int_mul_float (n : Z) (x : float) : result float :=
  bind (of_int n) (fun fn => Ok (fmul fn x)).
Definition float_mul_int (x : float) (n : Z) : result float :=
  bind (of_int n) (fun fn => Ok (fmul x fn)).
Definition float_add_int (x : float) (n : Z) : result float :=
  bind (of_int n) (fun fn => Ok (fadd x fn)).
Definition int_sub_float (n : Z) (x : float) : result float :=
  bind (of_int n) (fun fn => Ok (fsub fn x)).

(** The signed mantissa of a finite float. *)
Definition signed (s : bool) (m : positive) : Z := if s then Zneg m else Zpos m.

(** [math.ceil(x)] *)
Definition ceil (x : float) : result Z :=
  match x with
  | S754_zero _ => Ok 0
  | S754_finite s m e =>
      Ok (if 0 <=? e then signed s m * 2 ^ e
          else - ((- signed s m) / 2 ^ (- e)))
  | S754_infinity _ => Raise OverflowError
  | S754_nan => Raise (ValueError "cannot convert float NaN to integer")
  end.

(** [round(x)]: the nearest integer, a tie going to the even one. *)
Definition round_half_even (n d : Z) : Z :=
  let q := n / d in
  let r := n mod d in
  match 2 * r ?= d with
  | Lt => q
  | Gt => q + 1
  | Eq => if Z.even q then q else q + 1
  end.

Definition round (x : float) : result Z :=
  match x with
  | S754_zero _ => Ok 0
  | S754_finite s m e =>
      Ok (if 0 <=? e then signed s m * 2 ^ e
          else round_half_even (signed s m) (2 ^ (- e)))
  | S754_infinity _ => Raise OverflowError
  | S754_nan => Raise (ValueError "cannot convert float NaN to integer")
  end.

(** The float literals of the program, each the float nearest to its
    decimal. *)
Definition lit_1_2 : float := S754_finite false 5404319552844595 (-52).
Definition lit_0_4 : float := S754_finite false 7205759403792794 (-54).
Definition lit_0_2 : float := S754_finite false 7205759403792794 (-55).
Definition lit_0_5 : float := S754_finite false 4503599627370496 (-53).

(** *** Calendar dates

    A [datetime.date] is its proleptic Gregorian ordinal, from 0001-01-01
    (ordinal 1) to 9999-12-31; a [timedelta] holds at most 999999999 days. *)

Definition date : Type := Z.
Definition date_max : Z := 3652059.
Definition timedelta_max : Z := 999999999.

Definition valid_date (d : date) : Prop := 1 <= d <= date_max.

(** [d + dt.timedelta(days=n)] *)
Definition date_add_days (d : date) (n : Z) : result date :=
  if (Z.abs n <=? timedelta_max) && (1 <=? d + n) && (d + n <=? date_max)
  then Ok (d + n)
  else Raise OverflowError.

End Py.

Import Py.

Notation "x <- c ;; k" := (bind c (fun x => k))
  (at level 61, c at next level, right associativity).
Notation "' p <- c ;; k" := (bind c (fun x => let 'p := x in k))
  (at level 61, p pattern, c at next level, right associativity).

(** ** Static configuration *)

Record task_meta : Type := mk_meta {
  duration : Z;
  deps : list string;
  type : string
}.

Definition task_spec : Type := (string * Z * list string * string)%type.

Definition SHARED_TASKS : list task_spec :=
  [ ("M5 Chip", 30, [], "component");
    ("Neural Accelerator", 25, [], "component");
    ("Liquid Glass Display", 28, [], "component") ].

Record product_config : Type := mk_config {
  margin_rank : Z;
  unique_tasks : list task_spec
}.

Definition PRODUCT_CONFIGS : dict product_config :=
  [ ("MacBook Pro",
      mk_config 1
        [ ("Thermal System", 18, ["M5 Chip"], "component");
          ("macOS M5 Optimization", 24, ["M5 Chip"], "software") ]);
    ("iPad Pro",
      mk_config 2
        [ ("M5-optimized iPadOS", 20, ["M5 Chip"], "software");
          ("Pencil Pro Calibration", 12, ["Liquid Glass Display"], "component") ]);
    ("Vision Pro",
      mk_config 3
        [ ("R1 Sensor", 22, [], "component");
          ("VisionOS Spatial UX", 26, ["M5 Chip"; "R1 Sensor"], "software") ]) ].

(** The constraint ranges offered by the sliders. *)
Definition valid_yield (y : Z) : Prop := 40 <= y <= 100.
Definition valid_throughput (t : Z) : Prop := 60 <= t <= 120.
Definition valid_bug_count (b : Z) : Prop := 0 <= b <= 200.

(** ** [compute_allocation_delays] *)

Definition compute_allocation_delays (yield_percent : Z) : result (dict Z) :=
  if 70 <=? yield_percent then
    Ok (map (fun product => (product, 0)) (keys PRODUCT_CONFIGS))
  else
    shortage_factor <- truediv (70 - yield_percent) 70 ;;
    scaled <- float_mul_int shortage_factor 28 ;;
    base_delay <- ceil scaled ;;
    Ok [ ("MacBook Pro", 0);
         ("iPad Pro", base_delay);
         ("Vision Pro", base_delay + 7) ].

(** ** [build_product_tasks] *)

Definition add_task (tasks : dict task_meta) (t : task_spec) : dict task_meta :=
  let '(name, duration, deps, task_type) := t in
  Py.set name (mk_meta duration deps task_type) tasks.

Definition tasks_of_type (ty : string) (tasks : dict task_meta) : list string :=
  map fst (filter (fun kv => String.eqb (type (snd kv)) ty) tasks).

Definition build_product_tasks (product_name : string) : result (dict task_meta) :=
  let tasks := fold_left add_task SHARED_TASKS [] in
  config <- getitem product_name PRODUCT_CONFIGS ;;
  let tasks := fold_left add_task (unique_tasks config) tasks in
  let component_tasks := tasks_of_type "component" tasks in
  let software_tasks := tasks_of_type "software" tasks in
  let tasks := Py.set "Factory Build" (mk_meta 14 component_tasks "factory") tasks in
  let tasks :=
    Py.set "Validation & Launch Readiness"
      (mk_meta 10 ("Factory Build" :: software_tasks) "validation") tasks in
  let tasks :=
    Py.set "Ship" (mk_meta 0 ["Validation & Launch Readiness"] "milestone") tasks in
  Ok tasks.

(** ** [apply_constraints] *)

Definition get_default {V : Type} (k : string) (default : V) (d : dict V) : V :=
  match get k d with
  | Some v => v
  | None => default
  end.

(** [math.ceil(duration * factory_multiplier)] *)
Definition scale_duration (duration : Z) (factory_multiplier : float) : result Z :=
  scaled <- int_mul_float duration factory_multiplier ;; ceil scaled.

(** The body of the loop over [tasks.items()], for one task. *)
Definition adjust_duration (factory_multiplier : float) (bug_delay na_delay alloc : Z)
    (task_name : string) (meta : task_meta) : result Z :=
  let duration := duration meta in
  duration <-
    (if String.eqb (type meta) "factory"
     then scale_duration duration factory_multiplier
     else Ok duration) ;;
  let duration :=
    if String.eqb (type meta) "software" then duration + bug_delay else duration in
  let duration :=
    if String.eqb task_name "Neural Accelerator" then duration + na_delay else duration in
  let duration :=
    if String.eqb task_name "M5 Chip" then duration + alloc else duration in
  Ok (Z.max 0 duration).

Fixpoint adjust_tasks (factory_multiplier : float) (bug_delay na_delay alloc : Z)
    (items : list (string * task_meta)) (updated : dict task_meta)
    : result (dict task_meta) :=
  match items with
  | [] => Ok updated
  | (task_name, meta) :: rest =>
      d <- adjust_duration factory_multiplier bug_delay na_delay alloc task_name meta ;;
      adjust_tasks factory_multiplier bug_delay na_delay alloc rest
        (Py.set task_name (mk_meta d (deps meta) (type meta)) updated)
  end.

Definition compute_bug_delay (bug_count : Z) : result Z :=
  q <- truediv bug_count 12 ;; ceil q.

Definition compute_na_delay (throughput : Z) : result Z :=
  q <- truediv (Z.max 0 (90 - throughput)) 10 ;;
  c <- ceil q ;;
  Ok (c * 2).

Definition apply_constraints (tasks : dict task_meta) (product_name : string)
    (yield_percent throughput bug_count : Z)
    : result (dict task_meta * dict Z * Z) :=
  allocation_delays <- compute_allocation_delays yield_percent ;;
  factory_multiplier <- truediv 100 (Z.max 1 throughput) ;;
  bug_delay <- compute_bug_delay bug_count ;;
  na_delay <- compute_na_delay throughput ;;
  updated <-
    adjust_tasks factory_multiplier bug_delay na_delay
      (get_default product_name 0 allocation_delays) tasks [] ;;
  Ok (updated, allocation_delays, na_delay).

(** ** [compute_cpm] *)

(** The exception raised when no task is ready although tasks remain:
    [ValueError("Dependency cycle detected in tasks.")]. *)
Definition CyclicDependency : exn :=
  ValueError "Dependency cycle detected in tasks.".

(** The failure of the lookup [PRODUCT_CONFIGS[product_name]] on a product
    that is not configured. *)
Definition UnknownProduct (product_name : string) : exn := KeyError product_name.

(** A [set] of task names, kept without duplicates. *)
Definition set_of_list (l : list string) : list string := nodup string_dec l.
Definition discard (x : string) (s : list string) : list string :=
  remove string_dec x s.
Definition is_empty (s : list string) : bool :=
  match s with
  | [] => true
  | _ :: _ => false
  end.

(** [sorted(l)] on strings: ascending, by code points. *)
Fixpoint insert_sorted (x : string) (l : list string) : list string :=
  match l with
  | [] => [x]
  | y :: l' => if String.leb x y then x :: l else y :: insert_sorted x l'
  end.

Definition sorted (l : list string) : list string :=
  fold_right insert_sorted [] l.

(** [[task for task, deps in remaining.items() if not deps]] *)
Definition ready_tasks (remaining : dict (list string)) : list string :=
  map fst (filter (fun kv => is_empty (snd kv)) remaining).

(** The body of [for task in sorted(ready)], on the pair of [order] and
    [remaining]. *)
Definition schedule_task (st : list string * dict (list string)) (task : string)
    : list string * dict (list string) :=
  let '(order, remaining) := st in
  ((order ++ [task])%list,
   map (fun kv => (fst kv, discard task (snd kv))) (del task remaining)).

Definition schedule_ready (ready : list string)
    (st : list string * dict (list string)) : list string * dict (list string) :=
  fold_left schedule_task (sorted ready) st.

(** The [while remaining:] loop. *)
Definition inspect {A : Type} (a : A) : {b : A | a = b} := exist _ a eq_refl.

#[local] Obligation Tactic := idtac.

Equations? toposort (remaining : dict (list string)) (order : list string)
    : result (list string) by wf (List.length remaining) lt :=
  toposort [] order := Ok order;
  toposort (kv :: rest) order with inspect (ready_tasks (kv :: rest)) => {
    | exist _ [] _ => Raise CyclicDependency
    | exist _ (r :: rs) Hready =>
        toposort (snd (schedule_ready (r :: rs) (order, kv :: rest)))
                 (fst (schedule_ready (r :: rs) (order, kv :: rest))) }.
Proof.
  (* every pass of the loop deletes at least the first ready task *)
  assert (Hfold : forall ts st,
            (List.length (snd (fold_left schedule_task ts st)) <= List.length (snd st))%nat).
  { intros ts. induction ts as [|t ts IH]; intros st; simpl; [lia|].
    etransitivity; [apply IH|].
    destruct st as [o rem]; simpl. rewrite length_map. apply filter_length_le. }
  assert (Hins : forall x xs, exists t ts, insert_sorted x xs = t :: ts /\ In t (x :: xs)).
  { intros x xs. destruct xs as [|y xs]; simpl.
    - exists x, []. auto.
    - destruct (String.leb x y).
      + exists x, (y :: xs). auto.
      + exists y, (insert_sorted x xs). auto. }
  assert (Hin : forall x xs, In x (sorted xs) -> In x xs).
  { intros x xs. induction xs as [|y xs IH]; simpl; [tauto|].
    generalize (sorted xs) IH. intros srt. induction srt as [|z srt IHs]; simpl; intros IH'.
    - intros [->|[]]. auto.
    - destruct (String.leb y z); simpl.
      + intros [->|[->|H]]; auto.
      + intros [->|H]; [auto|]. apply IHs; [|assumption].
        intros H'. apply IH'. right. assumption. }
  assert (Hdel : forall (d : dict (list string)) k,
            In k (map fst d) -> (List.length (del k d) < List.length d)%nat).
  { intros d k. unfold del. induction d as [|[k' v] d IH]; simpl; [tauto|].
    intros [Hk|Hk].
    - subst k'. rewrite String.eqb_refl. simpl.
      pose proof (filter_length_le (fun kv => negb (String.eqb k (fst kv))) d). lia.
    - specialize (IH Hk). destruct (negb (String.eqb k k')); simpl; lia. }
  unfold schedule_ready. change (sorted (r :: rs)) with (insert_sorted r (sorted rs)).
  destruct (Hins r (sorted rs)) as [t [ts [Heq Ht]]]. rewrite Heq.
  change (fold_left schedule_task (t :: ts) ?st)
    with (fold_left schedule_task ts (schedule_task st t)).
  eapply Nat.le_lt_trans; [apply Hfold|].
  unfold schedule_task. cbv [snd]. rewrite length_map. apply Hdel.
  assert (Hr : In t (ready_tasks (kv :: rest))).
  { rewrite Hready. destruct Ht as [->|Ht]; [left; reflexivity|].
    right. apply Hin. assumption. }
  unfold ready_tasks in Hr. apply in_map_iff in Hr. destruct Hr as [x [Hx Hf]].
  apply filter_In in Hf. apply in_map_iff. exists x. tauto.
Qed.

(** [max((earliest_finish[dep] for dep in deps), default=0)] *)
Fixpoint finishes (earliest_finish : dict Z) (deps : list string) : result (list Z) :=
  match deps with
  | [] => Ok []
  | dep :: rest =>
      f <- getitem dep earliest_finish ;;
      fs <- finishes earliest_finish rest ;;
      Ok (f :: fs)
  end.

Definition max_default (l : list Z) (default : Z) : Z :=
  match l with
  | [] => default
  | x :: l' => fold_left Z.max l' x
  end.

(** The loop [for task in order]. *)
Fixpoint forward_pass (tasks : dict task_meta) (order : list string)
    (earliest_start earliest_finish : dict Z) : result (dict Z * dict Z) :=
  match order with
  | [] => Ok (earliest_start, earliest_finish)
  | task :: rest =>
      meta <- getitem task tasks ;;
      fs <- finishes earliest_finish (deps meta) ;;
      let start := max_default fs 0 in
      let finish := start + duration meta in
      forward_pass tasks rest
        (Py.set task start earliest_start) (Py.set task finish earliest_finish)
  end.

Definition initial_remaining (tasks : dict task_meta) : dict (list string) :=
  fold_left (fun remaining kv => Py.set (fst kv) (set_of_list (deps (snd kv))) remaining)
    tasks [].

Definition compute_cpm (tasks : dict task_meta) : result (dict Z * dict Z) :=
  order <- toposort (initial_remaining tasks) [] ;;
  forward_pass tasks order [] [].

(** ** [build_schedule] *)

Record task_row : Type := mk_row {
  row_product : string;
  row_task : string;
  row_start : date;
  row_end : date;
  row_duration : Z;
  row_type : string
}.

Fixpoint task_rows (product_name : string) (start_date : date)
    (earliest_start earliest_finish : dict Z) (items : list (string * task_meta))
    : result (list task_row) :=
  match items with
  | [] => Ok []
  | (task, meta) :: rest =>
      s <- getitem task earliest_start ;;
      start <- date_add_days start_date s ;;
      f <- getitem task earliest_finish ;;
      end_ <- date_add_days start_date f ;;
      rows <- task_rows product_name start_date earliest_start earliest_finish rest ;;
      Ok (mk_row product_name task start end_ (duration meta) (type meta) :: rows)
  end.

Definition build_schedule (product_name : string) (start_date : date)
    (yield_percent throughput bug_count : Z)
    : result (list task_row * date * Z * dict Z * Z) :=
  base_tasks <- build_product_tasks product_name ;;
  r <- apply_constraints base_tasks product_name yield_percent throughput bug_count ;;
  let '(tasks, allocation_delays, na_delay) := r in
  cpm <- compute_cpm tasks ;;
  let '(earliest_start, earliest_finish) := cpm in
  schedule <- task_rows product_name start_date earliest_start earliest_finish tasks ;;
  ship_days <- getitem "Ship" earliest_finish ;;
  ship_date <- date_add_days start_date ship_days ;;
  Ok (schedule, ship_date, ship_days, allocation_delays, na_delay).

(** ** [confidence_score] and [confidence_band] *)

Definition confidence_score (yield_percent throughput bug_count delay_days : Z)
    : result Z :=
  penalty <-
    (if yield_percent <? 70
     then (p <- int_mul_float (70 - yield_percent) lit_1_2 ;; float_add_int p 10)
     else int_mul_float (Z.max 0 (85 - yield_percent)) lit_0_4) ;;
  score <- int_sub_float 100 penalty ;;
  p <- int_mul_float (Z.max 0 (100 - throughput)) lit_0_4 ;;
  let score := fsub score p in
  p <- int_mul_float bug_count lit_0_2 ;;
  let score := fsub score p in
  p <- int_mul_float (Z.max 0 delay_days) lit_0_5 ;;
  let score := fsub score p in
  r <- round score ;;
  Ok (Z.max 0 (Z.min 100 r)).

Definition confidence_band (score : Z) : string * string :=
  if 80 <=? score then ("Green", "#2ecc71")
  else if 55 <=? score then ("Yellow", "#f1c40f")
  else ("Red", "#e74c3c").

(** ** What the specification says, in exact arithmetic *)

(** [ceil(n / d)] for integers [n] and [d > 0]. *)
Definition ceil_div (n d : Z) : Z := - ((- n) / d).

(** [base_delay = ceil(shortage_factor * 28)] with
    [shortage_factor = (70 - yield_percent) / 70]. *)
Definition spec_base_delay (yield_percent : Z) : Z :=
  ceil_div ((70 - yield_percent) * 28) 70.

Definition spec_allocation_delay (product_name : string) (yield_percent : Z) : Z :=
  if 70 <=? yield_percent then 0
  else if String.eqb product_name "MacBook Pro" then 0
  else if String.eqb product_name "iPad Pro" then spec_base_delay yield_percent
  else if String.eqb product_name "Vision Pro" then spec_base_delay yield_percent + 7
  else 0.

Definition configured (product_name : string) : Prop :=
  In product_name (keys PRODUCT_CONFIGS).

(** The integers [lo, lo + 1, ..., lo + n - 1]. *)
Definition Zrange (lo : Z) (n : nat) : list Z :=
  map (fun i => lo + Z.of_nat i) (seq 0 n).

(** The loop of [apply_constraints] without its float arithmetic: the
    adjusted duration of a task when scaling a factory duration [d] gives
    [scale d]. *)
Definition adjusted_duration (scale : Z -> Z) (bug_delay na_delay alloc : Z)
    (task_name : string) (meta : task_meta) : Z :=
  let d := duration meta in
  let d := if String.eqb (type meta) "factory" then scale d else d in
  let d := if String.eqb (type meta) "software" then d + bug_delay else d in
  let d := if String.eqb task_name "Neural Accelerator" then d + na_delay else d in
  let d := if String.eqb task_name "M5 Chip" then d + alloc else d in
  Z.max 0 d.

Definition adjusted_tasks (scale : Z -> Z) (bug_delay na_delay alloc : Z)
    (tasks : dict task_meta) : dict task_meta :=
  map (fun kv =>
         (fst kv,
          mk_meta (adjusted_duration scale bug_delay na_delay alloc (fst kv) (snd kv))
                  (deps (snd kv)) (type (snd kv))))
      tasks.

(** [bug_delay = ceil(bug_count / 12)] *)
Definition spec_bug_delay (bug_count : Z) : Z := ceil_div bug_count 12.

(** [na_delay = ceil(max(0, 90 - throughput_percent) / 10) * 2] *)
Definition spec_na_delay (throughput : Z) : Z :=
  ceil_div (Z.max 0 (90 - throughput)) 10 * 2.

(** [ceil(duration * multiplier)] with
    [multiplier = 100 / max(1, throughput_percent)]. *)
Definition spec_factory_duration (throughput : Z) (duration : Z) : Z :=
  ceil_div (duration * 100) (Z.max 1 throughput).

(** The adjusted task mapping of the specification. *)
Definition spec_adjusted_tasks (product_name : string)
    (yield_percent throughput bug_count : Z) (tasks : dict task_meta) : dict task_meta :=
  adjusted_tasks (spec_factory_duration throughput) (spec_bug_delay bug_count)
    (spec_na_delay throughput) (spec_allocation_delay product_name yield_percent) tasks.

(** The allocation-delay map of the specification. *)
Definition spec_allocation_delays (yield_percent : Z) : dict Z :=
  [ ("MacBook Pro", spec_allocation_delay "MacBook Pro" yield_percent);
    ("iPad Pro", spec_allocation_delay "iPad Pro" yield_percent);
    ("Vision Pro", spec_allocation_delay "Vision Pro" yield_percent) ].

(** ** Dependency graphs *)

(** [depends_on tasks a b]: task [a] of the mapping lists [b] among its
    dependencies. *)
Definition depends_on (tasks : dict task_meta) (a b : string) : Prop :=
  exists meta, get a tasks = Some meta /\ In b (deps meta).

(** A cycle is a non-empty chain of dependencies from a task back to
    itself. *)
Definition has_cycle (tasks : dict task_meta) : Prop :=
  exists a, clos_trans string (depends_on tasks) a a.

Definition acyclic (tasks : dict task_meta) : Prop := ~ has_cycle tasks.

(** Every dependency names a task of the mapping. *)
Definition closed (tasks : dict task_meta) : Prop :=
  forall a b, depends_on tasks a b -> In b (keys tasks).

(** In a topological order every task comes after all its dependencies. *)
Definition topological (tasks : dict task_meta) (order : list string) : Prop :=
  forall l1 k l2, order = (l1 ++ k :: l2)%list ->
  forall d, depends_on tasks k d -> In d l1.

(** [m] is the greatest element of [fs], or [default] when [fs] is empty. *)
Definition is_max_of (fs : list Z) (default m : Z) : Prop :=
  match fs with
  | [] => m = default
  | _ :: _ => In m fs /\ forall f, In f fs -> f <= m
  end.

Definition mem (x : string) (l : list string) : bool := existsb (String.eqb x) l.

(** [remaining] after the tasks of [done] have been scheduled: their entries
    are deleted and their names discarded from every pending set. *)
Definition prune (done : list string) (remaining : dict (list string))
    : dict (list string) :=
  map (fun kv => (fst kv, filter (fun d => negb (mem d done)) (snd kv)))
      (filter (fun kv => negb (mem (fst kv) done)) remaining).

(** The tasks no task of the mapping depends on. *)
Definition has_dependent (tasks : dict task_meta) (k : string) : bool :=
  existsb (fun kv => mem k (deps (snd kv))) tasks.

Definition sinks (tasks : dict task_meta) : list string :=
  filter (fun k => negb (has_dependent tasks k)) (keys tasks).

(** The state of the ready-set loop on [tasks]: [order] holds the tasks
    scheduled so far, in a topological order, and [remaining] the other
    tasks, each with the dependencies it still waits for. *)
Record loop_inv (tasks : dict task_meta) (remaining : dict (list string))
    (order : list string) : Prop := mk_loop_inv {
  inv_nodup : NoDup order;
  inv_wf : wf remaining;
  inv_keys : forall k, In k (keys tasks) <-> In k order \/ In k (keys remaining);
  inv_disjoint : forall k, In k order -> ~ In k (keys remaining);
  inv_pending : forall k s, In (k, s) remaining ->
    exists meta, get k tasks = Some meta /\
                 forall d, In d s <-> In d (deps meta) /\ ~ In d order;
  inv_topological : topological tasks order
}.

(** Ascending order on task names. *)
Definition ascending (l : list string) : Prop :=
  Sorted (fun a b => String.leb a b = true) l.

(** The batches of simultaneously ready tasks extracted from [remaining],
    pass after pass, each batch in ascending order of name. *)
Inductive ready_batches : dict (list string) -> list (list string) -> Prop :=
| batches_done : ready_batches [] []
| batches_pass remaining batch rest :
    remaining <> [] ->
    batch <> [] ->
    Permutation batch (ready_tasks remaining) ->
    ascending batch ->
    ready_batches (prune batch remaining) rest ->
    ready_batches remaining (batch :: rest).

(** The states the ready-set loop goes through: one pass schedules the
    ready tasks of a state where tasks remain and some task is ready. *)
Inductive loop_reaches :
    list string * dict (list string) -> list string * dict (list string) -> Prop :=
| reaches_here st : loop_reaches st st
| reaches_pass order remaining st :
    remaining <> [] ->
    ready_tasks remaining <> [] ->
    loop_reaches (schedule_ready (ready_tasks remaining) (order, remaining)) st ->
    loop_reaches (order, remaining) st.

(** Every dependency names a task of the mapping, as a check. *)
Definition closedb (tasks : dict task_meta) : bool :=
  forallb (fun kv => forallb (fun d => mem d (keys tasks)) (deps (snd kv))) tasks.

(** Two small task mappings: a chain, and the cycle [A deps [B]], [B deps [A]]. *)
Definition chain_example : dict task_meta :=
  [ ("B", mk_meta 2 [] "component"); ("A", mk_meta 1 ["B"] "software") ].

Definition cyclic_example : dict task_meta :=
  [ ("A", mk_meta 1 ["B"] "component"); ("B", mk_meta 1 ["A"] "component") ].

(** The duration [math.ceil(duration * factory_multiplier)] of a factory
    task when the scaling returns, 0 (never used) when it raises. *)
Definition scaled (factory_multiplier : float) (duration : Z) : Z :=
  match scale_duration duration factory_multiplier with
  | Ok d => d
  | Raise _ => 0
  end.

(** The length of the longest chain of dependencies ending in [task], its
    own duration included; a chain has at most as many tasks as the mapping. *)
Fixpoint path_length (fuel : nat) (tasks : dict task_meta) (task : string) : Z :=
  match fuel with
  | O => 0
  | S n =>
      match get task tasks with
      | Some meta => max_default (map (path_length n tasks) (deps meta)) 0 + duration meta
      | None => 0
      end
  end.

(** The critical-path length of a task mapping. *)
Definition critical_path_length (tasks : dict task_meta) : Z :=
  max_default (map (path_length (List.length tasks) tasks) (keys tasks)) 0.

(** The nominal durations, except that every factory task's duration is
    [ceil(duration * 100 / max(1, throughput))]. *)
Definition factory_scaled (throughput : Z) (tasks : dict task_meta) : dict task_meta :=
  map (fun kv =>
         (fst kv,
          mk_meta (if String.eqb (type (snd kv)) "factory"
                   then spec_factory_duration throughput (duration (snd kv))
                   else duration (snd kv))
                  (deps (snd kv)) (type (snd kv))))
      tasks.

(** An allocation-delay map without delays. *)
Definition no_allocation_delays : dict Z :=
  [ ("MacBook Pro", 0); ("iPad Pro", 0); ("Vision Pro", 0) ].

(** Every task of [names] has an earliest start and an earliest finish,
    both between 0 and [bound]. *)
Definition times_within (bound : Z) (es ef : dict Z) (names : list string) : bool :=
  forallb (fun k =>
             match get k es, get k ef with
             | Some s, Some f => (0 <=? s) && (s <=? bound) && (0 <=? f) && (f <=? bound)
             | _, _ => false
             end)
          names.

(** ** Bounds on floats

    [within x E B]: the float [x] is a zero, or finite with an exponent at
    most [E] and a magnitude below [2 ^ B]. *)
Definition within (x : float) (E B : Z) : Prop :=
  match x with
  | S754_zero _ => True
  | S754_finite _ m e => e <= E /\ Zpos (digits2_pos m) + e <= B
  | _ => False
  end.

Definition withinb (x : float) (E B : Z) : bool :=
  match x with
  | S754_zero _ => true
  | S754_finite _ m e => (e <=? E) && (Zpos (digits2_pos m) + e <=? B)
  | _ => false
  end.

(** Two mappings with a factory task: one of 14 days, one of [2 ^ 1024]
    days. *)
Definition factory_example : dict task_meta :=
  [ ("M5 Chip", mk_meta 30 [] "component");
    ("Factory Build", mk_meta 14 ["M5 Chip"] "factory") ].

Definition huge_factory_example : dict task_meta :=
  [ ("Factory Build", mk_meta (2 ^ 1024) [] "factory") ].

(** Some task of the mapping lists a dependency that is not a task of the
    mapping. *)
Definition dangling (tasks : dict task_meta) : Prop :=
  exists a b, depends_on tasks a b /\ ~ In b (keys tasks).

(** [tasks'] has the tasks of [tasks], in the same order and with the same
    dependencies, each with a duration at least as long. *)
Definition lengthened (tasks tasks' : dict task_meta) : Prop :=
  Forall2 (fun kv kv' =>
             fst kv = fst kv' /\
             deps (snd kv) = deps (snd kv') /\
             duration (snd kv) <= duration (snd kv'))
          tasks tasks'.

Definition dangling_example : dict task_meta :=
  [ ("A", mk_meta 1 ["B"] "component") ].

Definition chain_example_longer : dict task_meta :=
  [ ("B", mk_meta 5 [] "component"); ("A", mk_meta 1 ["B"] "software") ].

(** [b] is [a] or one of the dependencies of [a], direct or not, found by
    following at most [fuel] dependencies. *)
Fixpoint reachable (fuel : nat) (tasks : dict task_meta) (a b : string) : bool :=
  String.eqb a b ||
  match fuel with
  | O => false
  | S n =>
      match get a tasks with
      | Some meta => existsb (fun d => reachable n tasks d b) (deps meta)
      | None => false
      end
  end.



(** Every earliest finish of [ef] is at most [bound]. *)
Definition finishes_below (bound : Z) (ef : dict Z) : bool :=
  forallb (fun kv => snd kv <=? bound) ef.

(** The ship offset of a product under the given constraints, by the
    adjusted durations in exact arithmetic. *)
Definition spec_ship_days (product_name : string) (y t b : Z) : result Z :=
  base <- build_product_tasks product_name ;;
  cpm <- compute_cpm (spec_adjusted_tasks product_name y t b base) ;;
  getitem "Ship" (snd cpm).

(** A float that is a zero or a finite number. *)
Definition real (x : float) : Prop :=
  match x with
  | S754_zero _ | S754_finite _ _ _ => True
  | _ => False
  end.

(** A computation that can raise nothing but [OverflowError]. *)
Definition only_overflow {A : Type} (c : result A) : Prop :=
  forall e, c = Raise e -> e = OverflowError.

(** The days the constraints add to a task that is not a factory task. *)
Definition added_days (product_name : string) (y t b : Z)
    (task_name : string) (meta : task_meta) : Z :=
  (if String.eqb (type meta) "software" then spec_bug_delay b else 0) +
  (if String.eqb task_name "Neural Accelerator" then spec_na_delay t else 0) +
  (if String.eqb task_name "M5 Chip" then spec_allocation_delay product_name y else 0).

(** The factory durations [0 <= d <= 300] on which the scaling at
    throughput [t] is the exact ceiling, or one more when [t] divides
    [100 * d]. *)
Definition scaling_close (t : Z) : bool :=
  match truediv 100 (Z.max 1 t) with
  | Ok fm =>
      forallb (fun d =>
                 match scale_duration d fm with
                 | Ok z =>
                     let exact := spec_factory_duration t d in
                     (z =? exact) || ((z =? exact + 1) && ((d * 100) mod t =? 0))
                 | Raise _ => false
                 end)
              (Zrange 0 301)
  | Raise _ => false
  end.

(** ** The simulation pass of the script

    The script reads the three sliders and the start date, schedules
    every product twice, on the baseline constraints and on the current
    ones, writes the log and scores every product.  The widgets and the
    charts are left out. *)

(** [f"{n}"] for an [int]. *)
Definition str_of_int (n : Z) : string := NilZero.string_of_int (Z.to_int n).

Definition baseline_yield : Z := 85.
Definition baseline_throughput : Z := 100.
Definition baseline_bug_count : Z := 25.

Module Current.

Record entry : Type := mk {
  schedule : list task_row;
  ship_date : date;
  ship_days : Z;
  delay_days : Z;
  na_delay : Z
}.

End Current.

(** The loop [for product in PRODUCT_CONFIGS] that fills [baseline] and
    [current]. *)
Fixpoint simulate_products (products : list string) (start_date : date)
    (yield_percent throughput bug_count : Z)
    (baseline : dict Z) (current : dict Current.entry)
    : result (dict Z * dict Current.entry) :=
  match products with
  | [] => Ok (baseline, current)
  | product :: rest =>
      r0 <- build_schedule product start_date
              baseline_yield baseline_throughput baseline_bug_count ;;
      let '(_, _, baseline_days, _, _) := r0 in
      r <- build_schedule product start_date yield_percent throughput bug_count ;;
      let '(schedule, ship_date, ship_days, _, na_delay) := r in
      simulate_products rest start_date yield_percent throughput bug_count
        (Py.set product baseline_days baseline)
        (Py.set product
           (Current.mk schedule ship_date ship_days (ship_days - baseline_days) na_delay)
           current)
  end.

Definition log_ipad (days : Z) : string :=
  "Warning: M5 chip yield below 70%; iPad Pro launch pushed by " ++ str_of_int days ++ " days.".
Definition log_vision (days : Z) : string :=
  "Warning: M5 chip yield below 70%; Vision Pro launch pushed by " ++ str_of_int days ++ " days.".
Definition log_allocation : string :=
  "Action: Prioritized MacBook Pro allocation to protect revenue.".
Definition log_neural (na_delay delay_days : Z) : string :=
  "Warning: Neural Accelerator throughput constraint adds " ++ str_of_int na_delay ++
  " days; Vision Pro launch pushed by " ++ str_of_int delay_days ++ " days.".
Definition log_throughput : string :=
  "Risk: Factory throughput below 85% is elongating final assembly.".
Definition log_bugs (bug_count : Z) : string :=
  "Risk: Software stability degraded (" ++ str_of_int bug_count ++
  " open bugs); shift QA staffing to reduce launch exposure.".
Definition log_on_track : string :=
  "On track: No critical constraints detected; launch windows remain within baseline.".

(** The lines appended to [logs]. *)
Definition simulation_logs (yield_percent throughput bug_count : Z)
    (allocation_snapshot : dict Z) (current : dict Current.entry) : result (list string) :=
  logs <-
    (if yield_percent <? 70 then
       ipad <- getitem "iPad Pro" allocation_snapshot ;;
       let logs := if 0 <? ipad then [log_ipad ipad] else [] in
       vision <- getitem "Vision Pro" allocation_snapshot ;;
       let logs := if 0 <? vision then (logs ++ [log_vision vision])%list else logs in
       Ok (logs ++ [log_allocation])%list
     else Ok []) ;;
  logs <-
    (if throughput <? 85 then
       vision <- getitem "Vision Pro" current ;;
       let na_delay := Current.na_delay vision in
       let logs :=
         if 0 <? na_delay
         then (logs ++ [log_neural na_delay (Current.delay_days vision)])%list
         else logs in
       Ok (logs ++ [log_throughput])%list
     else Ok logs) ;;
  let logs := if 90 <? bug_count then (logs ++ [log_bugs bug_count])%list else logs in
  Ok (match logs with
      | [] => [log_on_track]
      | _ :: _ => logs
      end).

Record risk_row : Type := mk_risk {
  risk_product : string;
  risk_band : string;
  risk_score : Z;
  risk_level : string;
  risk_color : string
}.

(** The loop that fills [risk_rows]. *)
Fixpoint risk_rows (products : list string) (yield_percent throughput bug_count : Z)
    (current : dict Current.entry) : result (list risk_row) :=
  match products with
  | [] => Ok []
  | product :: rest =>
      entry <- getitem product current ;;
      score <- confidence_score yield_percent throughput bug_count
                 (Current.delay_days entry) ;;
      let '(band, color) := confidence_band score in
      rows <- risk_rows rest yield_percent throughput bug_count current ;;
      Ok (mk_risk product "Launch Confidence" score band color :: rows)
  end.

(** The whole pass: the allocation snapshot, the two schedules of every
    product, the log and the scores. *)
Definition simulation (start_date : date) (yield_percent throughput bug_count : Z)
    : result (dict Z * dict Current.entry * list string * list risk_row) :=
  allocation_snapshot <- compute_allocation_delays yield_percent ;;
  pass <- simulate_products (keys PRODUCT_CONFIGS) start_date
            yield_percent throughput bug_count [] [] ;;
  let '(baseline, current) := pass in
  logs <- simulation_logs yield_percent throughput bug_count allocation_snapshot current ;;
  rows <- risk_rows (keys PRODUCT_CONFIGS) yield_percent throughput bug_count current ;;
  Ok (baseline, current, logs, rows).

Definition chain_example_reordered : dict task_meta :=
  [ ("A", mk_meta 1 ["B"] "software"); ("B", mk_meta 2 [] "component") ].

(** ** Dependency chains

    [chain tasks a path k]: [path] lists the tasks of a chain of
    dependencies from the task [a] to the task [k], in the order in which
    they are done: each task of [path] after the first lists the one
    before it among its dependencies. *)
Inductive chain (tasks : dict task_meta) : string -> list string -> string -> Prop :=
| chain_one (k : string) :
    In k (keys tasks) -> chain tasks k [k] k
| chain_snoc (a : string) (path : list string) (d k : string) :
    chain tasks a path d -> depends_on tasks k d -> chain tasks a (path ++ [k]) k.

(** A task of the mapping without dependencies. *)
Definition source (tasks : dict task_meta) (a : string) : Prop :=
  exists meta, get a tasks = Some meta /\ deps meta = [].

(** The durations of the tasks of [path], added up. *)
Definition chain_length (tasks : dict task_meta) (path : list string) : Z :=
  fold_right
    (fun k total =>
       match get k tasks with
       | Some meta => duration meta + total
       | None => total
       end)
    0 path.

(** ** The value of a float

    [units x]: the value of the float [x] in units of [2 ^ -1074], an
    integer when the exponent of [x] is at least [-1074], as it is for
    every float that an operation returns. *)
Definition units (x : float) : Z :=
  match x with
  | S754_finite s m e => signed s m * 2 ^ (e + 1074)
  | _ => 0
  end.

(** The exponent of [x], when it has one, is at least [L]. *)
Definition exponent_ge (x : float) (L : Z) : Prop :=
  match x with
  | S754_finite _ _ e => L <= e
  | _ => True
  end.

Definition exponent_geb (x : float) (L : Z) : bool :=
  match x with
  | S754_finite _ _ e => L <=? e
  | _ => true
  end.

(** [approx x tenths eps]: the float [x] is a zero or a finite number of
    magnitude below 256, and ten times its value is within
    [eps * 2 ^ -42] of the integer [tenths]. *)
Definition approx (x : float) (tenths eps : Z) : Prop :=
  within x (-43) 8 /\ exponent_ge x (-1074) /\
  Z.abs (10 * units x - tenths * 2 ^ 1074) <= eps * 2 ^ 1032.

Definition approxb (x : float) (tenths eps : Z) : bool :=
  withinb x (-43) 8 && exponent_geb x (-1074) &&
  (Z.abs (10 * units x - tenths * 2 ^ 1074) <=? eps * 2 ^ 1032).

(** The score of [confidence_score] after the yield penalty. *)
Definition score_after_yield (yield_percent : Z) : result float :=
  penalty <-
    (if yield_percent <? 70
     then (p <- int_mul_float (70 - yield_percent) lit_1_2 ;; float_add_int p 10)
     else int_mul_float (Z.max 0 (85 - yield_percent)) lit_0_4) ;;
  int_sub_float 100 penalty.

(** *** The score of the specification

    Every penalty of the specification is a multiple of 0.1, so ten times
    the score is an integer.  Yield penalty:
    [(70 - yield_percent) * 1.2 + 10] below 70, else
    [max(0, 85 - yield_percent) * 0.4]. *)
Definition spec_yield_penalty_tenths (yield_percent : Z) : Z :=
  if yield_percent <? 70 then (70 - yield_percent) * 12 + 100
  else Z.max 0 (85 - yield_percent) * 4.

(** Ten times the score before it is clamped: 100 minus the yield penalty,
    the throughput penalty [max(0, 100 - throughput_percent) * 0.4], the
    bug penalty [bug_count * 0.2] and the delay penalty
    [max(0, delay_days) * 0.5]. *)
Definition spec_score_tenths (yield_percent throughput bug_count delay_days : Z) : Z :=
  1000 - spec_yield_penalty_tenths yield_percent
       - Z.max 0 (100 - throughput) * 4
       - bug_count * 2
       - Z.max 0 delay_days * 5.

(** Ten times the score clamped to [0, 100]. *)
Definition spec_clamped_tenths (yield_percent throughput bug_count delay_days : Z) : Z :=
  Z.max 0 (Z.min 1000 (spec_score_tenths yield_percent throughput bug_count delay_days)).

(** The clamped score rounded to the nearest integer, a tie going to the
    even integer, or a tie going up: the two roundings the specification
    allows. *)
Definition spec_score_half_even (yield_percent throughput bug_count delay_days : Z) : Z :=
  round_half_even (spec_clamped_tenths yield_percent throughput bug_count delay_days) 10.

Definition spec_score_half_up (yield_percent throughput bug_count delay_days : Z) : Z :=
  (spec_clamped_tenths yield_percent throughput bug_count delay_days + 5) / 10.

(** A zero or a negative number, finite or not. *)
Definition nonpositive (x : float) : Prop :=
  match x with
  | S754_zero _ => True
  | S754_finite s _ _ | S754_infinity s => s = true
  | S754_nan => False
  end.

(** * Properties *)

(** ** The runtime *)

Lemma bind_assoc {A B C : Type} (c : result A) (k : A -> result B) (h : B -> result C) :
  bind (bind c k) h = bind c (fun a => bind (k a) h).
Proof. destruct c; reflexivity. Qed.

Lemma bind_ok {A B : Type} (c : result A) (k : A -> result B) (b : B) :
  bind c k = Ok b -> exists a, c = Ok a /\ k a = Ok b.
Proof. destruct c as [a|e]; simpl; [eauto | discriminate]. Qed.

Lemma Zrange_in lo hi x :
  lo <= x <= hi -> In x (Zrange lo (Z.to_nat (hi - lo + 1))).
Proof.
  intros H. unfold Zrange. apply in_map_iff.
  exists (Z.to_nat (x - lo)). split; [lia|].
  apply in_seq. lia.
Qed.

(** A property checked on every integer of a range holds on the range. *)
Lemma forall_Zrange (P : Z -> bool) lo hi :
  forallb P (Zrange lo (Z.to_nat (hi - lo + 1))) = true ->
  forall x, lo <= x <= hi -> P x = true.
Proof.
  intros Hall x Hx. rewrite forallb_forall in Hall.
  apply Hall, Zrange_in, Hx.
Qed.

(** The float literals are the correctly rounded decimals. *)
Lemma literals_nearest :
  SFdiv prec emax (exact_int 12) (exact_int 10) = lit_1_2 /\
  SFdiv prec emax (exact_int 4) (exact_int 10) = lit_0_4 /\
  SFdiv prec emax (exact_int 2) (exact_int 10) = lit_0_2 /\
  SFdiv prec emax (exact_int 5) (exact_int 10) = lit_0_5.
Proof. repeat split; vm_compute; reflexivity. Qed.

(** ** Unknown products *)

Lemma getitem_unconfigured (product_name : string) :
  ~ configured product_name ->
  build_product_tasks product_name = Raise (KeyError product_name).
Proof.
  intros Hnot. unfold configured in Hnot. simpl in Hnot.
  unfold build_product_tasks, getitem. cbn [PRODUCT_CONFIGS get].
  destruct (String.eqb_spec product_name "MacBook Pro") as [Heq|_];
    [exfalso; apply Hnot; auto|].
  destruct (String.eqb_spec product_name "iPad Pro") as [Heq|_];
    [exfalso; apply Hnot; auto|].
  destruct (String.eqb_spec product_name "Vision Pro") as [Heq|_];
    [exfalso; apply Hnot; auto|].
  reflexivity.
Qed.

(** C8: a product identifier that is not one of the configured products
    makes [build_product_tasks] fail with [UnknownProduct] (the [KeyError] of
    the configuration lookup); no task graph is returned in its place. *)
Theorem build_product_tasks_unknown_product (product_name : string) :
  ~ In product_name ["MacBook Pro"; "iPad Pro"; "Vision Pro"] ->
  build_product_tasks product_name = Raise (UnknownProduct product_name) /\
  forall tasks, build_product_tasks product_name <> Ok tasks.
Proof.
  intros Hnot.
  assert (H : build_product_tasks product_name = Raise (UnknownProduct product_name))
    by (apply getitem_unconfigured; exact Hnot).
  split; [exact H|]. intros tasks Htasks. rewrite H in Htasks. discriminate.
Qed.

Lemma build_product_tasks_unknown_product_witness :
  build_product_tasks "Apple Watch" = Raise (UnknownProduct "Apple Watch") /\
  forall tasks, build_product_tasks "Apple Watch" <> Ok tasks.
Proof.
  apply (build_product_tasks_unknown_product "Apple Watch").
  simpl. intros [H|[H|[H|[]]]]; discriminate H.
Defined.

(** ** Dictionaries *)

Lemma get_in_keys {V : Type} (k : string) (d : dict V) :
  In k (keys d) <-> exists v, get k d = Some v.
Proof.
  induction d as [|[k' v'] d IH]; simpl.
  - split; [tauto | intros [v H]; discriminate].
  - destruct (String.eqb_spec k k') as [->|Hne].
    + split; eauto.
    + rewrite <- IH. split; [intros [H|H]; [congruence | assumption] | auto].
Qed.

Lemma get_none {V : Type} (k : string) (d : dict V) :
  ~ In k (keys d) <-> get k d = None.
Proof.
  rewrite get_in_keys. destruct (get k d) as [v|].
  - split; [intros H; exfalso; apply H; eauto | discriminate].
  - split; [reflexivity | intros _ [v H]; discriminate].
Qed.

Lemma get_In {V : Type} (k : string) (v : V) (d : dict V) :
  get k d = Some v -> In (k, v) d.
Proof.
  induction d as [|[k' v'] d IH]; simpl; [discriminate|].
  destruct (String.eqb_spec k k') as [->|Hne].
  - intros [= ->]. auto.
  - auto.
Qed.

Lemma In_get {V : Type} (k : string) (v : V) (d : dict V) :
  wf d -> In (k, v) d -> get k d = Some v.
Proof.
  unfold wf. induction d as [|[k' v'] d IH]; simpl; [tauto|].
  intros Hnd [Heq|Hin].
  - injection Heq as -> ->. rewrite String.eqb_refl. reflexivity.
  - inversion Hnd as [|? ? Hnotin Hnd']; subst.
    destruct (String.eqb_spec k k') as [->|Hne].
    + exfalso. apply Hnotin. change (In (fst (k', v)) (map fst d)).
      apply in_map. assumption.
    + auto.
Qed.

Lemma set_fresh {V : Type} (k : string) (v : V) (d : dict V) :
  ~ In k (keys d) -> Py.set k v d = (d ++ [(k, v)])%list.
Proof.
  induction d as [|[k' v'] d IH]; simpl; [reflexivity|].
  intros Hnot. destruct (String.eqb_spec k k') as [->|Hne].
  - exfalso. auto.
  - rewrite IH; [reflexivity | tauto].
Qed.

Lemma get_set_eq {V : Type} (k : string) (v : V) (d : dict V) :
  get k (Py.set k v d) = Some v.
Proof.
  induction d as [|[k' v'] d IH]; simpl.
  - rewrite String.eqb_refl. reflexivity.
  - destruct (String.eqb_spec k k') as [->|Hne]; simpl.
    + rewrite String.eqb_refl. reflexivity.
    + destruct (String.eqb_spec k k'); [contradiction | assumption].
Qed.

Lemma get_set_neq {V : Type} (k k' : string) (v : V) (d : dict V) :
  k <> k' -> get k (Py.set k' v d) = get k d.
Proof.
  intros Hne. induction d as [|[k2 v2] d IH]; simpl.
  - destruct (String.eqb_spec k k'); [contradiction | reflexivity].
  - destruct (String.eqb_spec k' k2) as [->|Hne2]; simpl.
    + destruct (String.eqb_spec k k2); [contradiction | reflexivity].
    + destruct (String.eqb_spec k k2); [reflexivity | assumption].
Qed.

Lemma keys_set {V : Type} (k : string) (v : V) (d : dict V) :
  keys (Py.set k v d) = if in_dec string_dec k (keys d) then keys d else (keys d ++ [k])%list.
Proof.
  induction d as [|[k' v'] d IH]; simpl; [reflexivity|].
  destruct (String.eqb_spec k k') as [Heq|Hne]; simpl.
  - subst k'. destruct (string_dec k k); [reflexivity | contradiction].
  - destruct (string_dec k' k) as [Heq|Hne2]; [symmetry in Heq; contradiction|].
    rewrite IH. destruct (in_dec string_dec k (keys d)); reflexivity.
Qed.

(** ** Allocation delays *)

Lemma base_delay_exact (y : Z) :
  40 <= y <= 69 ->
  (shortage_factor <- truediv (70 - y) 70 ;;
   scaled <- float_mul_int shortage_factor 28 ;;
   ceil scaled) = Ok (spec_base_delay y).
Proof.
  intros Hy.
  pose (P := fun y =>
    match (shortage_factor <- truediv (70 - y) 70 ;;
           scaled <- float_mul_int shortage_factor 28 ;;
           ceil scaled) with
    | Ok z => z =? spec_base_delay y
    | Raise _ => false
    end).
  assert (Hall : forallb P (Zrange 40 (Z.to_nat (69 - 40 + 1))) = true)
    by (vm_compute; reflexivity).
  pose proof (forall_Zrange P 40 69 Hall y Hy) as HP. unfold P in HP.
  destruct (shortage_factor <- truediv (70 - y) 70 ;;
            scaled <- float_mul_int shortage_factor 28 ;;
            ceil scaled) as [z|e]; [|discriminate].
  apply Z.eqb_eq in HP. congruence.
Qed.

Lemma compute_allocation_delays_exact (y : Z) :
  valid_yield y ->
  compute_allocation_delays y = Ok (spec_allocation_delays y).
Proof.
  intros Hy. unfold valid_yield in Hy.
  unfold compute_allocation_delays, spec_allocation_delays, spec_allocation_delay.
  destruct (70 <=? y) eqn:Hge; [reflexivity|].
  apply Z.leb_gt in Hge.
  pose proof (base_delay_exact y ltac:(lia)) as Hb.
  destruct (truediv (70 - y) 70) as [sf|]; [|discriminate Hb].
  cbn [bind] in *.
  destruct (float_mul_int sf 28) as [sc|]; [|discriminate Hb].
  cbn [bind] in *. rewrite Hb. reflexivity.
Qed.

(** ** The delay factors on the slider ranges *)

Lemma compute_bug_delay_exact (b : Z) :
  valid_bug_count b -> compute_bug_delay b = Ok (spec_bug_delay b).
Proof.
  intros Hb.
  pose (P := fun b =>
    match compute_bug_delay b with
    | Ok z => z =? spec_bug_delay b
    | Raise _ => false
    end).
  assert (Hall : forallb P (Zrange 0 (Z.to_nat (200 - 0 + 1))) = true)
    by (vm_compute; reflexivity).
  pose proof (forall_Zrange P 0 200 Hall b Hb) as HP. unfold P in HP.
  destruct (compute_bug_delay b) as [z|e]; [|discriminate].
  apply Z.eqb_eq in HP. congruence.
Qed.

Lemma compute_na_delay_exact (t : Z) :
  valid_throughput t ->
  compute_na_delay t = Ok (spec_na_delay t).
Proof.
  intros Ht.
  pose (P := fun t =>
    match compute_na_delay t with
    | Ok z => z =? spec_na_delay t
    | Raise _ => false
    end).
  assert (Hall : forallb P (Zrange 60 (Z.to_nat (120 - 60 + 1))) = true)
    by (vm_compute; reflexivity).
  pose proof (forall_Zrange P 60 120 Hall t Ht) as HP. unfold P in HP.
  destruct (compute_na_delay t) as [z|e]; [|discriminate].
  apply Z.eqb_eq in HP. congruence.
Qed.

(** The 14 days of "Factory Build" under the throughput multiplier. *)
Lemma factory_build_exact (t : Z) :
  valid_throughput t ->
  exists fm, truediv 100 (Z.max 1 t) = Ok fm /\
             scale_duration 14 fm = Ok (spec_factory_duration t 14).
Proof.
  intros Ht.
  pose (P := fun t =>
    match truediv 100 (Z.max 1 t) with
    | Ok fm =>
        match scale_duration 14 fm with
        | Ok z => z =? spec_factory_duration t 14
        | Raise _ => false
        end
    | Raise _ => false
    end).
  assert (Hall : forallb P (Zrange 60 (Z.to_nat (120 - 60 + 1))) = true)
    by (vm_compute; reflexivity).
  pose proof (forall_Zrange P 60 120 Hall t Ht) as HP. unfold P in HP.
  destruct (truediv 100 (Z.max 1 t)) as [fm|e]; [|discriminate].
  exists fm. split; [reflexivity|].
  destruct (scale_duration 14 fm) as [z|e]; [|discriminate].
  apply Z.eqb_eq in HP. congruence.
Qed.

(** ** The constraint applicator as a map over the tasks *)

Lemma adjust_duration_pure fm scale bd nd al name meta :
  (type meta = "factory" -> scale_duration (duration meta) fm = Ok (scale (duration meta))) ->
  adjust_duration fm bd nd al name meta =
    Ok (adjusted_duration scale bd nd al name meta).
Proof.
  intros Hscale. unfold adjust_duration, adjusted_duration.
  destruct (String.eqb_spec (type meta) "factory") as [Hf|Hf].
  - rewrite (Hscale Hf). reflexivity.
  - reflexivity.
Qed.

Lemma adjust_tasks_app fm scale bd nd al items :
  forall updated,
  (forall name meta, In (name, meta) items -> type meta = "factory" ->
     scale_duration (duration meta) fm = Ok (scale (duration meta))) ->
  wf items ->
  (forall k, In k (keys items) -> ~ In k (keys updated)) ->
  adjust_tasks fm bd nd al items updated =
    Ok (updated ++ adjusted_tasks scale bd nd al items)%list.
Proof.
  unfold wf. induction items as [|[name meta] items IH]; intros updated Hscale Hnd Hfresh.
  - simpl. rewrite app_nil_r. reflexivity.
  - simpl in Hnd. inversion Hnd as [|? ? Hnotin Hnd']; subst.
    cbn [adjust_tasks].
    rewrite (adjust_duration_pure fm scale).
    2:{ intros Hf. apply (Hscale name meta); [left; reflexivity | assumption]. }
    cbn [bind]. rewrite set_fresh by (apply Hfresh; left; reflexivity).
    rewrite IH.
    + rewrite <- app_assoc. reflexivity.
    + intros n m Hin Hf. apply (Hscale n m); [right; assumption | assumption].
    + assumption.
    + intros k Hk. unfold keys. rewrite map_app. simpl. rewrite in_app_iff.
      intros [Hin|[Heq|[]]].
      * apply (Hfresh k); [right; assumption | assumption].
      * subst k. contradiction.
Qed.

Lemma adjust_tasks_map fm scale bd nd al tasks :
  (forall name meta, In (name, meta) tasks -> type meta = "factory" ->
     scale_duration (duration meta) fm = Ok (scale (duration meta))) ->
  wf tasks ->
  adjust_tasks fm bd nd al tasks [] = Ok (adjusted_tasks scale bd nd al tasks).
Proof.
  intros Hscale Hwf.
  rewrite (adjust_tasks_app fm scale); auto.
Qed.

Lemma adjusted_tasks_keys scale bd nd al tasks :
  keys (adjusted_tasks scale bd nd al tasks) = keys tasks.
Proof.
  unfold keys, adjusted_tasks. rewrite map_map. reflexivity.
Qed.

Lemma adjusted_tasks_get scale bd nd al tasks name :
  get name (adjusted_tasks scale bd nd al tasks) =
    match get name tasks with
    | Some meta =>
        Some (mk_meta (adjusted_duration scale bd nd al name meta) (deps meta) (type meta))
    | None => None
    end.
Proof.
  induction tasks as [|[k m] tasks IH]; simpl; [reflexivity|].
  destruct (String.eqb_spec name k) as [->|Hne]; [reflexivity | assumption].
Qed.

(** ** The three product graphs under constraints *)

Lemma configured_cases (p : string) :
  configured p -> p = "MacBook Pro" \/ p = "iPad Pro" \/ p = "Vision Pro".
Proof.
  unfold configured. simpl. intros [H|[H|[H|[]]]]; subst; auto.
Qed.

Lemma build_product_tasks_wf (p : string) (base : dict task_meta) :
  build_product_tasks p = Ok base -> wf base.
Proof.
  intros Hb. unfold wf.
  assert (Hc : configured p).
  { destruct (in_dec string_dec p (keys PRODUCT_CONFIGS)) as [Hin|Hnot]; [exact Hin|].
    rewrite (getitem_unconfigured p Hnot) in Hb. discriminate Hb. }
  destruct (configured_cases p Hc) as [-> | [-> | ->]];
    vm_compute in Hb; injection Hb as <-;
    repeat constructor; simpl; intuition discriminate.
Qed.

Lemma apply_constraints_product (p : string) (y t b : Z) :
  configured p -> valid_yield y -> valid_throughput t -> valid_bug_count b ->
  exists base,
    build_product_tasks p = Ok base /\
    apply_constraints base p y t b =
      Ok (spec_adjusted_tasks p y t b base, spec_allocation_delays y, spec_na_delay t).
Proof.
  intros Hp Hy Ht Hb.
  destruct (factory_build_exact t Ht) as [fm [Hfm Hscale]].
  assert (Hbase : exists base, build_product_tasks p = Ok base /\
            (forall name meta, In (name, meta) base -> type meta = "factory" ->
               duration meta = 14) /\
            get_default p 0 (spec_allocation_delays y) = spec_allocation_delay p y).
  { destruct (configured_cases p Hp) as [-> | [-> | ->]];
      (eexists; split; [vm_compute; reflexivity|]; split; [|reflexivity]);
      intros name meta Hin Hf; simpl in Hin;
      repeat (destruct Hin as [Hin|Hin];
              [injection Hin as Hn Hm; subst name meta;
               first [reflexivity | discriminate Hf]|]);
      destruct Hin. }
  destruct Hbase as [base [Hbuild [Hfactory Halloc]]].
  exists base. split; [exact Hbuild|].
  unfold apply_constraints.
  rewrite (compute_allocation_delays_exact y Hy). cbn [bind].
  rewrite Hfm. cbn [bind].
  rewrite (compute_bug_delay_exact b Hb). cbn [bind].
  rewrite (compute_na_delay_exact t Ht). cbn [bind].
  rewrite Halloc.
  rewrite (adjust_tasks_map fm (spec_factory_duration t)).
  - reflexivity.
  - intros name meta Hin Hf. rewrite (Hfactory name meta Hin Hf). exact Hscale.
  - apply (build_product_tasks_wf p). exact Hbuild.
Qed.

Lemma ceil_div_mono (n m d : Z) : 0 < d -> n <= m -> ceil_div n d <= ceil_div m d.
Proof.
  intros Hd Hnm. unfold ceil_div.
  apply Z.opp_le_mono. rewrite !Z.opp_involutive.
  apply Z.div_le_mono; lia.
Qed.

(** C1: on the slider range of [yield_percent], the allocation delays are 0
    for every product from 70 up, and below 70 they are 0 for MacBook Pro,
    [base_delay] for iPad Pro and [base_delay + 7] for Vision Pro with
    [base_delay = ceil(((70 - yield_percent) / 70) * 28)]; the delay of the
    product being scheduled is added to the 30 days of its "M5 Chip" task;
    at 40 the delays are 0, 12 and 19. *)
Theorem allocation_delay_on_m5_chip (yield_percent : Z) :
  valid_yield yield_percent ->
  compute_allocation_delays yield_percent =
    Ok [ ("MacBook Pro", 0);
         ("iPad Pro", if 70 <=? yield_percent then 0 else spec_base_delay yield_percent);
         ("Vision Pro",
           if 70 <=? yield_percent then 0 else spec_base_delay yield_percent + 7) ] /\
  (forall product_name throughput bug_count,
     configured product_name ->
     valid_throughput throughput -> valid_bug_count bug_count ->
     exists base updated delays na_delay m5 delay,
       build_product_tasks product_name = Ok base /\
       apply_constraints base product_name yield_percent throughput bug_count =
         Ok (updated, delays, na_delay) /\
       compute_allocation_delays yield_percent = Ok delays /\
       get product_name delays = Some delay /\
       get "M5 Chip" updated = Some m5 /\
       duration m5 = 30 + delay) /\
  compute_allocation_delays 40 =
    Ok [ ("MacBook Pro", 0); ("iPad Pro", 12); ("Vision Pro", 19) ].
Proof.
  intros Hy. split; [|split].
  - rewrite (compute_allocation_delays_exact _ Hy).
    unfold spec_allocation_delays, spec_allocation_delay.
    destruct (70 <=? yield_percent); reflexivity.
  - intros p t b Hp Ht Hb.
    destruct (apply_constraints_product p yield_percent t b Hp Hy Ht Hb)
      as [base [Hbuild Happly]].
    exists base, (spec_adjusted_tasks p yield_percent t b base),
      (spec_allocation_delays yield_percent), (spec_na_delay t).
    assert (Hnonneg : 0 <= spec_allocation_delay p yield_percent).
    { unfold spec_allocation_delay, valid_yield in *.
      destruct (70 <=? yield_percent) eqn:Hge; [lia|]. apply Z.leb_gt in Hge.
      assert (0 <= spec_base_delay yield_percent).
      { unfold spec_base_delay.
        change 0 with (ceil_div 0 70). apply ceil_div_mono; lia. }
      repeat match goal with |- context [String.eqb ?a ?b] => destruct (String.eqb a b) end;
        lia. }
    destruct (configured_cases p Hp) as [-> | [-> | ->]];
      vm_compute in Hbuild; injection Hbuild as <-;
      (match type of Hnonneg with
       | 0 <= ?al =>
           exists (mk_meta (Z.max 0 (30 + al)) [] "component"), al
       end;
       split; [reflexivity|]; split; [exact Happly|];
       split; [apply compute_allocation_delays_exact; exact Hy|];
       split; [reflexivity|]; split; [reflexivity|];
       cbn [duration]; lia).
  - vm_compute. reflexivity.
Qed.

Lemma allocation_delay_on_m5_chip_witness :
  compute_allocation_delays 55 =
    Ok [ ("MacBook Pro", 0);
         ("iPad Pro", if 70 <=? 55 then 0 else spec_base_delay 55);
         ("Vision Pro", if 70 <=? 55 then 0 else spec_base_delay 55 + 7) ] /\
  (forall product_name throughput bug_count,
     configured product_name ->
     valid_throughput throughput -> valid_bug_count bug_count ->
     exists base updated delays na_delay m5 delay,
       build_product_tasks product_name = Ok base /\
       apply_constraints base product_name 55 throughput bug_count =
         Ok (updated, delays, na_delay) /\
       compute_allocation_delays 55 = Ok delays /\
       get product_name delays = Some delay /\
       get "M5 Chip" updated = Some m5 /\
       duration m5 = 30 + delay) /\
  compute_allocation_delays 40 =
    Ok [ ("MacBook Pro", 0); ("iPad Pro", 12); ("Vision Pro", 19) ].
Proof.
  apply (allocation_delay_on_m5_chip 55). unfold valid_yield. lia.
Defined.

Lemma spec_base_delay_antitone (y1 y2 : Z) :
  y2 <= y1 -> spec_base_delay y1 <= spec_base_delay y2.
Proof.
  intros H. unfold spec_base_delay. apply ceil_div_mono; lia.
Qed.

Lemma macbook_delay_zero (y : Z) (delays : dict Z) :
  compute_allocation_delays y = Ok delays -> get "MacBook Pro" delays = Some 0.
Proof.
  unfold compute_allocation_delays. destruct (70 <=? y).
  - intros [= <-]. reflexivity.
  - intros H.
    apply bind_ok in H. destruct H as [sf [_ H]].
    apply bind_ok in H. destruct H as [sc [_ H]].
    apply bind_ok in H. destruct H as [bd [_ H]].
    injection H as <-. reflexivity.
Qed.

(** C9: for yields [y2 < y1] below 70 on the slider range, the allocation
    delays of iPad Pro and of Vision Pro at [y2] are at least those at [y1];
    the delay of MacBook Pro is 0 in every allocation-delay map the function
    returns, and it returns one for every yield of the range. *)
Theorem allocation_delay_monotone (y1 y2 : Z) :
  40 <= y2 -> y2 < y1 -> y1 < 70 ->
  (exists d1 d2 ipad1 ipad2 vision1 vision2,
     compute_allocation_delays y1 = Ok d1 /\
     compute_allocation_delays y2 = Ok d2 /\
     get "iPad Pro" d1 = Some ipad1 /\ get "iPad Pro" d2 = Some ipad2 /\
     get "Vision Pro" d1 = Some vision1 /\ get "Vision Pro" d2 = Some vision2 /\
     ipad1 <= ipad2 /\ vision1 <= vision2) /\
  (forall y delays,
     compute_allocation_delays y = Ok delays -> get "MacBook Pro" delays = Some 0) /\
  (forall y, valid_yield y ->
     exists delays, compute_allocation_delays y = Ok delays /\
                    get "MacBook Pro" delays = Some 0).
Proof.
  intros H40 Hlt H70. split; [|split].
  - exists (spec_allocation_delays y1), (spec_allocation_delays y2),
      (spec_base_delay y1), (spec_base_delay y2),
      (spec_base_delay y1 + 7), (spec_base_delay y2 + 7).
    assert (Hl1 : (70 <=? y1) = false) by (apply Z.leb_gt; lia).
    assert (Hl2 : (70 <=? y2) = false) by (apply Z.leb_gt; lia).
    pose proof (spec_base_delay_antitone y1 y2 ltac:(lia)) as Hmono.
    repeat split.
    + apply compute_allocation_delays_exact. unfold valid_yield. lia.
    + apply compute_allocation_delays_exact. unfold valid_yield. lia.
    + unfold spec_allocation_delays, spec_allocation_delay. rewrite Hl1. reflexivity.
    + unfold spec_allocation_delays, spec_allocation_delay. rewrite Hl2. reflexivity.
    + unfold spec_allocation_delays, spec_allocation_delay. rewrite Hl1. reflexivity.
    + unfold spec_allocation_delays, spec_allocation_delay. rewrite Hl2. reflexivity.
    + exact Hmono.
    + lia.
  - exact macbook_delay_zero.
  - intros y Hy. exists (spec_allocation_delays y).
    pose proof (compute_allocation_delays_exact y Hy) as Hd.
    split; [exact Hd | exact (macbook_delay_zero y _ Hd)].
Qed.

Lemma allocation_delay_monotone_witness :
  (exists d1 d2 ipad1 ipad2 vision1 vision2,
     compute_allocation_delays 60 = Ok d1 /\
     compute_allocation_delays 45 = Ok d2 /\
     get "iPad Pro" d1 = Some ipad1 /\ get "iPad Pro" d2 = Some ipad2 /\
     get "Vision Pro" d1 = Some vision1 /\ get "Vision Pro" d2 = Some vision2 /\
     ipad1 <= ipad2 /\ vision1 <= vision2) /\
  (forall y delays,
     compute_allocation_delays y = Ok delays -> get "MacBook Pro" delays = Some 0) /\
  (forall y, valid_yield y ->
     exists delays, compute_allocation_delays y = Ok delays /\
                    get "MacBook Pro" delays = Some 0).
Proof.
  apply (allocation_delay_monotone 60 45); lia.
Defined.

(** ** The ready-set loop *)

Lemma toposort_loop remaining order :
  toposort remaining order =
    match remaining with
    | [] => Ok order
    | _ :: _ =>
        match ready_tasks remaining with
        | [] => Raise CyclicDependency
        | r :: rs =>
            toposort (snd (schedule_ready (r :: rs) (order, remaining)))
                     (fst (schedule_ready (r :: rs) (order, remaining)))
        end
    end.
Proof.
  destruct remaining as [|kv rest].
  - simp toposort. reflexivity.
  - simp toposort.
    generalize (inspect (ready_tasks (kv :: rest))). intros [ready Hready].
    transitivity
      (match ready with
       | [] => Raise CyclicDependency
       | r :: rs =>
           toposort (snd (schedule_ready (r :: rs) (order, kv :: rest)))
                    (fst (schedule_ready (r :: rs) (order, kv :: rest)))
       end).
    + destruct ready as [|r rs]; reflexivity.
    + rewrite Hready. reflexivity.
Qed.

Lemma mem_In x l : mem x l = true <-> In x l.
Proof.
  unfold mem. rewrite existsb_exists. split.
  - intros [y [Hin Heq]]. apply String.eqb_eq in Heq. subst. assumption.
  - intros Hin. exists x. split; [assumption | apply String.eqb_refl].
Qed.

Lemma mem_false x l : mem x l = false <-> ~ In x l.
Proof.
  rewrite <- mem_In. destruct (mem x l); split; intros; congruence.
Qed.

Lemma discard_filter t s :
  discard t s = filter (fun d => negb (String.eqb d t)) s.
Proof.
  unfold discard. induction s as [|x s IH]; simpl; [reflexivity|].
  destruct (string_dec t x) as [->|Hne].
  - rewrite String.eqb_refl. simpl. assumption.
  - destruct (String.eqb_spec x t) as [->|_]; [contradiction|].
    simpl. rewrite IH. reflexivity.
Qed.

Lemma filter_filter {A : Type} (f g : A -> bool) (l : list A) :
  filter f (filter g l) = filter (fun x => g x && f x) l.
Proof.
  induction l as [|x l IH]; simpl; [reflexivity|].
  destruct (g x); simpl; [destruct (f x)|]; rewrite IH; reflexivity.
Qed.

Lemma filter_map_fst {A B : Type} (f : A -> bool) (g : B -> B) (l : list (A * B)) :
  filter (fun kv => f (fst kv)) (map (fun kv => (fst kv, g (snd kv))) l) =
  map (fun kv => (fst kv, g (snd kv))) (filter (fun kv => f (fst kv)) l).
Proof.
  induction l as [|[a b] l IH]; simpl; [reflexivity|].
  destruct (f a); simpl; rewrite IH; reflexivity.
Qed.

Lemma schedule_task_prune order remaining task :
  schedule_task (order, remaining) task = ((order ++ [task])%list, prune [task] remaining).
Proof.
  unfold schedule_task, prune, del.
  assert (Hf : filter (fun kv : string * list string => negb (String.eqb task (fst kv))) remaining =
               filter (fun kv => negb (mem (fst kv) [task])) remaining).
  { apply filter_ext. intros [k v]. simpl. rewrite orb_false_r, String.eqb_sym. reflexivity. }
  rewrite Hf. apply f_equal. apply map_ext. intros [k v]. simpl. apply f_equal.
  rewrite discard_filter. apply filter_ext. intros d. simpl.
  rewrite orb_false_r. reflexivity.
Qed.

Lemma prune_prune l1 l2 remaining :
  prune l2 (prune l1 remaining) = prune (l1 ++ l2) remaining.
Proof.
  unfold prune.
  rewrite (filter_map_fst (fun k => negb (mem k l2))
             (fun s => filter (fun d => negb (mem d l1)) s)).
  rewrite map_map, filter_filter. simpl.
  assert (Hmem : forall x, negb (mem x l1) && negb (mem x l2) = negb (mem x (l1 ++ l2))).
  { intros x. unfold mem. rewrite existsb_app, negb_orb. reflexivity. }
  assert (Hf : filter (fun x : string * list string =>
                         negb (mem (fst x) l1) && negb (mem (fst x) l2)) remaining =
               filter (fun kv => negb (mem (fst kv) (l1 ++ l2))) remaining).
  { apply filter_ext. intros x. apply Hmem. }
  rewrite Hf. apply map_ext. intros [k v]. simpl. f_equal.
  rewrite filter_filter. apply filter_ext. intros x. apply Hmem.
Qed.

Lemma filter_all {A : Type} (l : list A) : filter (fun _ => true) l = l.
Proof. induction l as [|x l IH]; simpl; [|rewrite IH]; reflexivity. Qed.

Lemma prune_nil remaining : prune [] remaining = remaining.
Proof.
  unfold prune. simpl. rewrite filter_all.
  induction remaining as [|[k v] r IH]; simpl; [reflexivity|].
  rewrite IH, filter_all. reflexivity.
Qed.

Lemma fold_schedule_task l :
  forall order remaining,
  fold_left schedule_task l (order, remaining) = ((order ++ l)%list, prune l remaining).
Proof.
  induction l as [|t l IH]; intros order remaining; cbn [fold_left].
  - rewrite app_nil_r, prune_nil. reflexivity.
  - rewrite schedule_task_prune, IH, prune_prune, <- app_assoc. reflexivity.
Qed.

Lemma schedule_ready_prune ready order remaining :
  schedule_ready ready (order, remaining) =
    ((order ++ sorted ready)%list, prune (sorted ready) remaining).
Proof. unfold schedule_ready. apply fold_schedule_task. Qed.

Lemma insert_sorted_in x y l : In y (insert_sorted x l) <-> y = x \/ In y l.
Proof.
  induction l as [|z l IH]; simpl.
  - intuition congruence.
  - destruct (String.leb x z); simpl; [intuition congruence|].
    rewrite IH. tauto.
Qed.

Lemma sorted_in y l : In y (sorted l) <-> In y l.
Proof.
  induction l as [|x l IH]; simpl; [tauto|].
  rewrite insert_sorted_in, IH. intuition congruence.
Qed.

Lemma insert_sorted_perm x l : Permutation (x :: l) (insert_sorted x l).
Proof.
  induction l as [|y l IH]; simpl; [reflexivity|].
  destruct (String.leb x y); [reflexivity|].
  rewrite perm_swap. apply perm_skip. assumption.
Qed.

Lemma sorted_perm l : Permutation l (sorted l).
Proof.
  induction l as [|x l IH]; simpl; [constructor|].
  rewrite <- insert_sorted_perm. apply perm_skip. assumption.
Qed.

Lemma prune_keys done remaining k :
  In k (keys (prune done remaining)) <-> In k (keys remaining) /\ ~ In k done.
Proof.
  unfold prune, keys. rewrite map_map. simpl. rewrite !in_map_iff. split.
  - intros [kv [Hk Hin]]. apply filter_In in Hin. destruct Hin as [Hin Hm].
    apply negb_true_iff, mem_false in Hm. subst k. split; [|assumption].
    exists kv. auto.
  - intros [[kv [Hk Hin]] Hnot]. exists kv. split; [assumption|].
    apply filter_In. split; [assumption|].
    apply negb_true_iff, mem_false. subst k. assumption.
Qed.

Lemma prune_In done remaining k s :
  In (k, s) (prune done remaining) <->
  exists s0, In (k, s0) remaining /\ ~ In k done /\
             s = filter (fun d => negb (mem d done)) s0.
Proof.
  unfold prune. rewrite in_map_iff. split.
  - intros [[k0 s0] [Heq Hin]]. simpl in Heq. injection Heq as -> <-.
    apply filter_In in Hin. destruct Hin as [Hin Hm]. simpl in Hm.
    apply negb_true_iff, mem_false in Hm. exists s0. auto.
  - intros [s0 [Hin [Hnot ->]]]. exists (k, s0). split; [reflexivity|].
    apply filter_In. split; [assumption|]. simpl.
    apply negb_true_iff, mem_false. assumption.
Qed.

Lemma prune_wf done remaining : wf remaining -> wf (prune done remaining).
Proof.
  unfold wf, prune, keys. rewrite map_map. simpl.
  induction remaining as [|[k v] r IH]; simpl; [constructor|].
  intros Hnd. inversion Hnd as [|? ? Hnotin Hnd']; subst.
  destruct (negb (mem k done)); simpl; [|auto].
  constructor; [|auto].
  rewrite in_map_iff. intros [kv [Hk Hin]]. apply filter_In in Hin.
  apply Hnotin. rewrite in_map_iff. exists kv. tauto.
Qed.

Lemma ready_tasks_In remaining k :
  In k (ready_tasks remaining) <-> In (k, []) remaining.
Proof.
  unfold ready_tasks. rewrite in_map_iff. split.
  - intros [[k0 s] [Hk Hin]]. simpl in Hk. subst k0.
    apply filter_In in Hin. destruct Hin as [Hin He]. simpl in He.
    destruct s; [assumption | discriminate].
  - intros Hin. exists (k, []). split; [reflexivity|].
    apply filter_In. auto.
Qed.

Lemma insert_sorted_ascending x l : ascending l -> ascending (insert_sorted x l).
Proof.
  unfold ascending. induction l as [|y l IH]; simpl; intros Hs.
  - repeat constructor.
  - destruct (String.leb x y) eqn:Hxy.
    + constructor; [assumption|]. constructor. assumption.
    + inversion Hs as [|? ? Hs' Hhd]; subst.
      constructor; [apply IH; assumption|].
      assert (Hyx : String.leb y x = true).
      { destruct (String.leb_total x y) as [H|H]; [congruence | assumption]. }
      destruct l as [|z l]; simpl.
      * constructor. assumption.
      * destruct (String.leb x z); constructor; [assumption|].
        inversion Hhd; subst. assumption.
Qed.

Lemma sorted_ascending l : ascending (sorted l).
Proof.
  induction l as [|x l IH]; simpl.
  - constructor.
  - apply insert_sorted_ascending. assumption.
Qed.

Lemma initial_remaining_app tasks :
  forall acc,
  wf tasks ->
  (forall k, In k (keys tasks) -> ~ In k (keys acc)) ->
  fold_left (fun remaining kv => Py.set (fst kv) (set_of_list (deps (snd kv))) remaining)
    tasks acc =
  (acc ++ map (fun kv => (fst kv, set_of_list (deps (snd kv)))) tasks)%list.
Proof.
  unfold wf. induction tasks as [|[k m] tasks IH]; intros acc Hnd Hfresh; simpl.
  - rewrite app_nil_r. reflexivity.
  - simpl in Hnd. inversion Hnd as [|? ? Hnotin Hnd']; subst.
    rewrite set_fresh by (apply Hfresh; left; reflexivity).
    rewrite IH; [rewrite <- app_assoc; reflexivity | assumption |].
    intros k' Hk'. unfold keys. rewrite map_app, in_app_iff. simpl.
    intros [Hin|[Heq|[]]].
    + apply (Hfresh k'); [right; assumption | assumption].
    + subst k'. contradiction.
Qed.

Lemma initial_remaining_map tasks :
  wf tasks ->
  initial_remaining tasks = map (fun kv => (fst kv, set_of_list (deps (snd kv)))) tasks.
Proof.
  intros Hwf. unfold initial_remaining.
  rewrite initial_remaining_app; auto.
Qed.

Lemma loop_inv_init tasks : wf tasks -> loop_inv tasks (initial_remaining tasks) [].
Proof.
  intros Hwf. rewrite (initial_remaining_map tasks Hwf).
  assert (Hkeys : keys (map (fun kv : string * task_meta =>
                               (fst kv, set_of_list (deps (snd kv)))) tasks) = keys tasks).
  { unfold keys. rewrite map_map. reflexivity. }
  constructor.
  - constructor.
  - unfold wf. rewrite Hkeys. exact Hwf.
  - intros k. rewrite Hkeys. simpl. tauto.
  - intros k [].
  - intros k s Hin. apply in_map_iff in Hin. destruct Hin as [[k0 m] [Heq Hin]].
    simpl in Heq. injection Heq as -> <-. exists m.
    split; [apply In_get; assumption|].
    intros d. unfold set_of_list. rewrite nodup_In. simpl. tauto.
  - intros l1 k l2 Heq. destruct l1; discriminate Heq.
Qed.

Lemma ready_tasks_nodup remaining : wf remaining -> NoDup (ready_tasks remaining).
Proof.
  unfold wf, ready_tasks, keys.
  induction remaining as [|[k s] r IH]; simpl; [constructor|].
  intros Hnd. inversion Hnd as [|? ? Hnotin Hnd']; subst.
  destruct (is_empty s); simpl; [|auto].
  constructor; [|auto].
  rewrite in_map_iff. intros [kv [Hk Hin]]. apply filter_In in Hin.
  apply Hnotin. rewrite in_map_iff. exists kv. tauto.
Qed.

Lemma ready_tasks_in_keys remaining k :
  In k (ready_tasks remaining) -> In k (keys remaining).
Proof.
  rewrite ready_tasks_In. intros Hin.
  unfold keys. apply in_map_iff. exists (k, []). auto.
Qed.

(** A ready task has all its dependencies scheduled. *)
Lemma ready_deps_scheduled tasks remaining order k d :
  loop_inv tasks remaining order ->
  In k (ready_tasks remaining) -> depends_on tasks k d -> In d order.
Proof.
  intros Hinv Hready [meta [Hget Hd]].
  apply ready_tasks_In in Hready.
  destruct (inv_pending _ _ _ Hinv k [] Hready) as [meta' [Hget' Hpend]].
  assert (meta' = meta) by congruence. subst meta'.
  destruct (in_dec string_dec d order) as [Hin|Hnot]; [assumption|].
  exfalso. apply (proj2 (Hpend d)). auto.
Qed.

(** One pass of the loop keeps the invariant. *)
Lemma loop_inv_pass tasks remaining order batch :
  loop_inv tasks remaining order ->
  Permutation batch (ready_tasks remaining) ->
  loop_inv tasks (prune batch remaining) (order ++ batch)%list.
Proof.
  intros Hinv Hperm.
  assert (Hbatch : forall k, In k batch <-> In k (ready_tasks remaining)).
  { intros k. split; apply Permutation_in; [assumption | symmetry; assumption]. }
  constructor.
  - apply NoDup_app.
    + apply (inv_nodup _ _ _ Hinv).
    + apply (Permutation_NoDup (l := ready_tasks remaining)); [symmetry; assumption|].
      apply ready_tasks_nodup. apply (inv_wf _ _ _ Hinv).
    + intros k Hk Hb. apply Hbatch, ready_tasks_in_keys in Hb.
      apply (inv_disjoint _ _ _ Hinv k Hk Hb).
  - apply prune_wf. apply (inv_wf _ _ _ Hinv).
  - intros k. rewrite (inv_keys _ _ _ Hinv k), in_app_iff, prune_keys.
    destruct (in_dec string_dec k batch) as [Hb|Hb]; [|tauto].
    split; [tauto|]. intros [[H|H]|[H _]]; auto.
    right. apply ready_tasks_in_keys, Hbatch. assumption.
  - intros k. rewrite in_app_iff, prune_keys. intros [Hk|Hk] [Hin Hnot].
    + apply (inv_disjoint _ _ _ Hinv k Hk Hin).
    + contradiction.
  - intros k s Hin. apply prune_In in Hin. destruct Hin as [s0 [Hin [Hnot ->]]].
    destruct (inv_pending _ _ _ Hinv k s0 Hin) as [meta [Hget Hpend]].
    exists meta. split; [assumption|]. intros d.
    rewrite filter_In, negb_true_iff, mem_false, Hpend, in_app_iff. tauto.
  - intros l1 k l2 Heq d Hdep.
    apply app_eq_app in Heq. destruct Heq as [l [[Ho Hb]|[Hl Hb]]].
    + destruct l as [|k' l].
      * simpl in Hb. rewrite app_nil_r in Ho. subst l1.
        apply (ready_deps_scheduled tasks remaining order k d Hinv); [|assumption].
        apply Hbatch. rewrite <- Hb. left. reflexivity.
      * simpl in Hb. injection Hb as <- _.
        apply (inv_topological _ _ _ Hinv l1 k l Ho d Hdep).
    + subst l1. apply in_app_iff. left.
      apply (ready_deps_scheduled tasks remaining order k d Hinv); [|assumption].
      apply Hbatch. rewrite Hb. apply in_app_iff. right. left. reflexivity.
Qed.

Lemma prune_length_lt done remaining t :
  In t done -> In t (keys remaining) ->
  (List.length (prune done remaining) < List.length remaining)%nat.
Proof.
  intros Hdone. unfold prune, keys. rewrite length_map.
  induction remaining as [|[k s] r IH]; simpl; [tauto|].
  intros [Hk|Hk].
  - subst k. apply mem_In in Hdone. rewrite Hdone. simpl.
    pose proof (filter_length_le (fun kv : string * list string => negb (mem (fst kv) done)) r).
    lia.
  - specialize (IH Hk). destruct (negb (mem k done)); simpl; lia.
Qed.

(** The loop either returns an order extending [order] batch by batch, for
    which the invariant holds with nothing remaining, or it raises
    [CyclicDependency] in a state where tasks remain and none is ready. *)
Lemma toposort_spec tasks :
  forall n remaining order,
  (List.length remaining <= n)%nat ->
  loop_inv tasks remaining order ->
  (exists final batches,
     toposort remaining order = Ok final /\
     loop_inv tasks [] final /\
     ready_batches remaining batches /\
     final = (order ++ List.concat batches)%list) \/
  (toposort remaining order = Raise CyclicDependency /\
   exists remaining' order',
     loop_inv tasks remaining' order' /\
     remaining' <> [] /\ ready_tasks remaining' = []).
Proof.
  induction n as [|n IH]; intros remaining order Hlen Hinv.
  - destruct remaining; [|simpl in Hlen; lia].
    left. exists order, []. rewrite toposort_loop. simpl. rewrite app_nil_r.
    split; [reflexivity|]. split; [assumption|]. split; [constructor | reflexivity].
  - rewrite toposort_loop. destruct remaining as [|kv rest].
    + left. exists order, []. simpl. rewrite app_nil_r.
      split; [reflexivity|]. split; [assumption|]. split; [constructor | reflexivity].
    + destruct (ready_tasks (kv :: rest)) as [|r rs] eqn:Hready.
      * right. split; [reflexivity|]. exists (kv :: rest), order.
        split; [assumption|]. split; [discriminate | assumption].
      * rewrite schedule_ready_prune. cbn [fst snd].
        set (batch := sorted (r :: rs)).
        assert (Hperm : Permutation batch (ready_tasks (kv :: rest))).
        { rewrite Hready. symmetry. apply sorted_perm. }
        assert (Hr : In r batch) by (apply sorted_in; left; reflexivity).
        assert (Hlt : (List.length (prune batch (kv :: rest)) <= n)%nat).
        { assert (Hk : In r (keys (kv :: rest))).
          { apply ready_tasks_in_keys. rewrite Hready. left. reflexivity. }
          pose proof (prune_length_lt batch (kv :: rest) r Hr Hk). lia. }
        pose proof (loop_inv_pass tasks (kv :: rest) order batch Hinv Hperm) as Hinv'.
        destruct (IH (prune batch (kv :: rest)) (order ++ batch)%list Hlt Hinv')
          as [[final [batches [Hok [Hfinal [Hb Heq]]]]] | [Hraise Hstuck]].
        -- left. exists final, (batch :: batches).
           split; [assumption|]. split; [assumption|]. split.
           ++ constructor; [discriminate | | assumption | apply sorted_ascending | assumption].
              intros Hnil. rewrite Hnil in Hr. destruct Hr.
           ++ simpl. rewrite Heq, app_assoc. reflexivity.
        -- right. split; assumption.
Qed.

(** ** Cycles *)

(** A relation that gives every element of a non-empty finite set a
    successor in the set has a cycle. *)
Lemma successor_cycle :
  forall n (R : string -> string -> Prop) (K : list string),
  (List.length K <= n)%nat -> K <> [] ->
  (forall k, In k K -> exists d, In d K /\ R k d) ->
  exists a, clos_trans string R a a.
Proof.
  induction n as [|n IH]; intros R K Hlen Hne Hsucc.
  - destruct K; [contradiction | simpl in Hlen; lia].
  - destruct K as [|k0 K0]; [contradiction|].
    destruct (Hsucc k0 (or_introl eq_refl)) as [d0 [Hd0 HR0]].
    destruct (string_dec d0 k0) as [->|Hne0].
    + exists k0. apply t_step. assumption.
    + set (K := k0 :: K0) in *.
      set (R' := fun k d => R k d \/ (R k k0 /\ R k0 d)).
      assert (Hsub : forall x y, clos_trans string R' x y -> clos_trans string R x y).
      { intros x y H. induction H as [x y [H|[H1 H2]] | x y z _ IH1 _ IH2].
        - apply t_step. assumption.
        - apply t_trans with k0; apply t_step; assumption.
        - apply t_trans with y; assumption. }
      destruct (IH R' (remove string_dec k0 K)) as [a Ha].
      * assert ((List.length (remove string_dec k0 K) < List.length K)%nat).
        { apply remove_length_lt. left. reflexivity. }
        lia.
      * intros Hnil. assert (Hin : In d0 (remove string_dec k0 K)).
        { apply in_in_remove; assumption. }
        rewrite Hnil in Hin. destruct Hin.
      * intros k Hk. apply in_remove in Hk. destruct Hk as [Hk Hkne].
        destruct (Hsucc k Hk) as [d [Hd HR]].
        destruct (string_dec d k0) as [->|Hdne].
        -- exists d0. split; [apply in_in_remove; assumption|].
           right. split; assumption.
        -- exists d. split; [apply in_in_remove; assumption|].
           left. assumption.
      * exists a. apply Hsub. assumption.
Qed.

(** When tasks remain and none is ready, a closed task mapping has a
    cycle. *)
Lemma stuck_has_cycle tasks remaining order :
  closed tasks ->
  loop_inv tasks remaining order ->
  remaining <> [] -> ready_tasks remaining = [] ->
  has_cycle tasks.
Proof.
  intros Hclosed Hinv Hne Hready.
  apply (successor_cycle (List.length (keys remaining)) (depends_on tasks) (keys remaining)).
  - lia.
  - destruct remaining; [contradiction | discriminate].
  - intros k Hk. unfold keys in Hk. apply in_map_iff in Hk.
    destruct Hk as [[k' s] [Heq Hin]]. simpl in Heq. subst k'.
    destruct s as [|d s].
    + assert (Hr : In k (ready_tasks remaining)) by (apply ready_tasks_In; assumption).
      rewrite Hready in Hr. destruct Hr.
    + destruct (inv_pending _ _ _ Hinv k (d :: s) Hin) as [meta [Hget Hpend]].
      destruct (proj1 (Hpend d) (or_introl eq_refl)) as [Hd Hnot].
      assert (Hdep : depends_on tasks k d) by (exists meta; auto).
      exists d. split; [|assumption].
      apply Hclosed in Hdep. apply (inv_keys _ _ _ Hinv) in Hdep.
      destruct Hdep; [contradiction | assumption].
Qed.

(** Along a chain of dependencies from a task of a topological order, the
    end of the chain comes strictly before the task. *)
Lemma topological_chain tasks order :
  topological tasks order ->
  forall x y, clos_trans string (depends_on tasks) x y ->
  forall l1 l2, order = (l1 ++ x :: l2)%list -> In y l1.
Proof.
  intros Htopo x y Hpath. apply clos_trans_t1n in Hpath.
  induction Hpath as [x y Hdep | x d y Hdep _ IH]; intros l1 l2 Heq.
  - apply (Htopo l1 x l2 Heq y Hdep).
  - pose proof (Htopo l1 x l2 Heq d Hdep) as Hd.
    apply in_split in Hd. destruct Hd as [m1 [m2 ->]].
    assert (Hy : In y m1).
    { apply (IH m1 (m2 ++ x :: l2)%list). rewrite Heq, <- app_assoc. reflexivity. }
    apply in_app_iff. left. assumption.
Qed.

(** A task mapping with a cycle has no topological order of all its
    tasks. *)
Lemma cycle_no_topological tasks order :
  has_cycle tasks -> NoDup order ->
  (forall k, In k (keys tasks) -> In k order) ->
  topological tasks order -> False.
Proof.
  intros [a Hcycle] Hnd Hall Htopo.
  assert (Ha : In a order).
  { apply Hall. pose proof (clos_trans_t1n _ _ _ _ Hcycle) as H1n.
    assert (Hdep : exists b, depends_on tasks a b) by (inversion H1n; eauto).
    destruct Hdep as [b [meta [Hget _]]]. apply get_in_keys. eauto. }
  apply in_split in Ha. destruct Ha as [l1 [l2 Heq]].
  pose proof (topological_chain tasks order Htopo a a Hcycle l1 l2 Heq) as Hin.
  rewrite Heq in Hnd. apply NoDup_remove_2 in Hnd.
  apply Hnd. apply in_app_iff. left. assumption.
Qed.

(** ** The forward pass *)

Lemma fold_left_max_spec (l : list Z) :
  forall a, In (fold_left Z.max l a) (a :: l) /\
            forall f, In f (a :: l) -> f <= fold_left Z.max l a.
Proof.
  induction l as [|x l IH]; intros a; simpl.
  - split; [auto | intros f [->|[]]; lia].
  - destruct (IH (Z.max a x)) as [Hin Hle]. split.
    + destruct Hin as [Heq|Hin]; [|auto].
      rewrite <- Heq. destruct (Z.max_spec a x) as [[_ ->]|[_ ->]]; auto.
    + intros f [->|[->|Hf]].
      * specialize (Hle (Z.max f x) (or_introl eq_refl)). lia.
      * specialize (Hle (Z.max a f) (or_introl eq_refl)). lia.
      * apply Hle. right. assumption.
Qed.

Lemma max_default_is_max (fs : list Z) (default : Z) :
  is_max_of fs default (max_default fs default).
Proof.
  destruct fs as [|x l]; simpl; [reflexivity|].
  apply fold_left_max_spec.
Qed.

Lemma finishes_Forall2 ef deps fs :
  finishes ef deps = Ok fs <-> Forall2 (fun d f => get d ef = Some f) deps fs.
Proof.
  revert fs. induction deps as [|d deps IH]; intros fs; simpl.
  - split.
    + intros [= <-]. constructor.
    + intros H. inversion H. reflexivity.
  - unfold getitem. split.
    + destruct (get d ef) as [f|] eqn:Hget; simpl; [|discriminate].
      destruct (finishes ef deps) as [fs'|] eqn:Hfs; simpl; [|discriminate].
      intros [= <-]. constructor; [assumption | apply IH; reflexivity].
    + intros H. inversion H as [|? f ? fs' Hget Hrest]; subst.
      rewrite Hget. simpl. apply IH in Hrest. rewrite Hrest. reflexivity.
Qed.

Lemma finishes_returns ef deps :
  (forall d, In d deps -> In d (keys ef)) -> exists fs, finishes ef deps = Ok fs.
Proof.
  induction deps as [|d deps IH]; intros Hin; simpl; [eauto|].
  destruct (proj1 (get_in_keys d ef) (Hin d (or_introl eq_refl))) as [f Hget].
  destruct IH as [fs Hfs]; [intros; apply Hin; right; assumption|].
  unfold getitem. rewrite Hget. simpl. rewrite Hfs. simpl. eauto.
Qed.

Lemma Forall2_get_ext (ef ef' : dict Z) deps fs :
  (forall d, In d deps -> get d ef' = get d ef) ->
  Forall2 (fun d f => get d ef = Some f) deps fs ->
  Forall2 (fun d f => get d ef' = Some f) deps fs.
Proof.
  intros Hext H. induction H as [|d f deps fs Hget _ IH]; constructor.
  - rewrite Hext; [assumption | left; reflexivity].
  - apply IH. intros; apply Hext; right; assumption.
Qed.

Lemma keys_set_In {V : Type} (k a : string) (v : V) (d : dict V) :
  In k (keys (Py.set a v d)) <-> k = a \/ In k (keys d).
Proof.
  rewrite !get_in_keys. destruct (string_dec k a) as [->|Hne].
  - rewrite get_set_eq. split; eauto.
  - rewrite get_set_neq by assumption. split; [auto | intros [H|H]; [contradiction | assumption]].
Qed.

Lemma forward_pass_spec tasks :
  forall order es0 ef0,
  NoDup order ->
  (forall k, In k order -> ~ In k (keys ef0)) ->
  (forall l1 k l2, order = (l1 ++ k :: l2)%list ->
     exists meta, get k tasks = Some meta /\
                  forall d, In d (deps meta) -> In d (keys ef0) \/ In d l1) ->
  exists es ef,
    forward_pass tasks order es0 ef0 = Ok (es, ef) /\
    (forall k, ~ In k order -> get k es = get k es0 /\ get k ef = get k ef0) /\
    (forall k, In k order ->
       exists meta fs,
         get k tasks = Some meta /\
         Forall2 (fun d f => get d ef = Some f) (deps meta) fs /\
         get k es = Some (max_default fs 0) /\
         get k ef = Some (max_default fs 0 + duration meta)).
Proof.
  induction order as [|task rest IH]; intros es0 ef0 Hnd Hfresh Hdeps.
  - exists es0, ef0. simpl. split; [reflexivity|]. split; [auto | intros k []].
  - inversion Hnd as [|? ? Hnotin Hnd']; subst.
    destruct (Hdeps [] task rest eq_refl) as [meta [Hget Hd]].
    destruct (finishes_returns ef0 (deps meta)) as [fs Hfs].
    { intros d Hin. destruct (Hd d Hin) as [H|[]]. assumption. }
    set (start := max_default fs 0).
    destruct (IH (Py.set task start es0) (Py.set task (start + duration meta) ef0))
      as [es [ef [Hrun [Hframe Hspec]]]].
    + assumption.
    + intros k Hk. rewrite keys_set_In. intros [->|Hin]; [contradiction|].
      apply (Hfresh k); [right; assumption | assumption].
    + intros l1 k l2 Heq.
      destruct (Hdeps (task :: l1) k l2) as [m [Hm Hdm]]; [simpl; rewrite Heq; reflexivity|].
      exists m. split; [assumption|]. intros d Hin. rewrite keys_set_In.
      destruct (Hdm d Hin) as [H|[H|H]]; auto.
    + exists es, ef. split; [|split].
      * cbn [forward_pass]. unfold getitem at 1. rewrite Hget. cbn [bind].
        rewrite Hfs. cbn [bind]. exact Hrun.
      * intros k Hk. destruct (Hframe k) as [He Hf]; [intros H; apply Hk; right; assumption|].
        assert (Hne : k <> task) by (intros ->; apply Hk; left; reflexivity).
        rewrite He, Hf, !get_set_neq by assumption. auto.
      * intros k [->|Hk]; [|apply Hspec; assumption].
        destruct (Hframe k Hnotin) as [He Hf]. exists meta, fs.
        split; [assumption|]. split; [|split].
        -- apply (Forall2_get_ext ef0); [|apply finishes_Forall2; assumption].
           intros d Hin.
           assert (Hd0 : In d (keys ef0)) by (destruct (Hd d Hin) as [H|[]]; assumption).
           assert (Hnot : ~ In d (k :: rest)) by (intros H; apply (Hfresh d H Hd0)).
           destruct (Hframe d) as [_ Hfd]; [intros H; apply Hnot; right; assumption|].
           rewrite Hfd. apply get_set_neq. intros ->. apply Hnot. left. reflexivity.
        -- rewrite He. apply get_set_eq.
        -- rewrite Hf. apply get_set_eq.
Qed.

Lemma forward_pass_keys tasks :
  forall order es0 ef0 es ef,
  forward_pass tasks order es0 ef0 = Ok (es, ef) ->
  (forall k, In k (keys es) <-> In k (keys es0) \/ In k order) /\
  (forall k, In k (keys ef) <-> In k (keys ef0) \/ In k order).
Proof.
  induction order as [|task rest IH]; intros es0 ef0 es ef Hrun.
  - simpl in Hrun. injection Hrun as <- <-. simpl. split; intros k; tauto.
  - cbn [forward_pass] in Hrun.
    apply bind_ok in Hrun. destruct Hrun as [meta [_ Hrun]].
    apply bind_ok in Hrun. destruct Hrun as [fs [_ Hrun]].
    apply IH in Hrun. destruct Hrun as [He Hf].
    split; intros k; [rewrite He | rewrite Hf]; rewrite keys_set_In; simpl;
      intuition congruence.
Qed.

Lemma Forall2_get_In (ef : dict Z) deps fs f :
  Forall2 (fun d f => get d ef = Some f) deps fs ->
  In f fs -> exists d, In d deps /\ get d ef = Some f.
Proof.
  intros H. induction H as [|d f' deps fs Hget _ IH]; intros Hin; [destruct Hin|].
  destruct Hin as [->|Hin].
  - exists d. split; [left; reflexivity | assumption].
  - destruct (IH Hin) as [d' [Hd' Hg]]. exists d'. split; [right; assumption | assumption].
Qed.

Lemma forward_pass_nonneg tasks :
  (forall k meta, get k tasks = Some meta -> 0 <= duration meta) ->
  forall order es0 ef0 es ef,
  forward_pass tasks order es0 ef0 = Ok (es, ef) ->
  (forall k f, get k ef0 = Some f -> 0 <= f) ->
  forall k f, get k ef = Some f -> 0 <= f.
Proof.
  intros Hdur. induction order as [|task rest IH]; intros es0 ef0 es ef Hrun Hpos.
  - simpl in Hrun. injection Hrun as <- <-. assumption.
  - cbn [forward_pass] in Hrun.
    apply bind_ok in Hrun. destruct Hrun as [meta [Hget Hrun]].
    apply bind_ok in Hrun. destruct Hrun as [fs [Hfs Hrun]].
    apply (IH _ _ _ _ Hrun). intros k f.
    assert (Hstart : 0 <= max_default fs 0).
    { pose proof (max_default_is_max fs 0) as Hmax.
      apply finishes_Forall2 in Hfs.
      destruct fs as [|x fs']; [simpl in *; lia|].
      destruct Hmax as [Hin _].
      destruct (Forall2_get_In _ _ _ _ Hfs Hin) as [d [_ Hd]].
      apply (Hpos d). assumption. }
    unfold getitem in Hget. destruct (get task tasks) as [m|] eqn:Hm; [|discriminate].
    injection Hget as ->. specialize (Hdur task meta Hm).
    destruct (string_dec k task) as [->|Hne].
    + rewrite get_set_eq. intros [= <-]. lia.
    + rewrite get_set_neq by assumption. apply Hpos.
Qed.

(** ** [compute_cpm] *)

Lemma wf_check {V : Type} (d : dict V) : nodup string_dec (keys d) = keys d -> wf d.
Proof. intros H. unfold wf. rewrite <- H. apply NoDup_nodup. Qed.

Lemma closed_check tasks : closedb tasks = true -> closed tasks.
Proof.
  unfold closedb. rewrite forallb_forall. intros H a b [meta [Hget Hin]].
  apply get_In in Hget. specialize (H _ Hget). simpl in H.
  rewrite forallb_forall in H. apply mem_In. apply H. assumption.
Qed.

Lemma toposort_ok_inv tasks order :
  wf tasks ->
  toposort (initial_remaining tasks) [] = Ok order ->
  loop_inv tasks [] order /\
  exists batches,
    ready_batches (initial_remaining tasks) batches /\ order = List.concat batches.
Proof.
  intros Hwf Hok.
  destruct (toposort_spec tasks _ (initial_remaining tasks) [] (le_n _) (loop_inv_init tasks Hwf))
    as [[final [batches [Hfinal [Hinv [Hb Heq]]]]] | [Hraise _]].
  - rewrite Hfinal in Hok. injection Hok as <-. split; [assumption|].
    exists batches. split; assumption.
  - rewrite Hraise in Hok. discriminate.
Qed.

Lemma toposort_returns tasks :
  wf tasks -> closed tasks -> acyclic tasks ->
  exists order, toposort (initial_remaining tasks) [] = Ok order.
Proof.
  intros Hwf Hclosed Hac.
  destruct (toposort_spec tasks _ (initial_remaining tasks) [] (le_n _) (loop_inv_init tasks Hwf))
    as [[final [batches [Hfinal _]]] | [_ [remaining [order [Hinv [Hne Hready]]]]]].
  - exists final. assumption.
  - exfalso. apply Hac. apply (stuck_has_cycle tasks remaining order); assumption.
Qed.

Lemma toposort_cycle tasks :
  wf tasks -> has_cycle tasks ->
  toposort (initial_remaining tasks) [] = Raise CyclicDependency.
Proof.
  intros Hwf Hcycle.
  destruct (toposort_spec tasks _ (initial_remaining tasks) [] (le_n _) (loop_inv_init tasks Hwf))
    as [[final [batches [_ [Hinv _]]]] | [Hraise _]]; [|assumption].
  exfalso. apply (cycle_no_topological tasks final Hcycle).
  - apply (inv_nodup _ _ _ Hinv).
  - intros k Hk. apply (inv_keys _ _ _ Hinv) in Hk. destruct Hk as [H|[]]. assumption.
  - apply (inv_topological _ _ _ Hinv).
Qed.

Lemma acyclic_check tasks order :
  wf tasks -> toposort (initial_remaining tasks) [] = Ok order -> acyclic tasks.
Proof.
  intros Hwf Hok Hcycle. rewrite (toposort_cycle tasks Hwf Hcycle) in Hok. discriminate.
Qed.

(** Whenever the loop raises, it raises [CyclicDependency], in a state it
    reached where tasks remain and none of them is ready. *)
Lemma toposort_stuck :
  forall n remaining order e,
  (List.length remaining <= n)%nat ->
  toposort remaining order = Raise e ->
  e = CyclicDependency /\
  exists order' remaining',
    loop_reaches (order, remaining) (order', remaining') /\
    remaining' <> [] /\ ready_tasks remaining' = [].
Proof.
  induction n as [|n IH]; intros remaining order e Hlen Hraise;
    rewrite toposort_loop in Hraise; destruct remaining as [|kv rest];
    try discriminate; try (simpl in Hlen; lia).
  destruct (ready_tasks (kv :: rest)) as [|r rs] eqn:Hready.
  - injection Hraise as <-. split; [reflexivity|].
    exists order, (kv :: rest). split; [constructor|]. split; [discriminate | assumption].
  - rewrite schedule_ready_prune in Hraise. cbn [fst snd] in Hraise.
    assert (Hlt : (List.length (prune (sorted (r :: rs)) (kv :: rest)) <= n)%nat).
    { assert (Hr : In r (sorted (r :: rs))) by (apply sorted_in; left; reflexivity).
      assert (Hk : In r (keys (kv :: rest))).
      { apply ready_tasks_in_keys. rewrite Hready. left. reflexivity. }
      pose proof (prune_length_lt _ (kv :: rest) r Hr Hk). lia. }
    destruct (IH _ _ _ Hlt Hraise) as [He [order' [remaining' [Hreach Hstuck]]]].
    split; [assumption|]. exists order', remaining'. split; [|assumption].
    apply reaches_pass; [discriminate | rewrite Hready; discriminate |].
    rewrite Hready, schedule_ready_prune. exact Hreach.
Qed.

Lemma compute_cpm_of_order tasks order :
  wf tasks ->
  toposort (initial_remaining tasks) [] = Ok order ->
  exists es ef,
    compute_cpm tasks = Ok (es, ef) /\
    (forall k, In k (keys es) <-> In k (keys tasks)) /\
    (forall k, In k (keys ef) <-> In k (keys tasks)) /\
    (forall k meta, get k tasks = Some meta ->
       exists fs,
         Forall2 (fun d f => get d ef = Some f) (deps meta) fs /\
         get k es = Some (max_default fs 0) /\
         get k ef = Some (max_default fs 0 + duration meta)).
Proof.
  intros Hwf Hok. destruct (toposort_ok_inv tasks order Hwf Hok) as [Hinv _].
  assert (Hkeys : forall k, In k (keys tasks) <-> In k order).
  { intros k. rewrite (inv_keys _ _ _ Hinv). simpl. tauto. }
  destruct (forward_pass_spec tasks order [] []) as [es [ef [Hrun [_ Hspec]]]].
  - apply (inv_nodup _ _ _ Hinv).
  - intros k _ [].
  - intros l1 k l2 Heq.
    assert (Hk : In k (keys tasks)).
    { apply Hkeys. rewrite Heq. apply in_elt. }
    apply get_in_keys in Hk. destruct Hk as [meta Hget]. exists meta.
    split; [assumption|]. intros d Hd. right.
    apply (inv_topological _ _ _ Hinv l1 k l2 Heq). exists meta. split; assumption.
  - exists es, ef. unfold compute_cpm. rewrite Hok. cbn [bind].
    destruct (forward_pass_keys tasks order [] [] es ef Hrun) as [He Hf].
    split; [assumption|]. split; [|split].
    + intros k. rewrite He, Hkeys. simpl. tauto.
    + intros k. rewrite Hf, Hkeys. simpl. tauto.
    + intros k meta Hget.
      assert (Hk : In k order) by (apply Hkeys, get_in_keys; eauto).
      destruct (Hspec k Hk) as [meta' [fs [Hget' H]]].
      assert (meta' = meta) by congruence. subst meta'. exists fs. exact H.
Qed.

(** C2 (compute_cpm): for every task mapping with unique names whose
    dependencies name tasks of the mapping and form no cycle, the scheduler
    returns earliest-start and earliest-finish maps in which every task's
    earliest-start is the maximum earliest-finish among its dependencies
    (0 if it has none) and its earliest-finish is its earliest-start plus
    its duration. *)
Theorem compute_cpm_earliest_times (tasks : dict task_meta) :
  wf tasks -> closed tasks -> acyclic tasks ->
  exists earliest_start earliest_finish,
    compute_cpm tasks = Ok (earliest_start, earliest_finish) /\
    forall task meta, get task tasks = Some meta ->
      exists fs start,
        Forall2 (fun d f => get d earliest_finish = Some f) (deps meta) fs /\
        is_max_of fs 0 start /\
        get task earliest_start = Some start /\
        get task earliest_finish = Some (start + duration meta).
Proof.
  intros Hwf Hclosed Hac.
  destruct (toposort_returns tasks Hwf Hclosed Hac) as [order Hok].
  destruct (compute_cpm_of_order tasks order Hwf Hok) as [es [ef [Hrun [_ [_ Hspec]]]]].
  exists es, ef. split; [assumption|]. intros task meta Hget.
  destruct (Hspec task meta Hget) as [fs [Hfs [Hes Hef]]].
  exists fs, (max_default fs 0). split; [assumption|].
  split; [apply max_default_is_max|]. split; assumption.
Qed.

Lemma chain_example_wf : wf chain_example.
Proof. apply wf_check. reflexivity. Qed.

Lemma compute_cpm_earliest_times_witness :
  exists earliest_start earliest_finish,
    compute_cpm chain_example = Ok (earliest_start, earliest_finish) /\
    forall task meta, get task chain_example = Some meta ->
      exists fs start,
        Forall2 (fun d f => get d earliest_finish = Some f) (deps meta) fs /\
        is_max_of fs 0 start /\
        get task earliest_start = Some start /\
        get task earliest_finish = Some (start + duration meta).
Proof.
  apply (compute_cpm_earliest_times chain_example).
  - apply wf_check. reflexivity.
  - apply closed_check. reflexivity.
  - apply (acyclic_check chain_example ["B"; "A"]).
    + apply wf_check. reflexivity.
    + vm_compute. reflexivity.
Defined.

Lemma cyclic_example_has_cycle : has_cycle cyclic_example.
Proof.
  exists "A". apply t_trans with (y := "B"); apply t_step.
  - exists (mk_meta 1 ["B"] "component"). split; [reflexivity | left; reflexivity].
  - exists (mk_meta 1 ["A"] "component"). split; [reflexivity | left; reflexivity].
Qed.

(** C3 (compute_cpm): for every task mapping whose dependency graph has a
    cycle, the ready-set loop reaches a state where tasks remain and none
    has an empty remaining dependency set, and the scheduler raises
    CyclicDependency: no schedule, partial or complete, is returned. *)
Theorem compute_cpm_cyclic_dependency (tasks : dict task_meta) :
  wf tasks -> has_cycle tasks ->
  compute_cpm tasks = Raise CyclicDependency /\
  exists order remaining,
    loop_reaches ([], initial_remaining tasks) (order, remaining) /\
    remaining <> [] /\ ready_tasks remaining = [].
Proof.
  intros Hwf Hcycle. pose proof (toposort_cycle tasks Hwf Hcycle) as Hraise.
  split.
  - unfold compute_cpm. rewrite Hraise. reflexivity.
  - destruct (toposort_stuck _ _ _ _ (le_n _) Hraise) as [_ H]. exact H.
Qed.

Lemma compute_cpm_cyclic_dependency_witness :
  compute_cpm cyclic_example = Raise CyclicDependency /\
  exists order remaining,
    loop_reaches ([], initial_remaining cyclic_example) (order, remaining) /\
    remaining <> [] /\ ready_tasks remaining = [].
Proof.
  apply (compute_cpm_cyclic_dependency cyclic_example).
  - apply wf_check. reflexivity.
  - exact cyclic_example_has_cycle.
Defined.

(** ** The frame of [apply_constraints] *)

Lemma adjust_tasks_scaled fm bd nd al :
  forall items acc updated,
  adjust_tasks fm bd nd al items acc = Ok updated ->
  forall name meta, In (name, meta) items -> type meta = "factory" ->
  scale_duration (duration meta) fm = Ok (scaled fm (duration meta)).
Proof.
  induction items as [|[n m] items IH]; intros acc updated Hrun name meta Hin Hf.
  - destruct Hin.
  - cbn [adjust_tasks] in Hrun. apply bind_ok in Hrun. destruct Hrun as [d [Hd Hrun]].
    destruct Hin as [Heq|Hin].
    + injection Heq as -> ->. unfold adjust_duration in Hd. rewrite Hf in Hd.
      cbn [String.eqb Ascii.eqb Bool.eqb] in Hd. unfold scaled.
      destruct (scale_duration (duration meta) fm) as [z|e]; [reflexivity | discriminate].
    + apply (IH _ _ Hrun name meta Hin Hf).
Qed.

Lemma apply_constraints_adjusted tasks p y t b updated ad nd :
  wf tasks ->
  apply_constraints tasks p y t b = Ok (updated, ad, nd) ->
  exists fm bd al, updated = adjusted_tasks (scaled fm) bd nd al tasks.
Proof.
  intros Hwf Hrun. unfold apply_constraints in Hrun.
  apply bind_ok in Hrun. destruct Hrun as [ad' [_ Hrun]].
  apply bind_ok in Hrun. destruct Hrun as [fm [_ Hrun]].
  apply bind_ok in Hrun. destruct Hrun as [bd [_ Hrun]].
  apply bind_ok in Hrun. destruct Hrun as [nd' [_ Hrun]].
  apply bind_ok in Hrun. destruct Hrun as [upd [Hadj Hrun]].
  injection Hrun as <- <- <-.
  exists fm, bd, (get_default p 0 ad').
  pose proof (adjust_tasks_scaled _ _ _ _ _ _ _ Hadj) as Hscale.
  rewrite (adjust_tasks_map fm (scaled fm) bd nd' _ tasks Hscale Hwf) in Hadj.
  injection Hadj as <-. reflexivity.
Qed.

Lemma adjusted_tasks_wf scale bd nd al tasks :
  wf tasks -> wf (adjusted_tasks scale bd nd al tasks).
Proof. unfold wf. rewrite adjusted_tasks_keys. auto. Qed.

Lemma adjusted_tasks_nonneg scale bd nd al tasks k meta :
  get k (adjusted_tasks scale bd nd al tasks) = Some meta -> 0 <= duration meta.
Proof.
  rewrite adjusted_tasks_get. destruct (get k tasks) as [m|]; [|discriminate].
  intros [= <-]. simpl. unfold adjusted_duration. lia.
Qed.

Lemma initial_remaining_adjusted scale bd nd al tasks :
  wf tasks ->
  initial_remaining (adjusted_tasks scale bd nd al tasks) = initial_remaining tasks.
Proof.
  intros Hwf.
  rewrite (initial_remaining_map _ (adjusted_tasks_wf scale bd nd al tasks Hwf)).
  rewrite (initial_remaining_map _ Hwf).
  unfold adjusted_tasks. rewrite map_map. reflexivity.
Qed.

Lemma task_rows_tasks p start es ef :
  forall items rows,
  task_rows p start es ef items = Ok rows -> map row_task rows = keys items.
Proof.
  induction items as [|[task meta] items IH]; intros rows Hrun.
  - injection Hrun as <-. reflexivity.
  - cbn [task_rows] in Hrun.
    apply bind_ok in Hrun. destruct Hrun as [s [_ Hrun]].
    apply bind_ok in Hrun. destruct Hrun as [s' [_ Hrun]].
    apply bind_ok in Hrun. destruct Hrun as [f [_ Hrun]].
    apply bind_ok in Hrun. destruct Hrun as [f' [_ Hrun]].
    apply bind_ok in Hrun. destruct Hrun as [rows' [Hrows Hrun]].
    injection Hrun as <-. simpl. rewrite (IH _ Hrows). reflexivity.
Qed.

(** ** Determinism and the order of the schedule *)

(** C6 (build_schedule, compute_cpm): two runs of [build_schedule] on the
    same product, start date, yield, throughput and bug count give the same
    result; in a run that returns, the task records come in the order of
    the product's task graph, and the scheduler's order is made of the
    successive sets of simultaneously ready tasks, each taken in ascending
    lexicographic order of task name. *)
Theorem build_schedule_deterministic (p : string) (start : date) (y t b : Z) :
  (forall r1 r2,
     build_schedule p start y t b = r1 -> build_schedule p start y t b = r2 -> r1 = r2) /\
  (forall schedule ship_date ship_days ad nd,
     build_schedule p start y t b = Ok (schedule, ship_date, ship_days, ad, nd) ->
     exists base tasks order batches,
       build_product_tasks p = Ok base /\
       apply_constraints base p y t b = Ok (tasks, ad, nd) /\
       map row_task schedule = keys base /\
       toposort (initial_remaining tasks) [] = Ok order /\
       ready_batches (initial_remaining tasks) batches /\
       order = List.concat batches).
Proof.
  split; [intros r1 r2 <- <-; reflexivity|].
  intros schedule ship_date ship_days ad nd Hrun. unfold build_schedule in Hrun.
  apply bind_ok in Hrun. destruct Hrun as [base [Hbase Hrun]].
  apply bind_ok in Hrun. destruct Hrun as [[[tasks ad'] nd'] [Happ Hrun]].
  apply bind_ok in Hrun. destruct Hrun as [[es ef] [Hcpm Hrun]].
  apply bind_ok in Hrun. destruct Hrun as [rows [Hrows Hrun]].
  apply bind_ok in Hrun. destruct Hrun as [days [_ Hrun]].
  apply bind_ok in Hrun. destruct Hrun as [sd [_ Hrun]].
  injection Hrun as <- <- <- <- <-.
  pose proof (build_product_tasks_wf p base Hbase) as Hwf.
  destruct (apply_constraints_adjusted _ _ _ _ _ _ _ _ Hwf Happ) as [fm [bd [al Htasks]]].
  assert (Hwf' : wf tasks) by (subst tasks; apply adjusted_tasks_wf; assumption).
  unfold compute_cpm in Hcpm. apply bind_ok in Hcpm. destruct Hcpm as [order [Horder _]].
  destruct (toposort_ok_inv tasks order Hwf' Horder) as [_ [batches [Hb Heq]]].
  exists base, tasks, order, batches.
  split; [assumption|]. split; [assumption|]. split.
  - rewrite (task_rows_tasks _ _ _ _ _ _ Hrows). subst tasks. apply adjusted_tasks_keys.
  - split; [assumption|]. split; assumption.
Qed.

Lemma build_schedule_deterministic_witness :
  exists schedule ship_date ship_days ad nd base tasks order batches,
    build_schedule "MacBook Pro" 739252 85 100 25 =
      Ok (schedule, ship_date, ship_days, ad, nd) /\
    build_product_tasks "MacBook Pro" = Ok base /\
    apply_constraints base "MacBook Pro" 85 100 25 = Ok (tasks, ad, nd) /\
    map row_task schedule = keys base /\
    toposort (initial_remaining tasks) [] = Ok order /\
    ready_batches (initial_remaining tasks) batches /\
    order = List.concat batches.
Proof.
  destruct (build_schedule "MacBook Pro" 739252 85 100 25)
    as [[[[[schedule ship_date] ship_days] ad] nd]|e] eqn:Hrun;
    [|vm_compute in Hrun; discriminate].
  destruct (proj2 (build_schedule_deterministic "MacBook Pro" 739252 85 100 25)
              schedule ship_date ship_days ad nd Hrun)
    as [base [tasks [order [batches H]]]].
  exists schedule, ship_date, ship_days, ad, nd, base, tasks, order, batches.
  split; [reflexivity | exact H].
Defined.

(** ** The ship milestone *)

Lemma compute_cpm_nonneg tasks es ef :
  (forall k meta, get k tasks = Some meta -> 0 <= duration meta) ->
  compute_cpm tasks = Ok (es, ef) ->
  forall k f, get k ef = Some f -> 0 <= f.
Proof.
  intros Hdur Hrun. unfold compute_cpm in Hrun.
  apply bind_ok in Hrun. destruct Hrun as [order [_ Hrun]].
  apply (forward_pass_nonneg tasks Hdur order [] [] es ef Hrun).
  intros k f Hget. discriminate.
Qed.

Lemma has_dependent_adjusted scale bd nd al tasks k :
  has_dependent (adjusted_tasks scale bd nd al tasks) k = has_dependent tasks k.
Proof.
  unfold has_dependent, adjusted_tasks.
  induction tasks as [|[n m] tasks IH]; simpl; [reflexivity|].
  rewrite IH. reflexivity.
Qed.

Lemma sinks_adjusted scale bd nd al tasks :
  sinks (adjusted_tasks scale bd nd al tasks) = sinks tasks.
Proof.
  unfold sinks. rewrite adjusted_tasks_keys. apply filter_ext.
  intros k. rewrite has_dependent_adjusted. reflexivity.
Qed.

(** The task graph of every product can be ordered, and "Ship" is the only
    task no other task depends on. *)
Lemma product_graph (p : string) (base : dict task_meta) :
  build_product_tasks p = Ok base ->
  (exists order, toposort (initial_remaining base) [] = Ok order) /\
  sinks base = ["Ship"].
Proof.
  intros Hbase. destruct (in_dec string_dec p (keys PRODUCT_CONFIGS)) as [Hin|Hnot].
  - destruct (configured_cases p Hin) as [-> | [-> | ->]];
      vm_compute in Hbase; injection Hbase as <-;
      (split; [eexists; vm_compute; reflexivity | vm_compute; reflexivity]).
  - rewrite (getitem_unconfigured p Hnot) in Hbase. discriminate.
Qed.

(** C7 (build_product_tasks, compute_cpm): for every configured product and
    every yield, throughput and bug count in their ranges, the scheduler
    returns on the adjusted graph, the earliest finish of "Ship" is at
    least 0, and it is the maximum of the earliest finishes of the tasks
    no other task of the graph depends on. *)
Theorem ship_finish_max_over_sinks (p : string) (y t b : Z) :
  configured p -> valid_yield y -> valid_throughput t -> valid_bug_count b ->
  exists base tasks ad nd earliest_start earliest_finish ship fs,
    build_product_tasks p = Ok base /\
    apply_constraints base p y t b = Ok (tasks, ad, nd) /\
    compute_cpm tasks = Ok (earliest_start, earliest_finish) /\
    get "Ship" earliest_finish = Some ship /\
    0 <= ship /\
    Forall2 (fun k f => get k earliest_finish = Some f) (sinks tasks) fs /\
    In ship fs /\
    forall f, In f fs -> f <= ship.
Proof.
  intros Hp Hy Ht Hb.
  destruct (apply_constraints_product p y t b Hp Hy Ht Hb) as [base [Hbase Happ]].
  pose proof (build_product_tasks_wf p base Hbase) as Hwf.
  destruct (product_graph p base Hbase) as [[order Horder] Hsinks].
  set (tasks := spec_adjusted_tasks p y t b base) in *.
  assert (Hwf' : wf tasks) by (apply adjusted_tasks_wf; assumption).
  assert (Horder' : toposort (initial_remaining tasks) [] = Ok order).
  { unfold tasks, spec_adjusted_tasks. rewrite initial_remaining_adjusted; assumption. }
  destruct (compute_cpm_of_order tasks order Hwf' Horder') as [es [ef [Hrun [_ [Hkeys _]]]]].
  assert (Hs : sinks tasks = ["Ship"]).
  { unfold tasks, spec_adjusted_tasks. rewrite sinks_adjusted. assumption. }
  assert (Hship : In "Ship" (keys ef)).
  { apply Hkeys. assert (H : In "Ship" (sinks tasks)) by (rewrite Hs; left; reflexivity).
    unfold sinks in H. apply filter_In in H. apply H. }
  apply get_in_keys in Hship. destruct Hship as [ship Hship].
  exists base, tasks, (spec_allocation_delays y), (spec_na_delay t), es, ef, ship, [ship].
  split; [assumption|]. split; [assumption|]. split; [assumption|].
  split; [assumption|]. split.
  - apply (compute_cpm_nonneg tasks es ef) with (k := "Ship"); [|assumption..].
    intros k meta. apply adjusted_tasks_nonneg.
  - rewrite Hs. split; [repeat constructor; assumption|].
    split; [left; reflexivity|]. intros f [<-|[]]. lia.
Qed.

Lemma ship_finish_max_over_sinks_witness :
  exists base tasks ad nd earliest_start earliest_finish ship fs,
    build_product_tasks "Vision Pro" = Ok base /\
    apply_constraints base "Vision Pro" 40 60 200 = Ok (tasks, ad, nd) /\
    compute_cpm tasks = Ok (earliest_start, earliest_finish) /\
    get "Ship" earliest_finish = Some ship /\
    0 <= ship /\
    Forall2 (fun k f => get k earliest_finish = Some f) (sinks tasks) fs /\
    In ship fs /\
    forall f, In f fs -> f <= ship.
Proof.
  apply (ship_finish_max_over_sinks "Vision Pro" 40 60 200).
  - right. right. left. reflexivity.
  - unfold valid_yield. lia.
  - unfold valid_throughput. lia.
  - unfold valid_bug_count. lia.
Defined.

(** ** The scenario without delays *)

Lemma date_add_days_ok (start : date) (n : Z) :
  valid_date start -> 0 <= n -> n <= timedelta_max -> start + n <= date_max ->
  date_add_days start n = Ok (start + n).
Proof.
  unfold valid_date, date_add_days. intros Hs Hn Hmax Hend.
  replace (Z.abs n <=? timedelta_max) with true by (symmetry; apply Z.leb_le; lia).
  replace (1 <=? start + n) with true by (symmetry; apply Z.leb_le; lia).
  replace (start + n <=? date_max) with true by (symmetry; apply Z.leb_le; lia).
  reflexivity.
Qed.

Lemma task_rows_returns p (start : date) es ef bound :
  valid_date start -> start + bound <= date_max -> bound <= timedelta_max ->
  forall items,
  times_within bound es ef (keys items) = true ->
  exists rows, task_rows p start es ef items = Ok rows.
Proof.
  intros Hs Hend Hmax. induction items as [|[task meta] items IH]; intros Hin.
  - exists []. reflexivity.
  - unfold times_within in Hin. simpl in Hin. apply andb_true_iff in Hin.
    destruct Hin as [Hk Hrest]. destruct (IH Hrest) as [rows Hrows].
    destruct (get task es) as [s|] eqn:Hes; [|discriminate].
    destruct (get task ef) as [f|] eqn:Hef; [|discriminate].
    repeat (apply andb_true_iff in Hk; destruct Hk as [Hk ?]).
    cbn [task_rows]. unfold getitem. rewrite Hes, Hef. cbn [bind].
    rewrite (date_add_days_ok start s) by (try assumption; lia). cbn [bind].
    rewrite (date_add_days_ok start f) by (try assumption; lia). cbn [bind].
    rewrite Hrows. cbn [bind]. eauto.
Qed.

Lemma build_schedule_returns p (start : date) y t b base tasks ad nd es ef days bound :
  build_product_tasks p = Ok base ->
  apply_constraints base p y t b = Ok (tasks, ad, nd) ->
  compute_cpm tasks = Ok (es, ef) ->
  get "Ship" ef = Some days ->
  times_within bound es ef (keys tasks) = true ->
  0 <= days <= bound ->
  valid_date start -> start + bound <= date_max -> bound <= timedelta_max ->
  exists schedule,
    build_schedule p start y t b = Ok (schedule, start + days, days, ad, nd).
Proof.
  intros Hbase Happ Hcpm Hship Htimes Hdays Hs Hend Hmax.
  destruct (task_rows_returns p start es ef bound Hs Hend Hmax tasks Htimes) as [rows Hrows].
  exists rows. unfold build_schedule.
  rewrite Hbase. cbn [bind]. rewrite Happ. cbn [bind]. rewrite Hcpm. cbn [bind].
  rewrite Hrows. cbn [bind]. unfold getitem. rewrite Hship. cbn [bind].
  rewrite (date_add_days_ok start days) by (try assumption; lia). reflexivity.
Qed.

Lemma scenario_no_delays (p : string) :
  configured p ->
  exists base tasks es ef days,
    build_product_tasks p = Ok base /\
    apply_constraints base p 100 120 0 = Ok (tasks, no_allocation_delays, 0) /\
    compute_cpm tasks = Ok (es, ef) /\
    get "Ship" ef = Some days /\
    times_within 72 es ef (keys tasks) = true /\
    days = critical_path_length (factory_scaled 120 base) /\
    (days <=? critical_path_length base) = true /\
    (0 <=? days) && (days <=? 72) = true.
Proof.
  intros Hp. destruct (configured_cases p Hp) as [-> | [-> | ->]];
    do 5 eexists; repeat (split; [vm_compute; reflexivity|]); vm_compute; reflexivity.
Qed.

(** The ship offset of MacBook Pro at yield 100, throughput 120 and no bug
    is 70 days, two days less than the critical-path length, 72, of its
    nominal durations. *)
Lemma nominal_critical_path_counterexample :
  exists base schedule ad nd,
    build_product_tasks "MacBook Pro" = Ok base /\
    critical_path_length base = 72 /\
    build_schedule "MacBook Pro" 739252 100 120 0 =
      Ok (schedule, 739252 + 70, 70, ad, nd) /\
    739252 + 70 <> 739252 + critical_path_length base.
Proof.
  do 4 eexists. split; [vm_compute; reflexivity|].
  split; [vm_compute; reflexivity|].
  split; [vm_compute; reflexivity|].
  vm_compute. discriminate.
Qed.

(** C4, amended (apply_constraints, build_schedule): with yield 100,
    throughput 120 and no bug, the allocation delays, the bug delay and the
    Neural Accelerator delay are all zero, and each product's ship date is
    the start date plus the critical-path length of the nominal durations
    in which every factory task's duration is scaled by 100/120 and rounded
    up, for every start date at least 72 days before the last date; this
    length is at most the critical-path length of the nominal durations. *)
Theorem scenario_ship_date (p : string) (start : date) :
  configured p -> valid_date start -> start + 72 <= date_max ->
  exists base schedule ship_days,
    build_product_tasks p = Ok base /\
    build_schedule p start 100 120 0 =
      Ok (schedule, start + ship_days, ship_days, no_allocation_delays, 0) /\
    compute_bug_delay 0 = Ok 0 /\
    ship_days = critical_path_length (factory_scaled 120 base) /\
    ship_days <= critical_path_length base.
Proof.
  intros Hp Hs Hend.
  destruct (scenario_no_delays p Hp)
    as [base [tasks [es [ef [days [Hbase [Happ [Hcpm [Hship [Ht [Hd [Hle Hb]]]]]]]]]]]].
  apply andb_true_iff in Hb. destruct Hb as [Hb0 Hb1].
  apply Z.leb_le in Hle, Hb0, Hb1.
  destruct (build_schedule_returns p start 100 120 0 base tasks no_allocation_delays 0
              es ef days 72 Hbase Happ Hcpm Hship Ht (conj Hb0 Hb1) Hs Hend)
    as [schedule Hrun]; [unfold timedelta_max; lia|].
  exists base, schedule, days.
  split; [assumption|]. split; [assumption|]. split; [vm_compute; reflexivity|].
  split; assumption.
Qed.

Lemma scenario_ship_date_witness :
  exists base schedule ship_days,
    build_product_tasks "iPad Pro" = Ok base /\
    build_schedule "iPad Pro" 739252 100 120 0 =
      Ok (schedule, 739252 + ship_days, ship_days, no_allocation_delays, 0) /\
    compute_bug_delay 0 = Ok 0 /\
    ship_days = critical_path_length (factory_scaled 120 base) /\
    ship_days <= critical_path_length base.
Proof.
  apply (scenario_ship_date "iPad Pro" 739252).
  - right. left. reflexivity.
  - unfold valid_date, date_max. lia.
  - unfold date_max. lia.
Defined.

(** ** Bounds on the float operations *)

Lemma fexp_eq x : fexp prec emax x = Z.max (x - 53) (-1074).
Proof. reflexivity. Qed.

Lemma digits_succ p :
  Zpos (digits2_pos (Pos.succ p)) <= Zpos (digits2_pos p) + 1.
Proof.
  induction p as [p IH|p IH|]; simpl; lia.
Qed.

Lemma digits_lt p : Zpos p < 2 ^ Zpos (digits2_pos p).
Proof.
  induction p as [p IH|p IH|]; simpl digits2_pos;
    rewrite ?Pos2Z.inj_succ, ?Z.pow_succ_r by lia; [lia | lia | reflexivity].
Qed.

Lemma digits_le_of_lt p :
  forall k, 0 <= k -> Zpos p < 2 ^ k -> Zpos (digits2_pos p) <= k.
Proof.
  induction p as [p IH|p IH|]; intros k Hk Hlt; simpl digits2_pos.
  - destruct (Z.eq_dec k 0) as [->|Hne]; [simpl in Hlt; lia|].
    replace k with (Z.succ (k - 1)) in Hlt by lia. rewrite Z.pow_succ_r in Hlt by lia.
    specialize (IH (k - 1)). lia.
  - destruct (Z.eq_dec k 0) as [->|Hne]; [simpl in Hlt; lia|].
    replace k with (Z.succ (k - 1)) in Hlt by lia. rewrite Z.pow_succ_r in Hlt by lia.
    specialize (IH (k - 1)). lia.
  - destruct (Z.eq_dec k 0) as [->|Hne]; [simpl in Hlt; lia | lia].
Qed.

Lemma Zdigits2_le_of_lt z k : 0 <= k -> Z.abs z < 2 ^ k -> Zdigits2 z <= k.
Proof.
  intros Hk Hlt. destruct z as [|p|p]; simpl in *; [lia | | ]; apply digits_le_of_lt; assumption.
Qed.

Lemma digits_mul p q :
  Zpos (digits2_pos (p * q)) <= Zpos (digits2_pos p) + Zpos (digits2_pos q).
Proof.
  apply digits_le_of_lt; [lia|].
  rewrite Z.pow_add_r by lia. rewrite Pos2Z.inj_mul.
  pose proof (digits_lt p). pose proof (digits_lt q). nia.
Qed.

Lemma digits_iter_xO p d :
  Zpos (digits2_pos (Pos.iter xO p d)) = Zpos (digits2_pos p) + Zpos d.
Proof.
  induction d as [|d IH] using Pos.peano_ind.
  - simpl. lia.
  - rewrite Pos.iter_succ. simpl digits2_pos. lia.
Qed.

Lemma shr_1_digits r :
  0 <= shr_m r ->
  0 <= shr_m (shr_1 r) /\
  Zdigits2 (shr_m (shr_1 r)) = Z.max 0 (Zdigits2 (shr_m r) - 1).
Proof.
  destruct r as [m r s]. cbn [shr_m]. intros Hm.
  destruct m as [|[p|p|]|p]; cbn [shr_1 shr_m Zdigits2 digits2_pos];
    rewrite ?Pos2Z.inj_succ; lia.
Qed.

Lemma iter_shr_1_digits p :
  forall r, 0 <= shr_m r ->
  0 <= shr_m (iter_pos shr_1 p r) /\
  Zdigits2 (shr_m (iter_pos shr_1 p r)) = Z.max 0 (Zdigits2 (shr_m r) - Zpos p).
Proof.
  induction p as [p IH|p IH|]; intros r Hr; cbn [iter_pos].
  - destruct (shr_1_digits r Hr) as [H1 E1].
    destruct (IH _ H1) as [H2 E2]. destruct (IH _ H2) as [H3 E3].
    split; [assumption|]. rewrite E3, E2, E1. lia.
  - destruct (IH _ Hr) as [H2 E2]. destruct (IH _ H2) as [H3 E3].
    split; [assumption|]. rewrite E3, E2. lia.
  - apply shr_1_digits. assumption.
Qed.

Lemma shr_record_of_loc_m m l : shr_m (shr_record_of_loc m l) = m.
Proof. destruct l as [|[]]; reflexivity. Qed.

Lemma shr_fexp_bound m e l :
  0 <= m ->
  0 <= shr_m (fst (shr_fexp prec emax m e l)) /\
  snd (shr_fexp prec emax m e l) <= Z.max e (Z.max (Zdigits2 m + e - 53) (-1074)) /\
  Zdigits2 (shr_m (fst (shr_fexp prec emax m e l))) + snd (shr_fexp prec emax m e l)
    <= Z.max (Zdigits2 m + e) (-1074).
Proof.
  intros Hm. unfold shr_fexp. rewrite fexp_eq. unfold shr.
  destruct (Z.max (Zdigits2 m + e - 53) (-1074) - e) as [|n|n] eqn:Hn;
    cbn [fst snd]; rewrite ?shr_record_of_loc_m; try lia.
  destruct (iter_shr_1_digits n (shr_record_of_loc m l)) as [H0 Hd];
    [rewrite shr_record_of_loc_m; assumption|].
  rewrite shr_record_of_loc_m in Hd. split; [assumption|]. rewrite Hd. lia.
Qed.

Lemma round_nearest_even_bound m l :
  0 <= m ->
  0 <= round_nearest_even m l /\
  Zdigits2 (round_nearest_even m l) <= Zdigits2 m + 1.
Proof.
  intros Hm.
  assert (Hs : 0 <= m + 1 /\ Zdigits2 (m + 1) <= Zdigits2 m + 1).
  { split; [lia|]. destruct m as [|p|p]; [simpl; lia | | lia].
    replace (Z.pos p + 1) with (Z.pos (Pos.succ p)) by lia.
    cbn [Zdigits2]. apply digits_succ. }
  unfold round_nearest_even. destruct l as [|[]]; try (split; [assumption | lia]).
  - destruct (Z.even m); [split; [assumption | lia] | exact Hs].
  - exact Hs.
Qed.

Lemma binary_round_aux_within sx mx ex lx E B :
  0 <= mx -> ex <= E -> Zdigits2 mx + ex <= B ->
  -1074 <= E <= 971 -> -1074 <= B -> B - 52 <= E ->
  within (binary_round_aux prec emax sx mx ex lx) E (B + 1).
Proof.
  intros Hm He HB HE HB0 HBE. unfold binary_round_aux.
  destruct (shr_fexp_bound mx ex lx Hm) as [H1 [He1 Hd1]].
  destruct (shr_fexp prec emax mx ex lx) as [mrs1 e1]. cbn [fst snd] in H1, He1, Hd1.
  destruct (round_nearest_even_bound (shr_m mrs1) (loc_of_shr_record mrs1) H1) as [H2 Hd2].
  set (m2 := round_nearest_even (shr_m mrs1) (loc_of_shr_record mrs1)) in *.
  destruct (shr_fexp_bound m2 e1 loc_Exact H2) as [H3 [He3 Hd3]].
  destruct (shr_fexp prec emax m2 e1 loc_Exact) as [mrs3 e3]. cbn [fst snd] in H3, He3, Hd3.
  destruct (shr_m mrs3) as [|m|m] eqn:Hm3; [exact I | | lia].
  replace (e3 <=? emax - prec) with true by (symmetry; apply Z.leb_le; unfold emax, prec; lia).
  cbn [within Zdigits2] in *. lia.
Qed.

Lemma within_mono x E B E' B' :
  within x E B -> E <= E' -> B <= B' -> within x E' B'.
Proof. destruct x; simpl; intros; try assumption. lia. Qed.

Lemma withinb_within x E B : withinb x E B = true -> within x E B.
Proof.
  destruct x; simpl; try discriminate; try (intros; exact I).
  rewrite andb_true_iff, !Z.leb_le. auto.
Qed.

Lemma within_finite x E B : within x E B -> finite_or_overflow x = Ok x.
Proof. destruct x; simpl; intros H; try reflexivity; destruct H. Qed.

Lemma shl_align_bound mx ex ex' :
  snd (shl_align mx ex ex') <= ex /\
  Zpos (digits2_pos (fst (shl_align mx ex ex'))) + snd (shl_align mx ex ex') =
    Zpos (digits2_pos mx) + ex.
Proof.
  unfold shl_align. destruct (ex' - ex) as [|d|d] eqn:Hd; cbn [fst snd]; try lia.
  rewrite digits_iter_xO. lia.
Qed.

Lemma shl_align_min mx ex ez :
  ez <= ex -> snd (shl_align mx ex ez) = ez.
Proof.
  intros Hle. unfold shl_align. destruct (ez - ex) as [|d|d] eqn:Hd; cbn [snd]; lia.
Qed.

Lemma binary_normalize_within z e sz E B :
  e <= E -> Zdigits2 z + e <= B ->
  -1074 <= E <= 971 -> -1074 <= B -> B - 52 <= E ->
  within (binary_normalize prec emax z e sz) E (B + 1).
Proof.
  intros He HB HE HB0 HBE.
  assert (Hround : forall sx m, Zpos (digits2_pos m) + e <= B ->
            within (binary_round prec emax sx m e) E (B + 1)).
  { intros sx m Hd. unfold binary_round.
    destruct (shl_align_bound m e (fexp prec emax (Zpos (digits2_pos m) + e))) as [Hs Hdig].
    destruct (shl_align m e (fexp prec emax (Zpos (digits2_pos m) + e))) as [mz ez].
    cbn [fst snd] in Hs, Hdig.
    apply binary_round_aux_within; cbn [Zdigits2]; lia. }
  destruct z as [|m|m]; cbn [binary_normalize]; [exact I | |]; apply Hround; exact HB.
Qed.

Lemma of_int_within z K :
  0 <= K <= 1023 -> Z.abs z < 2 ^ K ->
  exists x, of_int z = Ok x /\ within x (Z.max 0 (K - 52)) (K + 1).
Proof.
  intros HK Hz. exists (binary_normalize prec emax z 0 false).
  assert (H : within (binary_normalize prec emax z 0 false) (Z.max 0 (K - 52)) (K + 1)).
  { apply binary_normalize_within; try lia.
    pose proof (Zdigits2_le_of_lt z K (proj1 HK) Hz). lia. }
  split; [|exact H]. unfold of_int. apply (within_finite _ _ _ H).
Qed.

Lemma fmul_within x y Ex Bx Ey By E B :
  within x Ex Bx -> within y Ey By ->
  Ex + Ey <= E -> Bx + By <= B ->
  -1074 <= E <= 971 -> -1074 <= B -> B - 52 <= E ->
  within (fmul x y) E (B + 1).
Proof.
  intros Hx Hy HE HB HE0 HB0 HBE. unfold fmul.
  destruct x as [sx|sx| |sx mx ex], y as [sy|sy| |sy my ey]; cbn [SFmul within] in *;
    try exact I; try contradiction.
  apply binary_round_aux_within; try lia.
  cbn [Zdigits2]. pose proof (digits_mul mx my). lia.
Qed.

Lemma aligned_sum_digits (X Y : positive) (sx sy : bool) (c : bool) k :
  Zpos (digits2_pos X) <= k -> Zpos (digits2_pos Y) <= k ->
  Zdigits2 (if c then cond_Zopp sx (Zpos X) + cond_Zopp sy (Zpos Y)
            else cond_Zopp sx (Zpos X) - cond_Zopp sy (Zpos Y)) <= k + 1.
Proof.
  intros HX HY. apply Zdigits2_le_of_lt; [lia|].
  pose proof (digits_lt X) as HlX. pose proof (digits_lt Y) as HlY.
  assert (H2X : 2 ^ Zpos (digits2_pos X) <= 2 ^ k) by (apply Z.pow_le_mono_r; lia).
  assert (H2Y : 2 ^ Zpos (digits2_pos Y) <= 2 ^ k) by (apply Z.pow_le_mono_r; lia).
  replace (k + 1) with (Z.succ k) by lia. rewrite Z.pow_succ_r by lia.
  destruct c, sx, sy; cbn [cond_Zopp]; lia.
Qed.

Lemma aligned_within (c : bool) sx mx ex sy my ey E B :
  ex <= E -> Zpos (digits2_pos mx) + ex <= B ->
  ey <= E -> Zpos (digits2_pos my) + ey <= B ->
  -1074 <= E <= 971 -> -1074 <= B -> B - 51 <= E ->
  within
    (binary_normalize prec emax
       (if c
        then cond_Zopp sx (Zpos (fst (shl_align mx ex (Z.min ex ey)))) +
             cond_Zopp sy (Zpos (fst (shl_align my ey (Z.min ex ey))))
        else cond_Zopp sx (Zpos (fst (shl_align mx ex (Z.min ex ey)))) -
             cond_Zopp sy (Zpos (fst (shl_align my ey (Z.min ex ey)))))
       (Z.min ex ey) false)
    E (B + 2).
Proof.
  intros Hex HBx Hey HBy HE HB0 HBE.
  destruct (shl_align_bound mx ex (Z.min ex ey)) as [_ Hdx].
  destruct (shl_align_bound my ey (Z.min ex ey)) as [_ Hdy].
  rewrite shl_align_min in Hdx by lia. rewrite shl_align_min in Hdy by lia.
  replace (B + 2) with (B + 1 + 1) by lia.
  apply binary_normalize_within; try lia.
  pose proof (aligned_sum_digits (fst (shl_align mx ex (Z.min ex ey)))
                (fst (shl_align my ey (Z.min ex ey))) sx sy c (B - Z.min ex ey)).
  lia.
Qed.

Lemma fsub_within x y E B :
  within x E B -> within y E B ->
  -1074 <= E <= 971 -> -1074 <= B -> B - 51 <= E ->
  within (fsub x y) E (B + 2).
Proof.
  intros Hx Hy HE HB0 HBE. unfold fsub.
  destruct x as [sx|sx| |sx mx ex], y as [sy|sy| |sy my ey]; cbn [SFsub within] in *;
    try exact I; try contradiction; try lia.
  - destruct sx, sy; exact I.
  - apply (aligned_within false); lia.
Qed.

Lemma fadd_within x y E B :
  within x E B -> within y E B ->
  -1074 <= E <= 971 -> -1074 <= B -> B - 51 <= E ->
  within (fadd x y) E (B + 2).
Proof.
  intros Hx Hy HE HB0 HBE. unfold fadd.
  destruct x as [sx|sx| |sx mx ex], y as [sy|sy| |sy my ey]; cbn [SFadd within] in *;
    try exact I; try contradiction; try lia.
  - destruct sx, sy; exact I.
  - apply (aligned_within true); lia.
Qed.

Lemma ceil_returns x E B : within x E B -> exists z, ceil x = Ok z.
Proof. destruct x; simpl; intros H; try destruct H; eauto. Qed.

Lemma round_returns x E B : within x E B -> exists z, round x = Ok z.
Proof. destruct x; simpl; intros H; try destruct H; eauto. Qed.

(** ** Totality of the float computations *)

Lemma int_mul_float_within n x :
  Z.abs n < 2 ^ 1001 -> within x (-52) 1 ->
  exists p, int_mul_float n x = Ok p /\ within p 971 1004.
Proof.
  intros Hn Hx. destruct (of_int_within n 1001) as [fn [Hfn Hw]]; [lia | assumption |].
  exists (fmul fn x). unfold int_mul_float. rewrite Hfn. split; [reflexivity|].
  change 1004 with (1003 + 1).
  apply (fmul_within fn x (Z.max 0 (1001 - 52)) (1001 + 1) (-52) 1); try assumption; lia.
Qed.

Lemma small_int_within n :
  Z.abs n < 2 ^ 10 -> exists x, of_int n = Ok x /\ within x 971 1004.
Proof.
  intros Hn. destruct (of_int_within n 10) as [x [Hx Hw]]; [lia | assumption |].
  exists x. split; [assumption|]. apply (within_mono _ _ _ _ _ Hw); lia.
Qed.

Lemma literals_within :
  within lit_1_2 (-52) 1 /\ within lit_0_4 (-52) 1 /\
  within lit_0_2 (-52) 1 /\ within lit_0_5 (-52) 1.
Proof.
  split; [|split; [|split]]; apply withinb_within; reflexivity.
Qed.

Lemma pow_1000_1001 : 2 ^ 1001 = 2 * 2 ^ 1000.
Proof. change 1001 with (Z.succ 1000). apply Z.pow_succ_r. lia. Qed.

Lemma confidence_score_returns (y t b d : Z) :
  Z.abs y < 2 ^ 1000 -> Z.abs t < 2 ^ 1000 -> Z.abs b < 2 ^ 1000 -> d < 2 ^ 1000 ->
  exists r, confidence_score y t b d = Ok (Z.max 0 (Z.min 100 r)).
Proof.
  intros Hy Ht Hb Hd. pose proof pow_1000_1001 as Hp.
  assert (H0 : 0 < 2 ^ 1000) by (apply Z.pow_pos_nonneg; lia).
  assert (H10 : 1024 <= 2 ^ 1000).
  { change 1024 with (2 ^ 10). apply Z.pow_le_mono_r; lia. }
  destruct literals_within as [L12 [L04 [L02 L05]]].
  assert (Hpen : exists penalty,
            (if y <? 70
             then (p <- int_mul_float (70 - y) lit_1_2 ;; float_add_int p 10)
             else int_mul_float (Z.max 0 (85 - y)) lit_0_4) = Ok penalty /\
            within penalty 971 1006).
  { destruct (y <? 70).
    - destruct (int_mul_float_within (70 - y) lit_1_2) as [p [Hp1 Hw1]]; [lia | assumption |].
      destruct (small_int_within 10) as [x [Hx Hwx]]; [simpl; lia|].
      exists (fadd p x). rewrite Hp1. cbn [bind]. unfold float_add_int. rewrite Hx.
      split; [reflexivity|]. change 1006 with (1004 + 2). apply fadd_within; try assumption; lia.
    - destruct (int_mul_float_within (Z.max 0 (85 - y)) lit_0_4) as [p [Hp1 Hw1]];
        [lia | assumption |].
      exists p. split; [assumption|]. apply (within_mono _ _ _ _ _ Hw1); lia. }
  destruct Hpen as [penalty [Hpen Hwpen]].
  destruct (small_int_within 100) as [x100 [Hx100 Hw100]]; [simpl; lia|].
  destruct (int_mul_float_within (Z.max 0 (100 - t)) lit_0_4) as [p1 [Hp1 Hw1]];
    [lia | assumption |].
  destruct (int_mul_float_within b lit_0_2) as [p2 [Hp2 Hw2]]; [lia | assumption |].
  destruct (int_mul_float_within (Z.max 0 d) lit_0_5) as [p3 [Hp3 Hw3]]; [lia | assumption |].
  assert (Hs0 : within (fsub x100 penalty) 971 1008).
  { change 1008 with (1006 + 2). apply fsub_within; try assumption; try lia.
    apply (within_mono _ _ _ _ _ Hw100); lia. }
  assert (Hs1 : within (fsub (fsub x100 penalty) p1) 971 1010).
  { change 1010 with (1008 + 2). apply fsub_within; try assumption; try lia.
    apply (within_mono _ _ _ _ _ Hw1); lia. }
  assert (Hs2 : within (fsub (fsub (fsub x100 penalty) p1) p2) 971 1012).
  { change 1012 with (1010 + 2). apply fsub_within; try assumption; try lia.
    apply (within_mono _ _ _ _ _ Hw2); lia. }
  assert (Hs3 : within (fsub (fsub (fsub (fsub x100 penalty) p1) p2) p3) 971 1014).
  { change 1014 with (1012 + 2). apply fsub_within; try assumption; try lia.
    apply (within_mono _ _ _ _ _ Hw3); lia. }
  destruct (round_returns _ _ _ Hs3) as [r Hr].
  exists r. unfold confidence_score. rewrite Hpen. cbn [bind].
  unfold int_sub_float. rewrite Hx100. cbn [bind].
  rewrite Hp1. cbn [bind]. rewrite Hp2. cbn [bind]. rewrite Hp3. cbn [bind].
  rewrite Hr. reflexivity.
Qed.

(** ** Totality of [apply_constraints] *)

Lemma factory_multiplier_within (t : Z) :
  valid_throughput t ->
  exists fm, truediv 100 (Z.max 1 t) = Ok fm /\ within fm (-52) 1.
Proof.
  intros Ht.
  pose (P := fun t =>
    match truediv 100 (Z.max 1 t) with
    | Ok fm => withinb fm (-52) 1
    | Raise _ => false
    end).
  assert (HP : P t = true).
  { apply (forall_Zrange P 60 120); [vm_compute; reflexivity | exact Ht]. }
  unfold P in HP. destruct (truediv 100 (Z.max 1 t)) as [fm|e]; [|discriminate].
  exists fm. split; [reflexivity | apply withinb_within; assumption].
Qed.

Lemma scale_duration_returns (d : Z) (fm : float) :
  Z.abs d < 2 ^ 1000 -> within fm (-52) 1 ->
  exists z, scale_duration d fm = Ok z.
Proof.
  intros Hd Hfm. pose proof pow_1000_1001 as Hp.
  destruct (int_mul_float_within d fm) as [p [Hp1 Hw]]; [lia | assumption |].
  destruct (ceil_returns _ _ _ Hw) as [z Hz].
  exists z. unfold scale_duration. rewrite Hp1. exact Hz.
Qed.

Lemma adjust_tasks_returns fm bd nd al :
  forall items acc,
  (forall name meta, In (name, meta) items -> type meta = "factory" ->
     exists z, scale_duration (duration meta) fm = Ok z) ->
  exists updated, adjust_tasks fm bd nd al items acc = Ok updated.
Proof.
  induction items as [|[n m] items IH]; intros acc Hscale.
  - exists acc. reflexivity.
  - cbn [adjust_tasks].
    assert (Hd : exists d, adjust_duration fm bd nd al n m = Ok d).
    { unfold adjust_duration. destruct (String.eqb_spec (type m) "factory") as [Hf|Hf].
      - destruct (Hscale n m (or_introl eq_refl) Hf) as [z Hz]. rewrite Hz. cbn [bind]. eauto.
      - cbn [bind]. eauto. }
    destruct Hd as [d Hd]. rewrite Hd. cbn [bind]. apply IH.
    intros name meta Hin Hf. apply (Hscale name meta); [right; assumption | assumption].
Qed.

Lemma apply_constraints_returns tasks p y t b :
  valid_yield y -> valid_throughput t -> valid_bug_count b ->
  (forall name meta, In (name, meta) tasks -> type meta = "factory" ->
     Z.abs (duration meta) < 2 ^ 1000) ->
  exists updated ad nd, apply_constraints tasks p y t b = Ok (updated, ad, nd).
Proof.
  intros Hy Ht Hb Hdur. unfold apply_constraints.
  rewrite (compute_allocation_delays_exact y Hy). cbn [bind].
  destruct (factory_multiplier_within t Ht) as [fm [Hfm Hw]]. rewrite Hfm. cbn [bind].
  rewrite (compute_bug_delay_exact b Hb). cbn [bind].
  rewrite (compute_na_delay_exact t Ht). cbn [bind].
  destruct (adjust_tasks_returns fm (spec_bug_delay b) (spec_na_delay t)
              (get_default p 0 (spec_allocation_delays y)) tasks []) as [updated Hupd].
  { intros name meta Hin Hf. apply scale_duration_returns; [|assumption].
    apply (Hdur name meta Hin Hf). }
  rewrite Hupd. cbn [bind]. eauto.
Qed.

(** On a factory task of [2 ^ 1024] days the applicator raises
    [OverflowError] and returns no mapping, with every constraint at its
    baseline value. *)
Lemma apply_constraints_overflow_example :
  wf huge_factory_example /\
  valid_yield 85 /\ valid_throughput 100 /\ valid_bug_count 25 /\
  apply_constraints huge_factory_example "MacBook Pro" 85 100 25 = Raise OverflowError.
Proof.
  split; [apply wf_check; reflexivity|].
  unfold valid_yield, valid_throughput, valid_bug_count.
  repeat (split; [lia|]). vm_compute. reflexivity.
Qed.

(** ** Errors of [compute_cpm] *)

Lemma forallb_false {A : Type} (f : A -> bool) (l : list A) :
  forallb f l = false -> exists x, In x l /\ f x = false.
Proof.
  induction l as [|x l IH]; simpl; [discriminate|].
  destruct (f x) eqn:Hx; simpl.
  - intros H. destruct (IH H) as [y [Hy Hf]]. exists y. auto.
  - intros _. exists x. auto.
Qed.

Lemma closedb_false tasks : wf tasks -> closedb tasks = false -> dangling tasks.
Proof.
  intros Hwf H. unfold closedb in H.
  apply forallb_false in H. destruct H as [[a meta] [Hin H]]. simpl in H.
  apply forallb_false in H. destruct H as [b [Hb H]].
  exists a, b. split.
  - exists meta. split; [apply In_get; assumption | assumption].
  - apply mem_false. assumption.
Qed.


Lemma toposort_dangling tasks :
  wf tasks -> dangling tasks ->
  toposort (initial_remaining tasks) [] = Raise CyclicDependency.
Proof.
  intros Hwf [a [b [Hdep Hnot]]].
  destruct (toposort_spec tasks _ (initial_remaining tasks) [] (le_n _) (loop_inv_init tasks Hwf))
    as [[final [batches [_ [Hinv _]]]] | [Hraise _]]; [|assumption].
  exfalso. apply Hnot.
  assert (Ha : In a final).
  { destruct Hdep as [meta [Hget _]].
    assert (Hk : In a (keys tasks)) by (apply get_in_keys; eauto).
    apply (inv_keys _ _ _ Hinv) in Hk. destruct Hk as [H|[]]. assumption. }
  apply in_split in Ha. destruct Ha as [l1 [l2 Heq]].
  pose proof (inv_topological _ _ _ Hinv l1 a l2 Heq b Hdep) as Hb.
  apply (inv_keys _ _ _ Hinv). left. rewrite Heq. apply in_or_app. left. assumption.
Qed.

(** X1 (compute_cpm): the scheduler raises no exception but [CyclicDependency], and raises it
    exactly on the mappings that have a dependency cycle or a dependency
    that is not a task of the mapping. *)
Theorem compute_cpm_raises (tasks : dict task_meta) :
  wf tasks ->
  (forall e, compute_cpm tasks = Raise e -> e = CyclicDependency) /\
  (compute_cpm tasks = Raise CyclicDependency <-> has_cycle tasks \/ dangling tasks).
Proof.
  intros Hwf.
  assert (Hcases :
            (exists es ef, compute_cpm tasks = Ok (es, ef)) /\ ~ has_cycle tasks /\ ~ dangling tasks \/
            compute_cpm tasks = Raise CyclicDependency /\ (has_cycle tasks \/ dangling tasks)).
  { destruct (toposort (initial_remaining tasks) []) as [order|e] eqn:Htopo.
    - left. destruct (compute_cpm_of_order tasks order Hwf Htopo) as [es [ef [Hrun _]]].
      split; [eauto|]. split.
      + intros Hc. rewrite (toposort_cycle tasks Hwf Hc) in Htopo. discriminate.
      + intros Hd. rewrite (toposort_dangling tasks Hwf Hd) in Htopo. discriminate.
    - right.
      destruct (toposort_spec tasks _ (initial_remaining tasks) [] (le_n _)
                  (loop_inv_init tasks Hwf))
        as [[final [batches [Hfinal _]]] | [Hraise [remaining [order [Hinv [Hne Hready]]]]]].
      + rewrite Hfinal in Htopo. discriminate.
      + split; [unfold compute_cpm; rewrite Hraise; reflexivity|].
        destruct (closedb tasks) eqn:Hcl.
        * left. apply (stuck_has_cycle tasks remaining order); try assumption.
          apply closed_check. assumption.
        * right. apply closedb_false; assumption. }
  destruct Hcases as [[[es [ef Hok]] [Hnc Hnd]] | [Hraise Hwhy]].
  - split.
    + intros e He. rewrite Hok in He. discriminate.
    + split; [intros He; rewrite Hok in He; discriminate | tauto].
  - split.
    + intros e He. rewrite Hraise in He. injection He as <-. reflexivity.
    + tauto.
Qed.

Lemma compute_cpm_raises_witness :
  (forall e, compute_cpm dangling_example = Raise e -> e = CyclicDependency) /\
  (compute_cpm dangling_example = Raise CyclicDependency <->
   has_cycle dangling_example \/ dangling dangling_example).
Proof.
  apply (compute_cpm_raises dangling_example). apply wf_check. reflexivity.
Defined.

(** ** The order and the values of the result of [compute_cpm] *)

Lemma forward_pass_order tasks :
  forall order es0 ef0 es ef,
  forward_pass tasks order es0 ef0 = Ok (es, ef) ->
  NoDup order ->
  (forall k, In k order -> ~ In k (keys es0)) ->
  (forall k, In k order -> ~ In k (keys ef0)) ->
  keys es = (keys es0 ++ order)%list /\ keys ef = (keys ef0 ++ order)%list.
Proof.
  induction order as [|task rest IH]; intros es0 ef0 es ef Hrun Hnd Hes Hef.
  - simpl in Hrun. injection Hrun as <- <-. rewrite !app_nil_r. auto.
  - cbn [forward_pass] in Hrun.
    apply bind_ok in Hrun. destruct Hrun as [meta [_ Hrun]].
    apply bind_ok in Hrun. destruct Hrun as [fs [_ Hrun]].
    inversion Hnd as [|? ? Hnotin Hnd']; subst.
    rewrite (set_fresh task _ es0) in Hrun by (apply Hes; left; reflexivity).
    rewrite (set_fresh task _ ef0) in Hrun by (apply Hef; left; reflexivity).
    apply IH in Hrun; [|assumption| |].
    + unfold keys in *. rewrite !map_app in Hrun. simpl in Hrun.
      rewrite <- !app_assoc in Hrun. exact Hrun.
    + intros k Hk. unfold keys. rewrite map_app, in_app_iff. simpl.
      intros [H|[H|[]]]; [apply (Hes k); [right; assumption | assumption] | subst; contradiction].
    + intros k Hk. unfold keys. rewrite map_app, in_app_iff. simpl.
      intros [H|[H|[]]]; [apply (Hef k); [right; assumption | assumption] | subst; contradiction].
Qed.

Lemma compute_cpm_inv tasks es ef :
  wf tasks -> compute_cpm tasks = Ok (es, ef) ->
  exists order,
    toposort (initial_remaining tasks) [] = Ok order /\
    loop_inv tasks [] order /\
    keys es = order /\ keys ef = order.
Proof.
  intros Hwf Hrun. unfold compute_cpm in Hrun.
  apply bind_ok in Hrun. destruct Hrun as [order [Htopo Hrun]].
  destruct (toposort_ok_inv tasks order Hwf Htopo) as [Hinv _].
  exists order. split; [assumption|]. split; [assumption|].
  apply (forward_pass_order tasks order [] [] es ef Hrun (inv_nodup _ _ _ Hinv));
    intros k _ [].
Qed.

(** X2 (compute_cpm): the two maps returned by the scheduler list the tasks in the same
    order; this order has every task of the mapping exactly once, each
    after all its dependencies. *)
Theorem compute_cpm_order (tasks : dict task_meta) (es ef : dict Z) :
  wf tasks -> compute_cpm tasks = Ok (es, ef) ->
  keys es = keys ef /\
  NoDup (keys ef) /\
  Permutation (keys ef) (keys tasks) /\
  topological tasks (keys ef).
Proof.
  intros Hwf Hrun.
  destruct (compute_cpm_inv tasks es ef Hwf Hrun) as [order [_ [Hinv [Hes Hef]]]].
  rewrite Hes, Hef. split; [reflexivity|].
  split; [apply (inv_nodup _ _ _ Hinv)|]. split.
  - apply NoDup_Permutation; [apply (inv_nodup _ _ _ Hinv) | exact Hwf |].
    intros k. rewrite (inv_keys _ _ _ Hinv). simpl. tauto.
  - apply (inv_topological _ _ _ Hinv).
Qed.

Lemma compute_cpm_order_witness :
  exists es ef,
    compute_cpm chain_example = Ok (es, ef) /\
    keys es = keys ef /\
    NoDup (keys ef) /\
    Permutation (keys ef) (keys chain_example) /\
    topological chain_example (keys ef).
Proof.
  destruct (compute_cpm chain_example) as [[es ef]|e] eqn:Hrun;
    [|vm_compute in Hrun; discriminate].
  exists es, ef. split; [reflexivity|].
  apply (compute_cpm_order chain_example es ef); [apply wf_check; reflexivity | exact Hrun].
Defined.

Lemma Forall2_get_map (ef : dict Z) (g : string -> Z) deps fs :
  Forall2 (fun d f => get d ef = Some f) deps fs ->
  (forall d, In d deps -> get d ef = Some (g d)) ->
  fs = map g deps.
Proof.
  intros H. induction H as [|d f deps fs Hget _ IH]; intros Hg; [reflexivity|].
  simpl. rewrite IH by (intros; apply Hg; right; assumption).
  specialize (Hg d (or_introl eq_refl)). congruence.
Qed.

Lemma finish_is_path_length tasks order (ef : dict Z) :
  topological tasks order ->
  (forall k, In k order ->
     exists meta fs,
       get k tasks = Some meta /\
       Forall2 (fun d f => get d ef = Some f) (deps meta) fs /\
       get k ef = Some (max_default fs 0 + duration meta)) ->
  forall fuel l1 k l2,
  order = (l1 ++ k :: l2)%list -> (List.length l1 < fuel)%nat ->
  get k ef = Some (path_length fuel tasks k).
Proof.
  intros Htopo Hspec. induction fuel as [|n IH]; intros l1 k l2 Heq Hlen; [lia|].
  destruct (Hspec k) as [meta [fs [Hget [Hfs Hef]]]]; [rewrite Heq; apply in_elt|].
  cbn [path_length]. rewrite Hget, Hef. f_equal. f_equal. f_equal.
  apply (Forall2_get_map ef); [assumption|].
  intros d Hd.
  assert (Hin : In d l1) by (apply (Htopo l1 k l2 Heq); exists meta; auto).
  apply in_split in Hin. destruct Hin as [l1' [l2' Hl1]].
  apply (IH l1' d (l2' ++ k :: l2)%list).
  - rewrite Heq, Hl1, <- app_assoc. reflexivity.
  - rewrite Hl1, length_app in Hlen. simpl in Hlen. lia.
Qed.

(** The earliest finish by the recurrence [path_length]. *)
Lemma finish_longest_path (tasks : dict task_meta) (es ef : dict Z) :
  wf tasks -> compute_cpm tasks = Ok (es, ef) ->
  forall task, In task (keys tasks) ->
  get task ef = Some (path_length (List.length tasks) tasks task).
Proof.
  intros Hwf Hrun task Htask.
  destruct (compute_cpm_inv tasks es ef Hwf Hrun) as [order [Htopo [Hinv _]]].
  destruct (compute_cpm_of_order tasks order Hwf Htopo) as [es' [ef' [Hrun' [_ [_ Hspec]]]]].
  rewrite Hrun in Hrun'. injection Hrun' as <- <-.
  assert (Hperm : Permutation order (keys tasks)).
  { apply NoDup_Permutation; [apply (inv_nodup _ _ _ Hinv) | exact Hwf |].
    intros k. rewrite (inv_keys _ _ _ Hinv). simpl. tauto. }
  assert (Hin : In task order) by (apply (Permutation_in _ (Permutation_sym Hperm)); assumption).
  apply in_split in Hin. destruct Hin as [l1 [l2 Heq]].
  apply (finish_is_path_length tasks order ef (inv_topological _ _ _ Hinv)) with (l1 := l1) (l2 := l2).
  - intros k Hk.
    assert (Hk' : In k (keys tasks)) by (apply (Permutation_in _ Hperm); assumption).
    apply get_in_keys in Hk'. destruct Hk' as [meta Hget].
    destruct (Hspec k meta Hget) as [fs [Hfs [_ Hef]]]. exists meta, fs. auto.
  - assumption.
  - apply Permutation_length in Hperm. unfold keys in Hperm. rewrite length_map in Hperm.
    rewrite <- Hperm, Heq, length_app. simpl. lia.
Qed.

(** ** Longer durations *)

Lemma lengthened_keys tasks tasks' : lengthened tasks tasks' -> keys tasks = keys tasks'.
Proof.
  intros H. induction H as [|kv kv' t t' [Hk _] _ IH]; [reflexivity|].
  simpl. rewrite Hk, IH. reflexivity.
Qed.

Lemma lengthened_length tasks tasks' :
  lengthened tasks tasks' -> List.length tasks = List.length tasks'.
Proof. apply Forall2_length. Qed.

Lemma lengthened_get tasks tasks' :
  lengthened tasks tasks' ->
  forall k,
  match get k tasks, get k tasks' with
  | Some m, Some m' => deps m = deps m' /\ duration m <= duration m'
  | None, None => True
  | _, _ => False
  end.
Proof.
  intros H k. induction H as [|[n m] [n' m'] t t' [Hk [Hd Hle]] _ IH]; [exact I|].
  simpl in Hk. subst n'. simpl. destruct (String.eqb k n); [auto | exact IH].
Qed.

Lemma initial_remaining_lengthened tasks tasks' :
  lengthened tasks tasks' -> initial_remaining tasks = initial_remaining tasks'.
Proof.
  unfold initial_remaining. generalize (@nil (string * list string)).
  intros acc H. revert acc.
  induction H as [|kv kv' t t' [Hk [Hd _]] _ IH]; intros acc; [reflexivity|].
  simpl. rewrite Hk, Hd. apply IH.
Qed.

Lemma max_default_map_mono (g g' : string -> Z) (l : list string) :
  (forall d, In d l -> g d <= g' d) ->
  max_default (map g l) 0 <= max_default (map g' l) 0.
Proof.
  intros Hle. destruct l as [|d l]; [simpl; lia|].
  pose proof (max_default_is_max (map g (d :: l)) 0) as H.
  pose proof (max_default_is_max (map g' (d :: l)) 0) as H'.
  cbn [map is_max_of] in H, H'. destruct H as [Hin _]. destruct H' as [_ Hmax].
  change (g d :: map g l) with (map g (d :: l)) in Hin.
  apply in_map_iff in Hin. destruct Hin as [x [Hx Hin]].
  rewrite <- Hx.
  transitivity (g' x); [apply Hle; assumption|].
  apply Hmax. change (g' d :: map g' l) with (map g' (d :: l)).
  apply in_map. assumption.
Qed.

Lemma path_length_mono tasks tasks' :
  lengthened tasks tasks' ->
  forall fuel k, path_length fuel tasks k <= path_length fuel tasks' k.
Proof.
  intros H. induction fuel as [|n IH]; intros k; [simpl; lia|].
  cbn [path_length]. pose proof (lengthened_get tasks tasks' H k) as Hk.
  destruct (get k tasks) as [m|], (get k tasks') as [m'|]; try contradiction; [|lia].
  destruct Hk as [Hd Hle]. rewrite <- Hd.
  pose proof (max_default_map_mono (path_length n tasks) (path_length n tasks') (deps m)
                (fun d _ => IH d)).
  lia.
Qed.

(** Longer durations give finishes at least as late. *)
Lemma finish_monotone (tasks tasks' : dict task_meta) (es ef : dict Z) :
  wf tasks -> lengthened tasks tasks' ->
  compute_cpm tasks = Ok (es, ef) ->
  exists es' ef',
    compute_cpm tasks' = Ok (es', ef') /\
    forall task f, get task ef = Some f ->
      exists f', get task ef' = Some f' /\ f <= f'.
Proof.
  intros Hwf Hlen Hrun.
  assert (Hwf' : wf tasks').
  { unfold wf. rewrite <- (lengthened_keys _ _ Hlen). exact Hwf. }
  destruct (compute_cpm_inv tasks es ef Hwf Hrun) as [order [Htopo [Hinv [_ Hef]]]].
  rewrite (initial_remaining_lengthened _ _ Hlen) in Htopo.
  destruct (compute_cpm_of_order tasks' order Hwf' Htopo) as [es' [ef' [Hrun' _]]].
  exists es', ef'. split; [assumption|]. intros task f Hget.
  assert (Htask : In task (keys tasks)).
  { apply (inv_keys _ _ _ Hinv). left. rewrite <- Hef. apply get_in_keys. eauto. }
  rewrite (finish_longest_path tasks es ef Hwf Hrun task Htask) in Hget.
  injection Hget as <-.
  exists (path_length (List.length tasks') tasks' task). split.
  - apply (finish_longest_path tasks' es' ef' Hwf' Hrun').
    rewrite <- (lengthened_keys _ _ Hlen). assumption.
  - rewrite <- (lengthened_length _ _ Hlen). apply path_length_mono. assumption.
Qed.

(** X4 (compute_cpm): lengthening tasks never makes a task finish earlier: if the scheduler
    returns on a mapping, it returns on every mapping with the same tasks
    and dependencies and durations at least as long, with an earliest
    finish at least as late for every task. *)
Theorem compute_cpm_monotone (tasks tasks' : dict task_meta) (es ef : dict Z) :
  wf tasks -> lengthened tasks tasks' ->
  compute_cpm tasks = Ok (es, ef) ->
  exists es' ef',
    compute_cpm tasks' = Ok (es', ef') /\
    forall task f, get task ef = Some f ->
      exists f', get task ef' = Some f' /\ f <= f'.
Proof.
  intros Hwf Hlen Hrun. apply (finish_monotone tasks tasks' es ef); assumption.
Qed.

Lemma compute_cpm_monotone_witness :
  exists es ef es' ef',
    compute_cpm chain_example = Ok (es, ef) /\
    compute_cpm chain_example_longer = Ok (es', ef') /\
    forall task f, get task ef = Some f ->
      exists f', get task ef' = Some f' /\ f <= f'.
Proof.
  destruct (compute_cpm chain_example) as [[es ef]|e] eqn:Hrun;
    [|vm_compute in Hrun; discriminate].
  destruct (compute_cpm_monotone chain_example chain_example_longer es ef)
    as [es' [ef' [Hrun' Hle]]].
  - apply wf_check. reflexivity.
  - constructor; [simpl; repeat split; lia|].
    constructor; [simpl; repeat split; lia|]. constructor.
  - exact Hrun.
  - exists es, ef, es', ef'. split; [reflexivity|]. split; assumption.
Defined.

(** ** The task graphs of the products *)

Lemma reachable_sound tasks :
  forall fuel a b,
  reachable fuel tasks a b = true -> clos_refl_trans string (depends_on tasks) a b.
Proof.
  induction fuel as [|n IH]; intros a b H; cbn [reachable] in H;
    apply orb_true_iff in H; destruct H as [H|H];
    try (apply String.eqb_eq in H; subst; apply rt_refl); [discriminate|].
  destruct (get a tasks) as [meta|] eqn:Hget; [|discriminate].
  apply existsb_exists in H. destruct H as [d [Hd Hr]].
  apply rt_trans with (y := d); [apply rt_step; exists meta; auto | apply IH; assumption].
Qed.

(** X5 (build_product_tasks): the task graph built for a product has unique
    task names, dependencies that all name tasks of the graph, and no
    cycle; "Factory Build" depends on exactly the component tasks,
    "Validation & Launch Readiness" on "Factory Build" and the software
    tasks, "Ship" on the validation alone, and every task of the graph is
    "Ship" or one of its dependencies, direct or not. *)
Theorem build_product_tasks_graph (p : string) (base : dict task_meta) :
  build_product_tasks p = Ok base ->
  wf base /\ closed base /\ acyclic base /\
  get "Factory Build" base =
    Some (mk_meta 14 (tasks_of_type "component" base) "factory") /\
  get "Validation & Launch Readiness" base =
    Some (mk_meta 10 ("Factory Build" :: tasks_of_type "software" base) "validation") /\
  get "Ship" base = Some (mk_meta 0 ["Validation & Launch Readiness"] "milestone") /\
  forall task, In task (keys base) ->
    clos_refl_trans string (depends_on base) "Ship" task.
Proof.
  intros Hbase.
  pose proof (build_product_tasks_wf p base Hbase) as Hwf.
  destruct (product_graph p base Hbase) as [[order Horder] _].
  split; [assumption|].
  assert (Hrest :
            closedb base = true /\
            get "Factory Build" base =
              Some (mk_meta 14 (tasks_of_type "component" base) "factory") /\
            get "Validation & Launch Readiness" base =
              Some (mk_meta 10 ("Factory Build" :: tasks_of_type "software" base)
                      "validation") /\
            get "Ship" base =
              Some (mk_meta 0 ["Validation & Launch Readiness"] "milestone") /\
            forallb (reachable 3 base "Ship") (keys base) = true).
  { destruct (in_dec string_dec p (keys PRODUCT_CONFIGS)) as [Hin|Hnot].
    - destruct (configured_cases p Hin) as [-> | [-> | ->]];
        vm_compute in Hbase; injection Hbase as <-;
        (split; [reflexivity|]); (split; [reflexivity|]); (split; [reflexivity|]);
        (split; reflexivity).
    - rewrite (getitem_unconfigured p Hnot) in Hbase. discriminate. }
  destruct Hrest as [Hclosed [Hf [Hv [Hs Hreach]]]].
  split; [apply closed_check; assumption|].
  split; [apply (acyclic_check base order); assumption|].
  split; [assumption|]. split; [assumption|]. split; [assumption|].
  intros task Htask. apply (reachable_sound base 3).
  rewrite forallb_forall in Hreach. apply Hreach. assumption.
Qed.

Lemma build_product_tasks_graph_witness :
  exists base,
    build_product_tasks "Vision Pro" = Ok base /\
    wf base /\ closed base /\ acyclic base /\
    get "Factory Build" base =
      Some (mk_meta 14 (tasks_of_type "component" base) "factory") /\
    get "Validation & Launch Readiness" base =
      Some (mk_meta 10 ("Factory Build" :: tasks_of_type "software" base) "validation") /\
    get "Ship" base = Some (mk_meta 0 ["Validation & Launch Readiness"] "milestone") /\
    forall task, In task (keys base) ->
      clos_refl_trans string (depends_on base) "Ship" task.
Proof.
  destruct (build_product_tasks "Vision Pro") as [base|e] eqn:Hbase;
    [|vm_compute in Hbase; discriminate].
  exists base. split; [reflexivity|].
  apply (build_product_tasks_graph "Vision Pro" base Hbase).
Defined.

(** ** The records of [build_schedule] *)

Lemma depends_on_adjusted scale bd nd al tasks a b :
  depends_on (adjusted_tasks scale bd nd al tasks) a b <-> depends_on tasks a b.
Proof.
  unfold depends_on. split.
  - intros [meta [Hget Hin]]. rewrite adjusted_tasks_get in Hget.
    destruct (get a tasks) as [m|]; [|discriminate].
    injection Hget as <-. exists m. auto.
  - intros [meta [Hget Hin]]. rewrite adjusted_tasks_get, Hget. eexists. split; [reflexivity|].
    exact Hin.
Qed.

Lemma chain_adjusted scale bd nd al tasks a b :
  clos_refl_trans string (depends_on tasks) a b ->
  clos_refl_trans string (depends_on (adjusted_tasks scale bd nd al tasks)) a b.
Proof.
  intros H. induction H as [x y H| |x y z _ IH1 _ IH2].
  - apply rt_step. apply depends_on_adjusted. assumption.
  - apply rt_refl.
  - apply rt_trans with (y := y); assumption.
Qed.

Lemma Forall2_get_In_dep (ef : dict Z) deps fs d :
  Forall2 (fun d f => get d ef = Some f) deps fs ->
  In d deps -> exists f, In f fs /\ get d ef = Some f.
Proof.
  intros H. induction H as [|d' f deps fs Hget _ IH]; intros Hin; [destruct Hin|].
  destruct Hin as [->|Hin].
  - exists f. split; [left; reflexivity | assumption].
  - destruct (IH Hin) as [f' [Hf' Hg]]. exists f'. split; [right; assumption | assumption].
Qed.

(** The equations of the forward pass, for a run that returned. *)
Lemma compute_cpm_equations tasks es ef :
  wf tasks -> compute_cpm tasks = Ok (es, ef) ->
  forall k meta, get k tasks = Some meta ->
  exists fs,
    Forall2 (fun d f => get d ef = Some f) (deps meta) fs /\
    get k es = Some (max_default fs 0) /\
    get k ef = Some (max_default fs 0 + duration meta).
Proof.
  intros Hwf Hrun. pose proof Hrun as Hrun0. unfold compute_cpm in Hrun.
  apply bind_ok in Hrun. destruct Hrun as [order [Htopo _]].
  destruct (compute_cpm_of_order tasks order Hwf Htopo) as [es' [ef' [Hrun' [_ [_ Hspec]]]]].
  rewrite Hrun0 in Hrun'. injection Hrun' as <- <-. exact Hspec.
Qed.

Lemma start_nonneg (ef : dict Z) deps fs :
  (forall k f, get k ef = Some f -> 0 <= f) ->
  Forall2 (fun d f => get d ef = Some f) deps fs ->
  0 <= max_default fs 0.
Proof.
  intros Hpos Hfs. pose proof (max_default_is_max fs 0) as Hmax.
  destruct fs as [|x fs']; [simpl in *; lia|].
  destruct Hmax as [Hin _].
  destruct (Forall2_get_In _ _ _ _ Hfs Hin) as [d [_ Hd]].
  apply (Hpos d). assumption.
Qed.

(** With durations that are not negative, no task finishes before a task
    it depends on, directly or not. *)
Lemma finish_chain_le tasks es ef :
  wf tasks -> compute_cpm tasks = Ok (es, ef) ->
  (forall k meta, get k tasks = Some meta -> 0 <= duration meta) ->
  forall a b, clos_refl_trans string (depends_on tasks) a b ->
  forall fa, get a ef = Some fa -> exists fb, get b ef = Some fb /\ fb <= fa.
Proof.
  intros Hwf Hrun Hdur a b Hchain. apply clos_rt_rt1n in Hchain.
  induction Hchain as [x|x y z Hstep _ IH]; intros fa Hfa.
  - exists fa. split; [assumption | lia].
  - destruct Hstep as [meta [Hget Hin]].
    destruct (compute_cpm_equations tasks es ef Hwf Hrun x meta Hget) as [fs [Hfs [_ Hef]]].
    destruct (Forall2_get_In_dep ef _ _ y Hfs Hin) as [fy [Hfy Hgy]].
    destruct (IH fy Hgy) as [fb [Hfb Hle]]. exists fb. split; [assumption|].
    pose proof (max_default_is_max fs 0) as Hmax.
    destruct fs as [|f0 fs']; [destruct Hfy|]. destruct Hmax as [_ Hmax].
    specialize (Hmax fy Hfy). specialize (Hdur x meta Hget).
    rewrite Hef in Hfa. injection Hfa as <-. cbn [max_default] in Hmax. lia.
Qed.

Lemma date_add_days_eq (d : date) (n : Z) (r : date) :
  date_add_days d n = Ok r -> r = d + n.
Proof.
  unfold date_add_days.
  destruct ((Z.abs n <=? timedelta_max) && (1 <=? d + n) && (d + n <=? date_max));
    [intros [= <-]; reflexivity | discriminate].
Qed.

Lemma task_rows_spec p (start : date) es ef :
  forall items rows,
  task_rows p start es ef items = Ok rows ->
  forall row, In row rows ->
  exists task meta s f,
    In (task, meta) items /\ get task es = Some s /\ get task ef = Some f /\
    row = mk_row p task (start + s) (start + f) (duration meta) (type meta).
Proof.
  induction items as [|[task meta] items IH]; intros rows Hrun row Hrow.
  - injection Hrun as <-. destruct Hrow.
  - cbn [task_rows] in Hrun.
    apply bind_ok in Hrun. destruct Hrun as [s [Hs Hrun]].
    apply bind_ok in Hrun. destruct Hrun as [s' [Hs' Hrun]].
    apply bind_ok in Hrun. destruct Hrun as [f [Hf Hrun]].
    apply bind_ok in Hrun. destruct Hrun as [f' [Hf' Hrun]].
    apply bind_ok in Hrun. destruct Hrun as [rows' [Hrows Hrun]].
    injection Hrun as <-. destruct Hrow as [<-|Hrow].
    + exists task, meta, s, f. split; [left; reflexivity|].
      unfold getitem in Hs, Hf.
      destruct (get task es) as [s0|]; [|discriminate]. injection Hs as ->.
      destruct (get task ef) as [f0|]; [|discriminate]. injection Hf as ->.
      apply date_add_days_eq in Hs', Hf'. subst. auto.
    + destruct (IH rows' Hrows row Hrow) as [t0 [m0 [s0 [f0 [Hin H]]]]].
      exists t0, m0, s0, f0. split; [right; assumption | exact H].
Qed.

Lemma ship_reaches_all (p : string) (base : dict task_meta) :
  build_product_tasks p = Ok base ->
  forall task, In task (keys base) ->
  clos_refl_trans string (depends_on base) "Ship" task.
Proof.
  intros Hbase task Htask. apply (reachable_sound base 3).
  assert (Hreach : forallb (reachable 3 base "Ship") (keys base) = true).
  { destruct (in_dec string_dec p (keys PRODUCT_CONFIGS)) as [Hin|Hnot].
    - destruct (configured_cases p Hin) as [-> | [-> | ->]];
        vm_compute in Hbase; injection Hbase as <-; reflexivity.
    - rewrite (getitem_unconfigured p Hnot) in Hbase. discriminate. }
  rewrite forallb_forall in Hreach. apply Hreach. assumption.
Qed.

(** X6 (build_schedule): in every schedule that is returned, the ship date
    is the start date plus the ship offset, which is not negative, and
    every record belongs to the product, has a duration that is not
    negative, starts on the start date or later, ends its duration after
    it starts, and ends on the ship date or earlier. *)
Theorem build_schedule_records (p : string) (start : date) (y t b : Z)
    (schedule : list task_row) (ship_date : date) (ship_days : Z) (ad : dict Z) (nd : Z) :
  build_schedule p start y t b = Ok (schedule, ship_date, ship_days, ad, nd) ->
  ship_date = start + ship_days /\ 0 <= ship_days /\
  forall row, In row schedule ->
    row_product row = p /\
    0 <= row_duration row /\
    start <= row_start row /\
    row_end row = row_start row + row_duration row /\
    row_end row <= ship_date.
Proof.
  intros Hrun. unfold build_schedule in Hrun.
  apply bind_ok in Hrun. destruct Hrun as [base [Hbase Hrun]].
  apply bind_ok in Hrun. destruct Hrun as [[[tasks ad'] nd'] [Happ Hrun]].
  apply bind_ok in Hrun. destruct Hrun as [[es ef] [Hcpm Hrun]].
  apply bind_ok in Hrun. destruct Hrun as [rows [Hrows Hrun]].
  apply bind_ok in Hrun. destruct Hrun as [days [Hdays Hrun]].
  apply bind_ok in Hrun. destruct Hrun as [sd [Hsd Hrun]].
  injection Hrun as <- <- <- <- <-.
  apply date_add_days_eq in Hsd.
  unfold getitem in Hdays. destruct (get "Ship" ef) as [ship|] eqn:Hship; [|discriminate].
  injection Hdays as ->.
  pose proof (build_product_tasks_wf p base Hbase) as Hwf.
  destruct (apply_constraints_adjusted _ _ _ _ _ _ _ _ Hwf Happ) as [fm [bd [al Htasks]]].
  assert (Hwf' : wf tasks) by (subst tasks; apply adjusted_tasks_wf; assumption).
  assert (Hdur : forall k meta, get k tasks = Some meta -> 0 <= duration meta).
  { subst tasks. intros k meta. apply adjusted_tasks_nonneg. }
  pose proof (compute_cpm_nonneg tasks es ef Hdur Hcpm) as Hpos.
  split; [assumption|]. split; [apply (Hpos "Ship"); assumption|].
  intros row Hrow.
  destruct (task_rows_spec _ _ _ _ _ _ Hrows row Hrow) as [task [meta [s [f [Hin [Hs [Hf ->]]]]]]].
  cbn [row_product row_duration row_start row_end].
  assert (Hget : get task tasks = Some meta) by (apply In_get; assumption).
  destruct (compute_cpm_equations tasks es ef Hwf' Hcpm task meta Hget) as [fs [Hfs [Hes Hef]]].
  rewrite Hes in Hs. injection Hs as <-. rewrite Hef in Hf. injection Hf as <-.
  pose proof (start_nonneg ef _ _ Hpos Hfs) as Hstart.
  pose proof (Hdur task meta Hget) as Hd.
  assert (Hchain : clos_refl_trans string (depends_on tasks) "Ship" task).
  { subst tasks. apply chain_adjusted. apply (ship_reaches_all p base Hbase).
    rewrite <- (adjusted_tasks_keys (scaled fm) bd nd' al base).
    apply get_in_keys. eauto. }
  destruct (finish_chain_le tasks es ef Hwf' Hcpm Hdur _ _ Hchain days Hship) as [fb [Hfb Hle]].
  rewrite Hef in Hfb. injection Hfb as <-.
  split; [reflexivity|]. split; [assumption|]. split; [lia|]. split; lia.
Qed.

Lemma build_schedule_records_witness :
  exists schedule ship_date ship_days ad nd,
    build_schedule "iPad Pro" 739252 55 80 120 = Ok (schedule, ship_date, ship_days, ad, nd) /\
    ship_date = 739252 + ship_days /\ 0 <= ship_days /\
    forall row, In row schedule ->
      row_product row = "iPad Pro" /\
      0 <= row_duration row /\
      739252 <= row_start row /\
      row_end row = row_start row + row_duration row /\
      row_end row <= ship_date.
Proof.
  destruct (build_schedule "iPad Pro" 739252 55 80 120)
    as [[[[[schedule ship_date] ship_days] ad] nd]|e] eqn:Hrun;
    [|vm_compute in Hrun; discriminate].
  exists schedule, ship_date, ship_days, ad, nd. split; [reflexivity|].
  apply (build_schedule_records "iPad Pro" 739252 55 80 120 schedule ship_date ship_days ad nd).
  exact Hrun.
Defined.

(** X7 (build_schedule): for a product that is not configured the
    schedule builder raises the [KeyError] of the configuration lookup,
    whatever the start date and the constraint values are. *)
Theorem build_schedule_unknown_product (p : string) (start : date) (y t b : Z) :
  ~ configured p -> build_schedule p start y t b = Raise (KeyError p).
Proof.
  intros Hnot. unfold build_schedule. rewrite (getitem_unconfigured p Hnot). reflexivity.
Qed.

Lemma build_schedule_unknown_product_witness :
  build_schedule "Apple Watch" 739252 (- 2 ^ 2000) 0 (2 ^ 2000) = Raise (KeyError "Apple Watch").
Proof.
  apply (build_schedule_unknown_product "Apple Watch").
  unfold configured. simpl. intros [H|[H|[H|[]]]]; discriminate H.
Defined.

(** ** The sliders and the ship date *)

Lemma ceil_div_nonneg (n d : Z) : 0 < d -> 0 <= n -> 0 <= ceil_div n d.
Proof.
  intros Hd Hn. pose proof (ceil_div_mono 0 n d Hd Hn) as H.
  unfold ceil_div in H at 1. simpl in H. exact H.
Qed.

Lemma ceil_div_divisor (n d d' : Z) :
  0 <= n -> 0 < d' -> d' <= d -> ceil_div n d <= ceil_div n d'.
Proof.
  intros Hn Hd' Hd. unfold ceil_div.
  pose proof (Z.div_mod (- n) d ltac:(lia)) as E.
  pose proof (Z.mod_pos_bound (- n) d ltac:(lia)) as B.
  pose proof (Z.div_mod (- n) d' ltac:(lia)) as E'.
  pose proof (Z.mod_pos_bound (- n) d' ltac:(lia)) as B'.
  assert (Hq' : - n / d' <= 0) by (apply Z.div_le_upper_bound; lia).
  nia.
Qed.

Lemma spec_allocation_delay_nonneg p y : 0 <= spec_allocation_delay p y.
Proof.
  unfold spec_allocation_delay.
  destruct (70 <=? y) eqn:Hy; [lia|]. apply Z.leb_gt in Hy.
  assert (0 <= spec_base_delay y) by (unfold spec_base_delay; apply ceil_div_nonneg; lia).
  destruct (p =? "MacBook Pro")%string; [lia|].
  destruct (p =? "iPad Pro")%string; [lia|].
  destruct (p =? "Vision Pro")%string; lia.
Qed.

Lemma spec_allocation_delay_antitone p y y' :
  y' <= y -> spec_allocation_delay p y <= spec_allocation_delay p y'.
Proof.
  intros Hle. pose proof (spec_allocation_delay_nonneg p y') as Hpos.
  unfold spec_allocation_delay in *.
  destruct (70 <=? y) eqn:Hy; [lia|]. apply Z.leb_gt in Hy.
  replace (70 <=? y') with false in * by (symmetry; apply Z.leb_gt; lia).
  pose proof (spec_base_delay_antitone y y' Hle).
  destruct (p =? "MacBook Pro")%string; [lia|].
  destruct (p =? "iPad Pro")%string; [lia|].
  destruct (p =? "Vision Pro")%string; lia.
Qed.

Lemma spec_bug_delay_mono b b' : b <= b' -> spec_bug_delay b <= spec_bug_delay b'.
Proof. intros H. unfold spec_bug_delay. apply ceil_div_mono; lia. Qed.

Lemma spec_na_delay_antitone t t' : t' <= t -> spec_na_delay t <= spec_na_delay t'.
Proof.
  intros H. unfold spec_na_delay.
  pose proof (ceil_div_mono (Z.max 0 (90 - t)) (Z.max 0 (90 - t')) 10 ltac:(lia) ltac:(lia)).
  lia.
Qed.

Lemma spec_factory_duration_antitone t t' d :
  0 <= d -> 1 <= t' -> t' <= t ->
  spec_factory_duration t d <= spec_factory_duration t' d.
Proof.
  intros Hd Ht' Ht. unfold spec_factory_duration. apply ceil_div_divisor; lia.
Qed.

Lemma adjusted_duration_mono scale scale' bd bd' nd nd' al al' name meta :
  scale (duration meta) <= scale' (duration meta) ->
  bd <= bd' -> nd <= nd' -> al <= al' ->
  adjusted_duration scale bd nd al name meta <=
  adjusted_duration scale' bd' nd' al' name meta.
Proof.
  intros Hs Hb Hn Ha. unfold adjusted_duration.
  destruct (type meta =? "factory")%string, (type meta =? "software")%string,
    (name =? "Neural Accelerator")%string, (name =? "M5 Chip")%string; lia.
Qed.

Lemma adjusted_lengthened scale scale' bd bd' nd nd' al al' tasks :
  (forall name meta, In (name, meta) tasks ->
     scale (duration meta) <= scale' (duration meta)) ->
  bd <= bd' -> nd <= nd' -> al <= al' ->
  lengthened (adjusted_tasks scale bd nd al tasks) (adjusted_tasks scale' bd' nd' al' tasks).
Proof.
  intros Hs Hb Hn Ha. unfold lengthened, adjusted_tasks.
  induction tasks as [|[name meta] tasks IH]; [constructor|].
  simpl. constructor.
  - simpl. split; [reflexivity|]. split; [reflexivity|].
    apply adjusted_duration_mono; try assumption.
    apply (Hs name meta). left. reflexivity.
  - apply IH. intros n m Hin. apply (Hs n m). right. assumption.
Qed.

Lemma base_durations_nonneg (p : string) (base : dict task_meta) :
  build_product_tasks p = Ok base ->
  forall name meta, In (name, meta) base -> 0 <= duration meta.
Proof.
  intros Hbase name meta Hin.
  assert (Hall : forallb (fun kv => 0 <=? duration (snd kv)) base = true).
  { destruct (in_dec string_dec p (keys PRODUCT_CONFIGS)) as [Hp|Hnot].
    - destruct (configured_cases p Hp) as [-> | [-> | ->]];
        vm_compute in Hbase; injection Hbase as <-; reflexivity.
    - rewrite (getitem_unconfigured p Hnot) in Hbase. discriminate. }
  rewrite forallb_forall in Hall. specialize (Hall _ Hin). apply Z.leb_le. exact Hall.
Qed.

(** Constraints that are no easier give tasks that are no shorter. *)
Lemma harder_constraints_lengthen (p : string) (base : dict task_meta) (y t b y' t' b' : Z) :
  build_product_tasks p = Ok base ->
  1 <= t' -> y' <= y -> t' <= t -> b <= b' ->
  lengthened (spec_adjusted_tasks p y t b base) (spec_adjusted_tasks p y' t' b' base).
Proof.
  intros Hbase Ht' Hy Ht Hb. unfold spec_adjusted_tasks. apply adjusted_lengthened.
  - intros name meta Hin. apply spec_factory_duration_antitone; try assumption.
    apply (base_durations_nonneg p base Hbase name meta Hin).
  - apply spec_bug_delay_mono. assumption.
  - apply spec_na_delay_antitone. assumption.
  - apply spec_allocation_delay_antitone. assumption.
Qed.

(** The scheduler returns on the adjusted graph of every product. *)
Lemma product_cpm_returns (p : string) (base : dict task_meta) (y t b : Z) :
  build_product_tasks p = Ok base ->
  exists es ef days,
    compute_cpm (spec_adjusted_tasks p y t b base) = Ok (es, ef) /\
    get "Ship" ef = Some days.
Proof.
  intros Hbase.
  pose proof (build_product_tasks_wf p base Hbase) as Hwf.
  destruct (product_graph p base Hbase) as [[order Horder] Hsinks].
  set (tasks := spec_adjusted_tasks p y t b base).
  assert (Hwf' : wf tasks) by (apply adjusted_tasks_wf; assumption).
  assert (Horder' : toposort (initial_remaining tasks) [] = Ok order).
  { unfold tasks, spec_adjusted_tasks. rewrite initial_remaining_adjusted; assumption. }
  destruct (compute_cpm_of_order tasks order Hwf' Horder') as [es [ef [Hrun [_ [Hkeys _]]]]].
  assert (Hship : In "Ship" (keys ef)).
  { apply Hkeys. unfold tasks, spec_adjusted_tasks. rewrite adjusted_tasks_keys.
    assert (H : In "Ship" (sinks base)) by (rewrite Hsinks; left; reflexivity).
    unfold sinks in H. apply filter_In in H. apply H. }
  apply get_in_keys in Hship. destruct Hship as [days Hship].
  exists es, ef, days. split; assumption.
Qed.

Lemma finishes_below_get bound (ef : dict Z) k f :
  finishes_below bound ef = true -> get k ef = Some f -> f <= bound.
Proof.
  intros Hall Hget. unfold finishes_below in Hall. rewrite forallb_forall in Hall.
  apply get_In in Hget. specialize (Hall _ Hget). apply Z.leb_le. exact Hall.
Qed.

(** On the hardest constraints of the sliders no task of a product
    finishes after day 102. *)
Lemma hardest_finishes (p : string) (base : dict task_meta) :
  build_product_tasks p = Ok base ->
  exists es ef,
    compute_cpm (spec_adjusted_tasks p 40 60 200 base) = Ok (es, ef) /\
    finishes_below 102 ef = true.
Proof.
  intros Hbase. destruct (in_dec string_dec p (keys PRODUCT_CONFIGS)) as [Hp|Hnot].
  - destruct (configured_cases p Hp) as [-> | [-> | ->]];
      vm_compute in Hbase; injection Hbase as <-;
      do 2 eexists; (split; [vm_compute; reflexivity | reflexivity]).
  - rewrite (getitem_unconfigured p Hnot) in Hbase. discriminate.
Qed.

(** On the easiest constraints of the sliders every product ships on day
    62 or later. *)
Lemma easiest_ship (p : string) (base : dict task_meta) :
  build_product_tasks p = Ok base ->
  exists es ef days,
    compute_cpm (spec_adjusted_tasks p 100 120 0 base) = Ok (es, ef) /\
    get "Ship" ef = Some days /\ (62 <=? days) = true.
Proof.
  intros Hbase. destruct (in_dec string_dec p (keys PRODUCT_CONFIGS)) as [Hp|Hnot].
  - destruct (configured_cases p Hp) as [-> | [-> | ->]];
      vm_compute in Hbase; injection Hbase as <-;
      do 3 eexists; (split; [vm_compute; reflexivity|]); (split; reflexivity).
  - rewrite (getitem_unconfigured p Hnot) in Hbase. discriminate.
Qed.

Lemma product_times_within (p : string) (base : dict task_meta) (y t b : Z) es ef :
  build_product_tasks p = Ok base ->
  valid_yield y -> valid_throughput t -> valid_bug_count b ->
  compute_cpm (spec_adjusted_tasks p y t b base) = Ok (es, ef) ->
  times_within 102 es ef (keys (spec_adjusted_tasks p y t b base)) = true /\
  forall k f, get k ef = Some f -> 0 <= f <= 102.
Proof.
  intros Hbase Hy Ht Hb Hrun. unfold valid_yield, valid_throughput, valid_bug_count in *.
  pose proof (build_product_tasks_wf p base Hbase) as Hwf.
  set (tasks := spec_adjusted_tasks p y t b base) in *.
  assert (Hwf' : wf tasks) by (apply adjusted_tasks_wf; assumption).
  assert (Hdur : forall k meta, get k tasks = Some meta -> 0 <= duration meta).
  { intros k meta. apply adjusted_tasks_nonneg. }
  pose proof (compute_cpm_nonneg tasks es ef Hdur Hrun) as Hpos.
  destruct (hardest_finishes p base Hbase) as [esW [efW [HrunW Hbelow]]].
  assert (Hlen : lengthened tasks (spec_adjusted_tasks p 40 60 200 base)).
  { apply harder_constraints_lengthen; try assumption; lia. }
  destruct (finish_monotone _ _ es ef Hwf' Hlen Hrun) as [es' [ef' [Hrun' Hle]]].
  rewrite HrunW in Hrun'. injection Hrun' as <- <-.
  assert (Hbound : forall k f, get k ef = Some f -> 0 <= f <= 102).
  { intros k f Hget. split; [apply (Hpos k); assumption|].
    destruct (Hle k f Hget) as [f' [Hf' Hff]].
    pose proof (finishes_below_get 102 efW k f' Hbelow Hf'). lia. }
  split; [|assumption].
  unfold times_within. apply forallb_forall. intros k Hk.
  apply get_in_keys in Hk. destruct Hk as [meta Hget].
  destruct (compute_cpm_equations tasks es ef Hwf' Hrun k meta Hget) as [fs [Hfs [Hes Hef]]].
  rewrite Hes, Hef.
  pose proof (start_nonneg ef _ _ Hpos Hfs) as Hstart.
  pose proof (Hdur k meta Hget) as Hd.
  destruct (Hbound k _ Hef) as [_ Hup].
  repeat (apply andb_true_iff; split); apply Z.leb_le; lia.
Qed.

(** The schedule of a configured product on the sliders' ranges: it is
    returned, with the ship offset of the exact durations, between 62 and
    102 days. *)
Lemma product_schedule (p : string) (start : date) (y t b : Z) :
  configured p -> valid_yield y -> valid_throughput t -> valid_bug_count b ->
  valid_date start -> start + 102 <= date_max ->
  exists schedule days,
    build_schedule p start y t b =
      Ok (schedule, start + days, days, spec_allocation_delays y, spec_na_delay t) /\
    spec_ship_days p y t b = Ok days /\
    62 <= days <= 102.
Proof.
  intros Hp Hy Ht Hb Hs Hend.
  destruct (apply_constraints_product p y t b Hp Hy Ht Hb) as [base [Hbase Happ]].
  destruct (product_cpm_returns p base y t b Hbase) as [es [ef [days [Hrun Hship]]]].
  destruct (product_times_within p base y t b es ef Hbase Hy Ht Hb Hrun) as [Htimes Hbound].
  destruct (Hbound "Ship" days Hship) as [Hd0 Hd1].
  destruct (build_schedule_returns p start y t b base _ _ _ es ef days 102
              Hbase Happ Hrun Hship Htimes (conj Hd0 Hd1) Hs Hend)
    as [schedule Hsched]; [unfold timedelta_max; lia|].
  exists schedule, days. split; [assumption|]. split.
  - unfold spec_ship_days. rewrite Hbase. cbn [bind]. rewrite Hrun. cbn [bind snd].
    unfold getitem. rewrite Hship. reflexivity.
  - split; [|assumption].
    destruct (easiest_ship p base Hbase) as [esE [efE [daysE [HrunE [HshipE HE]]]]].
    apply Z.leb_le in HE.
    pose proof (build_product_tasks_wf p base Hbase) as Hwf.
    assert (Hlen : lengthened (spec_adjusted_tasks p 100 120 0 base)
                     (spec_adjusted_tasks p y t b base)).
    { unfold valid_yield, valid_throughput, valid_bug_count in *.
      apply harder_constraints_lengthen; try assumption; lia. }
    destruct (finish_monotone _ _ esE efE (adjusted_tasks_wf _ _ _ _ _ Hwf) Hlen HrunE)
      as [es' [ef' [Hrun' Hle]]].
    rewrite Hrun in Hrun'. injection Hrun' as <- <-.
    destruct (Hle "Ship" daysE HshipE) as [f' [Hf' Hff]].
    rewrite Hship in Hf'. injection Hf' as <-. lia.
Qed.

Lemma spec_ship_days_monotone (p : string) (y t b y' t' b' : Z) (days days' : Z) :
  1 <= t' -> y' <= y -> t' <= t -> b <= b' ->
  spec_ship_days p y t b = Ok days -> spec_ship_days p y' t' b' = Ok days' ->
  days <= days'.
Proof.
  intros Ht' Hy Ht Hb Hd Hd'. unfold spec_ship_days in Hd, Hd'.
  apply bind_ok in Hd. destruct Hd as [base [Hbase Hd]].
  rewrite Hbase in Hd'. cbn [bind] in Hd'.
  apply bind_ok in Hd. destruct Hd as [[es ef] [Hrun Hd]].
  apply bind_ok in Hd'. destruct Hd' as [[es' ef'] [Hrun' Hd']].
  cbn [snd] in Hd, Hd'. unfold getitem in Hd, Hd'.
  destruct (get "Ship" ef) as [f|] eqn:Hf; [|discriminate]. injection Hd as ->.
  destruct (get "Ship" ef') as [f'|] eqn:Hf'; [|discriminate]. injection Hd' as ->.
  pose proof (build_product_tasks_wf p base Hbase) as Hwf.
  pose proof (harder_constraints_lengthen p base y t b y' t' b' Hbase Ht' Hy Ht Hb) as Hlen.
  destruct (finish_monotone _ _ es ef (adjusted_tasks_wf _ _ _ _ _ Hwf) Hlen Hrun)
    as [es2 [ef2 [Hrun2 Hle]]].
  rewrite Hrun' in Hrun2. injection Hrun2 as <- <-.
  destruct (Hle "Ship" days Hf) as [f2 [Hf2 Hff]].
  rewrite Hf' in Hf2. injection Hf2 as <-. exact Hff.
Qed.

(** X8 (build_schedule): for every configured product, every yield,
    throughput and bug count on the sliders' ranges and every start date at
    least 102 days before the last date, the schedule is returned and the
    ship offset is between 62 and 102 days. *)
Theorem build_schedule_total (p : string) (start : date) (y t b : Z) :
  configured p -> valid_yield y -> valid_throughput t -> valid_bug_count b ->
  valid_date start -> start + 102 <= date_max ->
  exists schedule ship_days ad nd,
    build_schedule p start y t b = Ok (schedule, start + ship_days, ship_days, ad, nd) /\
    62 <= ship_days <= 102.
Proof.
  intros Hp Hy Ht Hb Hs Hend.
  destruct (product_schedule p start y t b Hp Hy Ht Hb Hs Hend) as [schedule [days [Hrun [_ Hd]]]].
  exists schedule, days, (spec_allocation_delays y), (spec_na_delay t). split; assumption.
Qed.

Lemma build_schedule_total_witness :
  exists schedule ship_days ad nd,
    build_schedule "Vision Pro" 739252 40 60 200 =
      Ok (schedule, 739252 + ship_days, ship_days, ad, nd) /\
    62 <= ship_days <= 102.
Proof.
  apply (build_schedule_total "Vision Pro" 739252 40 60 200).
  - right. right. left. reflexivity.
  - unfold valid_yield. lia.
  - unfold valid_throughput. lia.
  - unfold valid_bug_count. lia.
  - unfold valid_date, date_max. lia.
  - unfold date_max. lia.
Defined.

(** X9 (build_schedule): on the sliders' ranges a lower yield, a lower
    throughput and more open bugs never give an earlier ship date: the ship
    offset of a product under constraints that are no easier is at least
    as large. *)
Theorem build_schedule_monotone (p : string) (start : date) (y t b y' t' b' : Z) :
  configured p ->
  valid_yield y -> valid_throughput t -> valid_bug_count b ->
  valid_yield y' -> valid_throughput t' -> valid_bug_count b' ->
  y' <= y -> t' <= t -> b <= b' ->
  valid_date start -> start + 102 <= date_max ->
  exists schedule ship_days ad nd schedule' ship_days' ad' nd',
    build_schedule p start y t b = Ok (schedule, start + ship_days, ship_days, ad, nd) /\
    build_schedule p start y' t' b' =
      Ok (schedule', start + ship_days', ship_days', ad', nd') /\
    ship_days <= ship_days'.
Proof.
  intros Hp Hy Ht Hb Hy' Ht' Hb' Hyy Htt Hbb Hs Hend.
  destruct (product_schedule p start y t b Hp Hy Ht Hb Hs Hend)
    as [schedule [days [Hrun [Hdays _]]]].
  destruct (product_schedule p start y' t' b' Hp Hy' Ht' Hb' Hs Hend)
    as [schedule' [days' [Hrun' [Hdays' _]]]].
  exists schedule, days, (spec_allocation_delays y), (spec_na_delay t),
    schedule', days', (spec_allocation_delays y'), (spec_na_delay t').
  split; [assumption|]. split; [assumption|].
  apply (spec_ship_days_monotone p y t b y' t' b'); try assumption.
  unfold valid_throughput in Ht'. lia.
Qed.

Lemma build_schedule_monotone_witness :
  exists schedule ship_days ad nd schedule' ship_days' ad' nd',
    build_schedule "iPad Pro" 739252 85 100 25 =
      Ok (schedule, 739252 + ship_days, ship_days, ad, nd) /\
    build_schedule "iPad Pro" 739252 60 80 90 =
      Ok (schedule', 739252 + ship_days', ship_days', ad', nd') /\
    ship_days <= ship_days'.
Proof.
  apply (build_schedule_monotone "iPad Pro" 739252 85 100 25 60 80 90);
    try (unfold valid_yield; lia); try (unfold valid_throughput; lia);
    try (unfold valid_bug_count; lia); try (unfold valid_date, date_max; lia);
    try (unfold date_max; lia).
  right. left. reflexivity.
Defined.

(** ** The durations [apply_constraints] returns *)

(** X10 (apply_constraints): whenever the applicator returns, no duration of
    the returned mapping is negative, and a task that is neither a factory
    nor a software task and is not named "Neural Accelerator" or "M5 Chip"
    keeps its duration, or gets 0 if its duration was negative. *)
Theorem apply_constraints_durations (tasks : dict task_meta) (p : string) (y t b : Z)
    (updated : dict task_meta) (ad : dict Z) (nd : Z) :
  wf tasks ->
  apply_constraints tasks p y t b = Ok (updated, ad, nd) ->
  (forall name meta, get name updated = Some meta -> 0 <= duration meta) /\
  (forall name meta, get name tasks = Some meta ->
     type meta <> "factory" -> type meta <> "software" ->
     name <> "Neural Accelerator" -> name <> "M5 Chip" ->
     get name updated = Some (mk_meta (Z.max 0 (duration meta)) (deps meta) (type meta))).
Proof.
  intros Hwf Hrun.
  destruct (apply_constraints_adjusted _ _ _ _ _ _ _ _ Hwf Hrun) as [fm [bd [al ->]]].
  split.
  - intros name meta. apply adjusted_tasks_nonneg.
  - intros name meta Hget Hf Hs Hna Hm5.
    rewrite adjusted_tasks_get, Hget. unfold adjusted_duration.
    apply String.eqb_neq in Hf, Hs, Hna, Hm5. rewrite Hf, Hs, Hna, Hm5. reflexivity.
Qed.

Lemma apply_constraints_durations_witness :
  exists updated ad nd,
    apply_constraints chain_example "iPad Pro" 55 80 30 = Ok (updated, ad, nd) /\
    (forall name meta, get name updated = Some meta -> 0 <= duration meta) /\
    (forall name meta, get name chain_example = Some meta ->
       type meta <> "factory" -> type meta <> "software" ->
       name <> "Neural Accelerator" -> name <> "M5 Chip" ->
       get name updated = Some (mk_meta (Z.max 0 (duration meta)) (deps meta) (type meta))).
Proof.
  destruct (apply_constraints chain_example "iPad Pro" 55 80 30)
    as [[[updated ad] nd]|e] eqn:Hrun; [|vm_compute in Hrun; discriminate].
  exists updated, ad, nd. split; [reflexivity|].
  apply (apply_constraints_durations chain_example "iPad Pro" 55 80 30 updated ad nd);
    [apply wf_check; reflexivity | exact Hrun].
Defined.

Lemma adjust_tasks_maps fm bd nd al tasks updated :
  wf tasks ->
  adjust_tasks fm bd nd al tasks [] = Ok updated ->
  updated = adjusted_tasks (scaled fm) bd nd al tasks.
Proof.
  intros Hwf Hadj.
  pose proof (adjust_tasks_scaled _ _ _ _ _ _ _ Hadj) as Hscale.
  rewrite (adjust_tasks_map fm (scaled fm) bd nd al tasks Hscale Hwf) in Hadj.
  injection Hadj as <-. reflexivity.
Qed.

(** X11 (apply_constraints): on the sliders' ranges the delays computed in
    floating point are the exact ceilings: for every mapping whose factory
    durations are below 2^1000 in magnitude and every product name, the
    applicator returns, and a task that is not a factory task gets its
    duration plus ceil(bug_count / 12) if it is a software task, plus
    2 * ceil(max(0, 90 - throughput) / 10) if it is named "Neural
    Accelerator", plus the allocation delay of the product if it is named
    "M5 Chip", no delay for a product without allocation delay, the sum
    clamped at 0. *)
Theorem apply_constraints_exact_delays (tasks : dict task_meta) (p : string) (y t b : Z) :
  wf tasks ->
  valid_yield y -> valid_throughput t -> valid_bug_count b ->
  (forall name meta, In (name, meta) tasks -> type meta = "factory" ->
     Z.abs (duration meta) < 2 ^ 1000) ->
  exists updated,
    apply_constraints tasks p y t b =
      Ok (updated, spec_allocation_delays y, spec_na_delay t) /\
    forall name meta, get name tasks = Some meta -> type meta <> "factory" ->
      get name updated =
        Some (mk_meta (Z.max 0 (duration meta + added_days p y t b name meta))
                (deps meta) (type meta)).
Proof.
  intros Hwf Hy Ht Hb Hdur.
  destruct (apply_constraints_returns tasks p y t b Hy Ht Hb Hdur) as [updated [ad [nd Hrun]]].
  pose proof Hrun as Hrun0. unfold apply_constraints in Hrun.
  rewrite (compute_allocation_delays_exact y Hy) in Hrun. cbn [bind] in Hrun.
  apply bind_ok in Hrun. destruct Hrun as [fm [_ Hrun]].
  rewrite (compute_bug_delay_exact b Hb) in Hrun. cbn [bind] in Hrun.
  rewrite (compute_na_delay_exact t Ht) in Hrun. cbn [bind] in Hrun.
  apply bind_ok in Hrun. destruct Hrun as [upd [Hadj Hrun]].
  injection Hrun as <- <- <-.
  apply (adjust_tasks_maps _ _ _ _ _ _ Hwf) in Hadj. subst upd.
  eexists. split; [exact Hrun0|].
  intros name meta Hget Hf. rewrite adjusted_tasks_get, Hget.
  unfold adjusted_duration, added_days. apply String.eqb_neq in Hf. rewrite Hf.
  assert (Hal : get_default p 0 (spec_allocation_delays y) = spec_allocation_delay p y).
  { unfold get_default, spec_allocation_delays. cbn [get].
    unfold spec_allocation_delay at 4.
    destruct (p =? "MacBook Pro")%string eqn:H1.
    - apply String.eqb_eq in H1. subst p. reflexivity.
    - destruct (p =? "iPad Pro")%string eqn:H2.
      + apply String.eqb_eq in H2. subst p. reflexivity.
      + destruct (p =? "Vision Pro")%string eqn:H3.
        * apply String.eqb_eq in H3. subst p. reflexivity.
        * destruct (70 <=? y); reflexivity. }
  rewrite Hal.
  destruct (type meta =? "software")%string, (name =? "Neural Accelerator")%string,
    (name =? "M5 Chip")%string; do 2 f_equal; lia.
Qed.

Lemma apply_constraints_exact_delays_witness :
  exists updated,
    apply_constraints factory_example "Apple Watch" 55 80 30 =
      Ok (updated, spec_allocation_delays 55, spec_na_delay 80) /\
    forall name meta, get name factory_example = Some meta -> type meta <> "factory" ->
      get name updated =
        Some (mk_meta (Z.max 0 (duration meta + added_days "Apple Watch" 55 80 30 name meta))
                (deps meta) (type meta)).
Proof.
  apply (apply_constraints_exact_delays factory_example "Apple Watch" 55 80 30).
  - apply wf_check. reflexivity.
  - unfold valid_yield. lia.
  - unfold valid_throughput. lia.
  - unfold valid_bug_count. lia.
  - intros name meta Hin Hf. simpl in Hin.
    destruct Hin as [Heq|[Heq|[]]]; injection Heq as <- <-; reflexivity.
Defined.

(** ** The scaling of factory durations *)

Lemma scaling_close_all (t : Z) : valid_throughput t -> scaling_close t = true.
Proof.
  intros Ht. apply (forall_Zrange scaling_close 60 120); [vm_compute; reflexivity | exact Ht].
Qed.

(** X12 (apply_constraints): for a throughput on the slider's range and a
    factory duration from 0 to 300, the duration scaled in floating point,
    ceil(duration * (100 / throughput)), is never below the exact ceiling
    of duration * 100 / throughput and at most one day above it; it is the
    exact ceiling whenever the throughput does not divide 100 * duration.
    The extra day occurs: 22 days at throughput 88 become 26 days, not
    25. *)
Theorem factory_scaling_rounding :
  (forall t d, valid_throughput t -> 0 <= d <= 300 ->
     exists fm z,
       truediv 100 (Z.max 1 t) = Ok fm /\ scale_duration d fm = Ok z /\
       spec_factory_duration t d <= z <= spec_factory_duration t d + 1 /\
       ((d * 100) mod t <> 0 -> z = spec_factory_duration t d)) /\
  (exists fm,
     truediv 100 (Z.max 1 88) = Ok fm /\ scale_duration 22 fm = Ok 26 /\
     spec_factory_duration 88 22 = 25).
Proof.
  split.
  - intros t d Ht Hd. pose proof (scaling_close_all t Ht) as H. unfold scaling_close in H.
    destruct (truediv 100 (Z.max 1 t)) as [fm|e] eqn:Hfm; [|discriminate].
    rewrite forallb_forall in H.
    specialize (H d (Zrange_in 0 300 d Hd)). cbv beta in H.
    destruct (scale_duration d fm) as [z|e] eqn:Hz; [|discriminate].
    exists fm, z. split; [reflexivity|]. split; [assumption|].
    apply orb_true_iff in H. destruct H as [H|H].
    + apply Z.eqb_eq in H. split; [lia | intros _; assumption].
    + apply andb_true_iff in H. destruct H as [H1 H2].
      apply Z.eqb_eq in H1, H2. split; [lia | intros Hne; contradiction].
  - eexists. split; [vm_compute; reflexivity|]. split; vm_compute; reflexivity.
Qed.

Lemma factory_scaling_rounding_witness :
  exists fm z,
    truediv 100 (Z.max 1 96) = Ok fm /\ scale_duration 120 fm = Ok z /\
    spec_factory_duration 96 120 <= z <= spec_factory_duration 96 120 + 1 /\
    ((120 * 100) mod 96 <> 0 -> z = spec_factory_duration 96 120).
Proof.
  apply (proj1 factory_scaling_rounding 96 120).
  - unfold valid_throughput. lia.
  - lia.
Defined.

(** ** The exceptions of [apply_constraints] *)

Lemma binary_round_aux_not_nan sx mx ex lx :
  0 <= mx -> binary_round_aux prec emax sx mx ex lx <> S754_nan.
Proof.
  intros Hm. unfold binary_round_aux.
  destruct (shr_fexp_bound mx ex lx Hm) as [H1 _].
  destruct (shr_fexp prec emax mx ex lx) as [mrs1 e1]. cbn [fst snd] in H1.
  destruct (round_nearest_even_bound (shr_m mrs1) (loc_of_shr_record mrs1) H1) as [H2 _].
  destruct (shr_fexp_bound (round_nearest_even (shr_m mrs1) (loc_of_shr_record mrs1))
              e1 loc_Exact H2) as [H3 _].
  destruct (shr_fexp prec emax (round_nearest_even (shr_m mrs1) (loc_of_shr_record mrs1))
              e1 loc_Exact) as [mrs3 e3]. cbn [fst snd] in H3.
  destruct (shr_m mrs3) as [|m|m]; [discriminate | | lia].
  destruct (e3 <=? emax - prec); discriminate.
Qed.

Lemma binary_normalize_not_nan z e sz :
  binary_normalize prec emax z e sz <> S754_nan.
Proof.
  assert (Hround : forall sx m, binary_round prec emax sx m e <> S754_nan).
  { intros sx m. unfold binary_round.
    destruct (shl_align m e (fexp prec emax (Zpos (digits2_pos m) + e))) as [mz ez].
    apply binary_round_aux_not_nan. lia. }
  destruct z as [|m|m]; cbn [binary_normalize]; [discriminate | |]; apply Hround.
Qed.

Lemma finite_or_overflow_real x :
  x <> S754_nan ->
  (exists r, finite_or_overflow x = Ok r /\ real r) \/
  finite_or_overflow x = Raise OverflowError.
Proof.
  intros Hx. destruct x as [s|s| |s m e]; simpl; [left | right | contradiction | left];
    try reflexivity; eexists; split; try reflexivity; exact I.
Qed.

Lemma of_int_real z :
  (exists x, of_int z = Ok x /\ real x) \/ of_int z = Raise OverflowError.
Proof. apply finite_or_overflow_real, binary_normalize_not_nan. Qed.

Lemma SFdiv_not_nan sx mx ex sy my ey :
  SFdiv prec emax (S754_finite sx mx ex) (S754_finite sy my ey) <> S754_nan.
Proof.
  cbn [SFdiv]. unfold SFdiv_core_binary.
  set (s := ex - ey - _).
  set (m' := match s with Z.pos _ => Z.shiftl (Z.pos mx) s | 0 => Z.pos mx | Z.neg _ => 0 end).
  assert (Hm' : 0 <= m').
  { unfold m'. destruct s; [lia | apply Z.shiftl_nonneg; lia | lia]. }
  destruct (Z.div_eucl m' (Z.pos my)) as [q r] eqn:Hdiv.
  assert (Hq : q = m' / Z.pos my) by (unfold Z.div; rewrite Hdiv; reflexivity).
  apply binary_round_aux_not_nan. rewrite Hq. apply Z.div_pos; lia.
Qed.

Lemma truediv_real a b :
  b <> 0 ->
  (exists x, truediv a b = Ok x /\ real x) \/ truediv a b = Raise OverflowError.
Proof.
  intros Hb. unfold truediv.
  destruct (Z.eqb_spec b 0) as [|_]; [contradiction|].
  destruct (Z.eqb_spec a 0) as [|Ha].
  - left. eexists. split; [reflexivity | exact I].
  - apply finite_or_overflow_real.
    destruct a as [|pa|pa], b as [|pb|pb]; try contradiction; try (exfalso; apply Ha; reflexivity);
      apply SFdiv_not_nan.
Qed.

Lemma fmul_not_nan x y : real x -> real y -> fmul x y <> S754_nan.
Proof.
  intros Hx Hy. unfold fmul.
  destruct x as [sx|sx| |sx mx ex], y as [sy|sy| |sy my ey]; cbn [SFmul real] in *;
    try contradiction; try discriminate.
  apply binary_round_aux_not_nan. lia.
Qed.

Lemma ceil_only_overflow x : x <> S754_nan -> only_overflow (ceil x).
Proof.
  intros Hx e. destruct x as [s|s| |s m ex]; simpl; try discriminate.
  - intros [= <-]. reflexivity.
  - contradiction.
Qed.

Lemma only_overflow_bind {A B : Type} (c : result A) (k : A -> result B) :
  only_overflow c -> (forall a, c = Ok a -> only_overflow (k a)) ->
  only_overflow (bind c k).
Proof.
  intros Hc Hk e. destruct c as [a|e']; cbn [bind].
  - apply (Hk a eq_refl).
  - intros [= <-]. apply Hc. reflexivity.
Qed.

Lemma only_overflow_ok {A : Type} (a : A) : only_overflow (Ok a).
Proof. intros e H. discriminate. Qed.

Lemma int_mul_float_cases n x :
  real x ->
  (exists p, int_mul_float n x = Ok p /\ p <> S754_nan) \/
  int_mul_float n x = Raise OverflowError.
Proof.
  intros Hx. unfold int_mul_float.
  destruct (of_int_real n) as [[fn [Hfn Hr]]|Hfn]; rewrite Hfn; cbn [bind]; [left | right; reflexivity].
  eexists. split; [reflexivity | apply fmul_not_nan; assumption].
Qed.

Lemma float_mul_int_cases x n :
  real x ->
  (exists p, float_mul_int x n = Ok p /\ p <> S754_nan) \/
  float_mul_int x n = Raise OverflowError.
Proof.
  intros Hx. unfold float_mul_int.
  destruct (of_int_real n) as [[fn [Hfn Hr]]|Hfn]; rewrite Hfn; cbn [bind]; [left | right; reflexivity].
  eexists. split; [reflexivity | apply fmul_not_nan; assumption].
Qed.

Lemma scale_duration_only_overflow d fm : real fm -> only_overflow (scale_duration d fm).
Proof.
  intros Hfm. unfold scale_duration.
  destruct (int_mul_float_cases d fm Hfm) as [[p [Hp Hn]]|Hp]; rewrite Hp; cbn [bind].
  - apply ceil_only_overflow. assumption.
  - intros e [= <-]. reflexivity.
Qed.

Lemma truediv_ceil_only_overflow a b :
  b <> 0 -> only_overflow (q <- truediv a b ;; ceil q).
Proof.
  intros Hb. destruct (truediv_real a b Hb) as [[x [Hx Hr]]|Hx]; rewrite Hx; cbn [bind].
  - apply ceil_only_overflow. destruct x; try discriminate; contradiction.
  - intros e [= <-]. reflexivity.
Qed.

Lemma compute_allocation_delays_only_overflow y :
  only_overflow (compute_allocation_delays y).
Proof.
  unfold compute_allocation_delays. destruct (70 <=? y); [apply only_overflow_ok|].
  destruct (truediv_real (70 - y) 70) as [[sf [Hsf Hr]]|Hsf]; [lia | |];
    rewrite Hsf; cbn [bind]; [|intros e [= <-]; reflexivity].
  destruct (float_mul_int_cases sf 28 Hr) as [[sc [Hsc Hn]]|Hsc]; rewrite Hsc; cbn [bind];
    [|intros e [= <-]; reflexivity].
  apply only_overflow_bind; [apply ceil_only_overflow; assumption|].
  intros bd _. apply only_overflow_ok.
Qed.

Lemma compute_na_delay_only_overflow t : only_overflow (compute_na_delay t).
Proof.
  unfold compute_na_delay.
  destruct (truediv_real (Z.max 0 (90 - t)) 10) as [[x [Hx Hr]]|Hx]; [lia | |];
    rewrite Hx; cbn [bind]; [|intros e [= <-]; reflexivity].
  apply only_overflow_bind.
  - apply ceil_only_overflow. destruct x; try discriminate; contradiction.
  - intros c _. apply only_overflow_ok.
Qed.

Lemma adjust_tasks_only_overflow fm bd nd al :
  real fm -> forall items acc, only_overflow (adjust_tasks fm bd nd al items acc).
Proof.
  intros Hfm. induction items as [|[name meta] items IH]; intros acc.
  - apply only_overflow_ok.
  - cbn [adjust_tasks]. apply only_overflow_bind; [|intros d _; apply IH].
    unfold adjust_duration. apply only_overflow_bind; [|intros d _; apply only_overflow_ok].
    destruct (type meta =? "factory")%string;
      [apply scale_duration_only_overflow; assumption | apply only_overflow_ok].
Qed.

(** X13 (apply_constraints): the applicator raises no exception but
    [OverflowError], whatever its arguments are: a throughput of 0 or less
    is no division by zero, and a product without allocation delay is no
    missing key. *)
Theorem apply_constraints_raises (tasks : dict task_meta) (p : string) (y t b : Z)
    (e : exn) :
  apply_constraints tasks p y t b = Raise e -> e = OverflowError.
Proof.
  revert e. change (only_overflow (apply_constraints tasks p y t b)).
  unfold apply_constraints.
  apply only_overflow_bind; [apply compute_allocation_delays_only_overflow|]. intros ad _.
  destruct (truediv_real 100 (Z.max 1 t)) as [[fm [Hfm Hr]]|Hfm]; [lia | |];
    rewrite Hfm; cbn [bind]; [|intros e [= <-]; reflexivity].
  apply only_overflow_bind; [apply truediv_ceil_only_overflow; lia|]. intros bd _.
  apply only_overflow_bind; [apply compute_na_delay_only_overflow|]. intros nd _.
  apply only_overflow_bind; [apply adjust_tasks_only_overflow; assumption|].
  intros updated _. apply only_overflow_ok.
Qed.

Lemma apply_constraints_raises_witness :
  exists e,
    apply_constraints huge_factory_example "Apple Watch" 85 0 25 = Raise e /\
    e = OverflowError.
Proof.
  destruct (apply_constraints huge_factory_example "Apple Watch" 85 0 25) as [r|e] eqn:Hrun;
    [vm_compute in Hrun; discriminate|].
  exists e. split; [reflexivity|].
  apply (apply_constraints_raises huge_factory_example "Apple Watch" 85 0 25 e Hrun).
Defined.

(** ** The simulation pass *)

Lemma baseline_valid :
  valid_yield baseline_yield /\ valid_throughput baseline_throughput /\
  valid_bug_count baseline_bug_count.
Proof.
  unfold valid_yield, valid_throughput, valid_bug_count,
    baseline_yield, baseline_throughput, baseline_bug_count. lia.
Qed.

(** What the loop over the products leaves in [baseline] and [current]. *)
Lemma simulate_products_spec (start : date) (y t b : Z) :
  valid_yield y -> valid_throughput t -> valid_bug_count b ->
  valid_date start -> start + 102 <= date_max ->
  forall products baseline current,
  (forall p, In p products -> configured p) -> NoDup products ->
  exists baseline' current',
    simulate_products products start y t b baseline current = Ok (baseline', current') /\
    (forall p, ~ In p products ->
       get p baseline' = get p baseline /\ get p current' = get p current) /\
    (forall p, In p products ->
       exists schedule days days0,
         spec_ship_days p y t b = Ok days /\
         spec_ship_days p baseline_yield baseline_throughput baseline_bug_count = Ok days0 /\
         62 <= days <= 102 /\ 62 <= days0 <= 102 /\
         get p baseline' = Some days0 /\
         get p current' =
           Some (Current.mk schedule (start + days) days (days - days0) (spec_na_delay t))).
Proof.
  intros Hy Ht Hb Hs Hend. destruct baseline_valid as [Hy0 [Ht0 Hb0]].
  induction products as [|product rest IH]; intros baseline current Hconf Hnd.
  - exists baseline, current. split; [reflexivity|]. split; [auto | intros p []].
  - inversion Hnd as [|? ? Hnotin Hnd']; subst.
    assert (Hp : configured product) by (apply Hconf; left; reflexivity).
    destruct (product_schedule product start _ _ _ Hp Hy0 Ht0 Hb0 Hs Hend)
      as [schedule0 [days0 [Hrun0 [Hdays0 Hbound0]]]].
    destruct (product_schedule product start y t b Hp Hy Ht Hb Hs Hend)
      as [schedule [days [Hrun [Hdays Hbound]]]].
    destruct (IH (Py.set product days0 baseline)
                (Py.set product
                   (Current.mk schedule (start + days) days (days - days0) (spec_na_delay t))
                   current))
      as [baseline' [current' [Hrest [Hframe Hspec]]]];
      [intros p Hin; apply Hconf; right; assumption | assumption |].
    exists baseline', current'. split; [|split].
    + cbn [simulate_products]. rewrite Hrun0. cbn [bind]. rewrite Hrun. cbn [bind].
      exact Hrest.
    + intros p Hp'. destruct (Hframe p) as [Hb' Hc']; [intros H; apply Hp'; right; assumption|].
      assert (Hne : p <> product) by (intros ->; apply Hp'; left; reflexivity).
      rewrite Hb', Hc', !get_set_neq by assumption. auto.
    + intros p [<-|Hin]; [|apply Hspec; assumption].
      destruct (Hframe product Hnotin) as [Hb' Hc'].
      exists schedule, days, days0. rewrite Hb', Hc', !get_set_eq. auto 10.
Qed.

Lemma products_configured :
  (forall p, In p (keys PRODUCT_CONFIGS) -> configured p) /\ NoDup (keys PRODUCT_CONFIGS).
Proof.
  split; [intros p Hp; exact Hp|].
  change (wf PRODUCT_CONFIGS). apply wf_check. reflexivity.
Qed.

Lemma slider_magnitudes (y t b d : Z) :
  valid_yield y -> valid_throughput t -> valid_bug_count b -> d <= 1024 ->
  Z.abs y < 2 ^ 1000 /\ Z.abs t < 2 ^ 1000 /\ Z.abs b < 2 ^ 1000 /\ d < 2 ^ 1000.
Proof.
  unfold valid_yield, valid_throughput, valid_bug_count. intros Hy Ht Hb Hd.
  assert (H10 : 2 ^ 11 <= 2 ^ 1000) by (apply Z.pow_le_mono_r; lia).
  change (2 ^ 11) with 2048 in H10. lia.
Qed.

Lemma risk_rows_spec (y t b : Z) (current : dict Current.entry) :
  valid_yield y -> valid_throughput t -> valid_bug_count b ->
  forall products,
  (forall p, In p products ->
     exists entry, get p current = Some entry /\ Current.delay_days entry <= 1024) ->
  exists rows,
    risk_rows products y t b current = Ok rows /\
    map risk_product rows = products /\
    forall row, In row rows ->
      0 <= risk_score row <= 100 /\
      (risk_level row, risk_color row) = confidence_band (risk_score row).
Proof.
  intros Hy Ht Hb. induction products as [|product rest IH]; intros Hcur.
  - exists []. split; [reflexivity|]. split; [reflexivity | intros row []].
  - destruct (Hcur product (or_introl eq_refl)) as [entry [Hget Hd]].
    destruct (slider_magnitudes y t b _ Hy Ht Hb Hd) as [My [Mt [Mb Md]]].
    destruct (confidence_score_returns y t b _ My Mt Mb Md) as [r Hr].
    destruct IH as [rows [Hrows [Hnames Hall]]];
      [intros p Hin; apply Hcur; right; assumption|].
    set (score := Z.max 0 (Z.min 100 r)) in *.
    exists (mk_risk product "Launch Confidence" score
              (fst (confidence_band score)) (snd (confidence_band score)) :: rows).
    split; [|split].
    + cbn [risk_rows]. unfold getitem. rewrite Hget. cbn [bind]. rewrite Hr. cbn [bind].
      destruct (confidence_band score) as [band color]. rewrite Hrows. reflexivity.
    + simpl. rewrite Hnames. reflexivity.
    + intros row [<-|Hin]; [|apply Hall; assumption].
      cbn [risk_score risk_level risk_color]. split; [unfold score; lia|].
      destruct (confidence_band score); reflexivity.
Qed.

Lemma simulation_logs_returns (y t b : Z) (current : dict Current.entry) entry :
  valid_yield y -> get "Vision Pro" current = Some entry ->
  exists logs,
    simulation_logs y t b (spec_allocation_delays y) current = Ok logs /\ logs <> [].
Proof.
  intros Hy Hget. unfold simulation_logs, spec_allocation_delays, getitem. cbn [get].
  rewrite Hget.
  destruct (y <? 70); cbn [String.eqb Ascii.eqb Bool.eqb bind];
    destruct (t <? 85); cbn [bind].
  all: repeat match goal with
         | |- context [if ?c then _ else _] => destruct c
         end.
  all: eexists; (split; [reflexivity|]); try discriminate.
  all: cbn [app]; discriminate.
Qed.

(** X14 (script): for sliders on their ranges and a start date at least 102
    days before the last date, the whole pass returns: every product has
    its baseline offset and its current entry, whose ship date is the start
    date plus the ship offset and whose delay is the ship offset minus the
    baseline offset, between -40 and 40 days; the log is not empty; and
    there is one score per product, in product order, each between 0 and
    100 with the level and the colour of its band. *)
Theorem simulation_total (start : date) (y t b : Z) :
  valid_yield y -> valid_throughput t -> valid_bug_count b ->
  valid_date start -> start + 102 <= date_max ->
  exists baseline current logs rows,
    simulation start y t b = Ok (baseline, current, logs, rows) /\
    (forall p, configured p ->
       exists days0 entry,
         get p baseline = Some days0 /\ get p current = Some entry /\
         Current.ship_date entry = start + Current.ship_days entry /\
         Current.delay_days entry = Current.ship_days entry - days0 /\
         -40 <= Current.delay_days entry <= 40) /\
    logs <> [] /\
    map risk_product rows = keys PRODUCT_CONFIGS /\
    forall row, In row rows ->
      0 <= risk_score row <= 100 /\
      (risk_level row, risk_color row) = confidence_band (risk_score row).
Proof.
  intros Hy Ht Hb Hs Hend. destruct products_configured as [Hconf Hnd].
  destruct (simulate_products_spec start y t b Hy Ht Hb Hs Hend (keys PRODUCT_CONFIGS) [] []
              Hconf Hnd) as [baseline [current [Hpass [_ Hspec]]]].
  assert (Hentries : forall p, configured p ->
            exists days0 entry,
              get p baseline = Some days0 /\ get p current = Some entry /\
              Current.ship_date entry = start + Current.ship_days entry /\
              Current.delay_days entry = Current.ship_days entry - days0 /\
              -40 <= Current.delay_days entry <= 40).
  { intros p Hp. destruct (Hspec p Hp) as [schedule [days [days0 [_ [_ [Hd [Hd0 [Hbl Hcur]]]]]]]].
    exists days0. eexists. split; [exact Hbl|]. split; [exact Hcur|].
    cbn [Current.ship_date Current.ship_days Current.delay_days]. lia. }
  destruct (Hentries "Vision Pro") as [_ [vision [_ [Hvision _]]]];
    [right; right; left; reflexivity|].
  destruct (simulation_logs_returns y t b current vision Hy Hvision) as [logs [Hlogs Hne]].
  destruct (risk_rows_spec y t b current Hy Ht Hb (keys PRODUCT_CONFIGS))
    as [rows [Hrows [Hnames Hall]]].
  { intros p Hp. destruct (Hentries p Hp) as [_ [entry [_ [Hget [_ [_ Hd]]]]]].
    exists entry. split; [assumption | lia]. }
  exists baseline, current, logs, rows. split; [|auto].
  unfold simulation. rewrite (compute_allocation_delays_exact y Hy). cbn [bind].
  rewrite Hpass. cbn [bind]. rewrite Hlogs. cbn [bind]. rewrite Hrows. reflexivity.
Qed.

Lemma simulation_total_witness :
  exists baseline current logs rows,
    simulation 739252 55 80 120 = Ok (baseline, current, logs, rows) /\
    (forall p, configured p ->
       exists days0 entry,
         get p baseline = Some days0 /\ get p current = Some entry /\
         Current.ship_date entry = 739252 + Current.ship_days entry /\
         Current.delay_days entry = Current.ship_days entry - days0 /\
         -40 <= Current.delay_days entry <= 40) /\
    logs <> [] /\
    map risk_product rows = keys PRODUCT_CONFIGS /\
    forall row, In row rows ->
      0 <= risk_score row <= 100 /\
      (risk_level row, risk_color row) = confidence_band (risk_score row).
Proof.
  apply (simulation_total 739252 55 80 120).
  - unfold valid_yield. lia.
  - unfold valid_throughput. lia.
  - unfold valid_bug_count. lia.
  - unfold valid_date, date_max. lia.
  - unfold date_max. lia.
Defined.

Lemma baseline_no_later (p : string) (y t b : Z) (days0 days : Z) :
  1 <= t -> t <= baseline_throughput -> baseline_bug_count <= b ->
  spec_ship_days p baseline_yield baseline_throughput baseline_bug_count = Ok days0 ->
  spec_ship_days p y t b = Ok days ->
  days0 <= days.
Proof.
  intros Ht1 Ht Hb Hd0 Hd. unfold spec_ship_days in Hd0, Hd.
  apply bind_ok in Hd0. destruct Hd0 as [base [Hbase Hd0]].
  rewrite Hbase in Hd. cbn [bind] in Hd.
  apply bind_ok in Hd0. destruct Hd0 as [[es0 ef0] [Hrun0 Hd0]].
  apply bind_ok in Hd. destruct Hd as [[es ef] [Hrun Hd]].
  cbn [snd] in Hd0, Hd. unfold getitem in Hd0, Hd.
  destruct (get "Ship" ef0) as [f0|] eqn:Hf0; [|discriminate]. injection Hd0 as ->.
  destruct (get "Ship" ef) as [f|] eqn:Hf; [|discriminate]. injection Hd as ->.
  pose proof (build_product_tasks_wf p base Hbase) as Hwf.
  assert (Hlen : lengthened
                   (spec_adjusted_tasks p baseline_yield baseline_throughput
                      baseline_bug_count base)
                   (spec_adjusted_tasks p y t b base)).
  { unfold spec_adjusted_tasks. apply adjusted_lengthened.
    - intros name meta Hin. apply spec_factory_duration_antitone; try assumption.
      apply (base_durations_nonneg p base Hbase name meta Hin).
    - apply spec_bug_delay_mono. assumption.
    - apply spec_na_delay_antitone. assumption.
    - pose proof (spec_allocation_delay_nonneg p y) as Hpos.
      unfold spec_allocation_delay at 1. unfold baseline_yield. cbn [Z.leb Z.compare Pos.compare Pos.compare_cont].
      exact Hpos. }
  destruct (finish_monotone _ _ es0 ef0 (adjusted_tasks_wf _ _ _ _ _ Hwf) Hlen Hrun0)
    as [es2 [ef2 [Hrun2 Hle]]].
  rewrite Hrun in Hrun2. injection Hrun2 as <- <-.
  destruct (Hle "Ship" days0 Hf0) as [f2 [Hf2 Hff]].
  rewrite Hf in Hf2. injection Hf2 as <-. exact Hff.
Qed.

(** The entries of [current] after the pass. *)
Lemma simulation_current (start : date) (y t b : Z) baseline current logs rows :
  valid_yield y -> valid_throughput t -> valid_bug_count b ->
  valid_date start -> start + 102 <= date_max ->
  simulation start y t b = Ok (baseline, current, logs, rows) ->
  simulation_logs y t b (spec_allocation_delays y) current = Ok logs /\
  (forall p entry, get p current = Some entry ->
     exists schedule days days0,
       spec_ship_days p y t b = Ok days /\
       spec_ship_days p baseline_yield baseline_throughput baseline_bug_count = Ok days0 /\
       entry = Current.mk schedule (start + days) days (days - days0) (spec_na_delay t)) /\
  (forall p, configured p -> exists entry, get p current = Some entry).
Proof.
  intros Hy Ht Hb Hs Hend Hrun. destruct products_configured as [Hconf Hnd].
  destruct (simulate_products_spec start y t b Hy Ht Hb Hs Hend (keys PRODUCT_CONFIGS) [] []
              Hconf Hnd) as [baseline' [current' [Hpass [Hframe Hspec]]]].
  unfold simulation in Hrun.
  rewrite (compute_allocation_delays_exact y Hy) in Hrun. cbn [bind] in Hrun.
  rewrite Hpass in Hrun. cbn [bind] in Hrun.
  apply bind_ok in Hrun. destruct Hrun as [logs' [Hlogs Hrun]].
  apply bind_ok in Hrun. destruct Hrun as [rows' [_ Hrun]].
  injection Hrun as <- <- <- <-. split; [assumption|]. split.
  - intros p entry Hget.
    destruct (in_dec string_dec p (keys PRODUCT_CONFIGS)) as [Hin|Hnot].
    + destruct (Hspec p Hin) as [schedule [days [days0 [Hd [Hd0 [_ [_ [_ Hcur]]]]]]]].
      exists schedule, days, days0. split; [assumption|]. split; [assumption|]. congruence.
    + destruct (Hframe p Hnot) as [_ Hc]. rewrite Hc in Hget. discriminate.
  - intros p Hp.
    destruct (Hspec p Hp) as [schedule [days [days0 [_ [_ [_ [_ [_ Hcur]]]]]]]]. eauto.
Qed.

(** X15 (script): on the sliders' ranges, when the throughput is at most
    the baseline's 100 and the bug count at least the baseline's 25, no
    product has a negative delay against the baseline, whatever the yield
    is. *)
Theorem simulation_delays_nonneg (start : date) (y t b : Z)
    (baseline : dict Z) (current : dict Current.entry)
    (logs : list string) (rows : list risk_row) :
  valid_yield y -> valid_throughput t -> valid_bug_count b ->
  valid_date start -> start + 102 <= date_max ->
  t <= 100 -> 25 <= b ->
  simulation start y t b = Ok (baseline, current, logs, rows) ->
  forall p entry, get p current = Some entry -> 0 <= Current.delay_days entry.
Proof.
  intros Hy Ht Hb Hs Hend Ht100 Hb25 Hrun p entry Hget.
  destruct (simulation_current start y t b _ _ _ _ Hy Ht Hb Hs Hend Hrun) as [_ [Hcur _]].
  destruct (Hcur p entry Hget) as [schedule [days [days0 [Hd [Hd0 ->]]]]].
  cbn [Current.delay_days].
  pose proof (baseline_no_later p y t b days0 days) as H.
  unfold valid_throughput in Ht. unfold baseline_throughput, baseline_bug_count in H.
  specialize (H ltac:(lia) Ht100 Hb25 Hd0 Hd). lia.
Qed.

Lemma simulation_delays_nonneg_witness :
  exists baseline current logs rows,
    simulation 739252 95 80 120 = Ok (baseline, current, logs, rows) /\
    forall p entry, get p current = Some entry -> 0 <= Current.delay_days entry.
Proof.
  destruct (simulation 739252 95 80 120) as [[[[baseline current] logs] rows]|e] eqn:Hrun;
    [|vm_compute in Hrun; discriminate].
  exists baseline, current, logs, rows. split; [reflexivity|].
  apply (simulation_delays_nonneg 739252 95 80 120 baseline current logs rows);
    try (unfold valid_yield; lia); try (unfold valid_throughput; lia);
    try (unfold valid_bug_count; lia); try (unfold valid_date, date_max; lia);
    try (unfold date_max; lia); try lia.
  exact Hrun.
Defined.

(** ** The log *)

Ltac log_strings :=
  unfold log_ipad, log_vision, log_allocation, log_neural, log_throughput, log_bugs,
    log_on_track;
  cbn [String.append].

(** X16 (script): the log is never empty and has at most six lines; it is
    the single line "On track: ..." exactly when the yield is at least 70,
    the throughput at least 85 and the bug count at most 90; otherwise it
    has the allocation action for a yield below 70, the throughput risk
    for a throughput below 85 and the stability risk for more than 90
    bugs. *)
Theorem simulation_logs_shape (y t b : Z) (allocation_snapshot : dict Z)
    (current : dict Current.entry) (logs : list string) :
  simulation_logs y t b allocation_snapshot current = Ok logs ->
  logs <> [] /\ (List.length logs <= 6)%nat /\
  (logs = [log_on_track] <-> 70 <= y /\ 85 <= t /\ b <= 90) /\
  (y < 70 -> In log_allocation logs) /\
  (t < 85 -> In log_throughput logs) /\
  (90 < b -> In (log_bugs b) logs).
Proof.
  intros H.
  unfold simulation_logs, getitem in H.
  destruct (y <? 70) eqn:Ey, (t <? 85) eqn:Et, (90 <? b) eqn:Eb;
    (apply Z.ltb_lt in Ey || apply Z.ltb_ge in Ey);
    (apply Z.ltb_lt in Et || apply Z.ltb_ge in Et);
    (apply Z.ltb_lt in Eb || apply Z.ltb_ge in Eb);
    cbn [bind] in H;
    repeat match type of H with
           | context [get ?k ?d] =>
               destruct (get k d); cbn [bind] in H; try discriminate H
           | context [0 <? ?z] =>
               destruct (0 <? z); cbn [bind] in H; try discriminate H
           end;
    cbn [app] in H; injection H as <-;
    (split; [discriminate|]);
    (split; [cbn [List.length]; lia|]);
    (split; [split; [intros Heq;
                     first [ split; [|split]; lia
                           | exfalso; revert Heq; log_strings; discriminate ]
                    | intros [? [? ?]]; first [lia | reflexivity]]|]);
    (split; [intros ?; try lia; cbn [In]; auto 8|]);
    (split; [intros ?; try lia; cbn [In]; auto 8|]);
    intros ?; try lia; cbn [In]; auto 8.
Qed.

Lemma simulation_logs_shape_witness :
  exists logs,
    simulation_logs 55 80 120 (spec_allocation_delays 55)
      [("Vision Pro", Current.mk [] 739252 0 4 2)] = Ok logs /\
    logs <> [] /\ (List.length logs <= 6)%nat /\
    (logs = [log_on_track] <-> 70 <= 55 /\ 85 <= 80 /\ 120 <= 90) /\
    (55 < 70 -> In log_allocation logs) /\
    (80 < 85 -> In log_throughput logs) /\
    (90 < 120 -> In (log_bugs 120) logs).
Proof.
  destruct (simulation_logs 55 80 120 (spec_allocation_delays 55)
              [("Vision Pro", Current.mk [] 739252 0 4 2)]) as [logs|e] eqn:Hrun;
    [|vm_compute in Hrun; discriminate].
  exists logs. split; [reflexivity|].
  apply (simulation_logs_shape 55 80 120 (spec_allocation_delays 55)
           [("Vision Pro", Current.mk [] 739252 0 4 2)] logs Hrun).
Defined.

Lemma ceil_div_pos (n d : Z) : 0 < d -> 0 < n -> 1 <= ceil_div n d.
Proof.
  intros Hd Hn. unfold ceil_div.
  assert (H : - n / d < 0) by (apply Z.div_lt_upper_bound; lia). lia.
Qed.

Lemma logs_yield_warnings (y t b : Z) (allocation_snapshot : dict Z)
    (current : dict Current.entry) (logs : list string) (ipad vision : Z) :
  y < 70 ->
  get "iPad Pro" allocation_snapshot = Some ipad ->
  get "Vision Pro" allocation_snapshot = Some vision ->
  0 < ipad -> 0 < vision ->
  simulation_logs y t b allocation_snapshot current = Ok logs ->
  In (log_ipad ipad) logs /\ In (log_vision vision) logs.
Proof.
  intros Hy Hipad Hvision Hi Hv H. unfold simulation_logs, getitem in H.
  assert (Ey : (y <? 70) = true) by (apply Z.ltb_lt; assumption).
  assert (Ei : (0 <? ipad) = true) by (apply Z.ltb_lt; assumption).
  assert (Ev : (0 <? vision) = true) by (apply Z.ltb_lt; assumption).
  rewrite Ey, Hipad, Hvision in H. cbn [bind] in H. rewrite Ei, Ev in H.
  destruct (t <? 85); cbn [bind] in H;
    repeat match type of H with
           | context [get ?k ?d] =>
               destruct (get k d); cbn [bind] in H; try discriminate H
           | context [0 <? ?z] =>
               destruct (0 <? z); cbn [bind] in H; try discriminate H
           end;
    destruct (90 <? b); cbn [app] in H; injection H as <-; split; cbn [In]; auto 8.
Qed.

Lemma logs_neural_warning (y t b : Z) (allocation_snapshot : dict Z)
    (current : dict Current.entry) (logs : list string) (vision : Current.entry) :
  t < 85 ->
  get "Vision Pro" current = Some vision ->
  0 < Current.na_delay vision ->
  simulation_logs y t b allocation_snapshot current = Ok logs ->
  In (log_neural (Current.na_delay vision) (Current.delay_days vision)) logs.
Proof.
  intros Ht Hvision Hna H. unfold simulation_logs, getitem in H.
  assert (Et : (t <? 85) = true) by (apply Z.ltb_lt; assumption).
  assert (En : (0 <? Current.na_delay vision) = true) by (apply Z.ltb_lt; assumption).
  rewrite Et, Hvision in H.
  destruct (y <? 70); cbn [bind] in H;
    repeat match type of H with
           | context [get ?k ?d] =>
               destruct (get k d); cbn [bind] in H; try discriminate H
           | context [0 <? Current.na_delay vision] => rewrite En in H
           | context [0 <? ?z] =>
               destruct (0 <? z); cbn [bind] in H; try discriminate H
           end;
    destruct (90 <? b); cbn [app] in H; injection H as <-; cbn [In]; auto 8.
Qed.

(** X17 (script): on the sliders' ranges the tests [> 0] before the
    warnings always succeed: a yield below 70 always logs the iPad Pro
    warning with ceil((70 - yield) * 28 / 70) days, at least 1, and the
    Vision Pro warning with 7 days more, and a throughput below 85 always
    logs the Neural Accelerator warning with the delay
    2 * ceil((90 - throughput) / 10), at least 2.  The line "On track"
    does not mean that no product is late: at yield 85, throughput 100 and
    45 bugs it is the whole log, and Vision Pro is one day late. *)
Theorem simulation_warnings :
  (forall (start : date) (y t b : Z) baseline current logs rows,
     valid_yield y -> valid_throughput t -> valid_bug_count b ->
     valid_date start -> start + 102 <= date_max ->
     simulation start y t b = Ok (baseline, current, logs, rows) ->
     (y < 70 ->
        1 <= spec_base_delay y /\
        In (log_ipad (spec_base_delay y)) logs /\
        In (log_vision (spec_base_delay y + 7)) logs) /\
     (t < 85 ->
        exists vision,
          get "Vision Pro" current = Some vision /\
          Current.na_delay vision = spec_na_delay t /\
          2 <= spec_na_delay t /\
          In (log_neural (spec_na_delay t) (Current.delay_days vision)) logs)) /\
  (exists baseline current logs rows vision,
     simulation 739252 85 100 45 = Ok (baseline, current, logs, rows) /\
     logs = [log_on_track] /\
     get "Vision Pro" current = Some vision /\
     Current.delay_days vision = 1).
Proof.
  split.
  - intros start y t b baseline current logs rows Hy Ht Hb Hs Hend Hrun.
    destruct (simulation_current start y t b _ _ _ _ Hy Ht Hb Hs Hend Hrun)
      as [Hlogs [Hcur Hall]].
    split.
    + intros Hy70. unfold valid_yield in Hy.
      assert (Hbase : 1 <= spec_base_delay y)
        by (unfold spec_base_delay; apply ceil_div_pos; lia).
      split; [assumption|].
      apply (logs_yield_warnings y t b (spec_allocation_delays y) current logs); try lia;
        try assumption;
        unfold spec_allocation_delays, spec_allocation_delay; cbn [get];
        replace (70 <=? y) with false by (symmetry; apply Z.leb_gt; assumption);
        reflexivity.
    + intros Ht85. unfold valid_throughput in Ht.
      destruct (Hall "Vision Pro") as [vision Hvision]; [right; right; left; reflexivity|].
      destruct (Hcur "Vision Pro" vision Hvision) as [schedule [days [days0 [_ [_ Heq]]]]].
      assert (Hna : Current.na_delay vision = spec_na_delay t) by (rewrite Heq; reflexivity).
      assert (Hpos : 2 <= spec_na_delay t).
      { unfold spec_na_delay.
        pose proof (ceil_div_pos (Z.max 0 (90 - t)) 10 ltac:(lia) ltac:(lia)). lia. }
      exists vision. split; [assumption|]. split; [assumption|]. split; [assumption|].
      rewrite <- Hna.
      apply (logs_neural_warning y t b (spec_allocation_delays y) current logs vision);
        try assumption. lia.
  - do 5 eexists. split; [vm_compute; reflexivity|].
    split; [reflexivity|]. split; reflexivity.
Qed.

Lemma simulation_warnings_witness :
  exists baseline current logs rows,
    simulation 739252 55 80 120 = Ok (baseline, current, logs, rows) /\
    (55 < 70 ->
       1 <= spec_base_delay 55 /\
       In (log_ipad (spec_base_delay 55)) logs /\
       In (log_vision (spec_base_delay 55 + 7)) logs) /\
    (80 < 85 ->
       exists vision,
         get "Vision Pro" current = Some vision /\
         Current.na_delay vision = spec_na_delay 80 /\
         2 <= spec_na_delay 80 /\
         In (log_neural (spec_na_delay 80) (Current.delay_days vision)) logs).
Proof.
  destruct (simulation 739252 55 80 120) as [[[[baseline current] logs] rows]|e] eqn:Hrun;
    [|vm_compute in Hrun; discriminate].
  exists baseline, current, logs, rows. split; [reflexivity|].
  apply (proj1 simulation_warnings 739252 55 80 120 baseline current logs rows);
    try (unfold valid_yield; lia); try (unfold valid_throughput; lia);
    try (unfold valid_bug_count; lia); try (unfold valid_date, date_max; lia);
    try (unfold date_max; lia).
  exact Hrun.
Defined.

(** ** The insertion order of the task mapping *)

Lemma wf_perm {V : Type} (d d' : dict V) : wf d -> Permutation d d' -> wf d'.
Proof.
  unfold wf, keys. intros Hwf Hperm.
  apply (Permutation_NoDup (Permutation_map fst Hperm)). assumption.
Qed.

Lemma get_perm {V : Type} (d d' : dict V) :
  wf d -> Permutation d d' -> forall k, get k d' = get k d.
Proof.
  intros Hwf Hperm k. pose proof (wf_perm d d' Hwf Hperm) as Hwf'.
  destruct (get k d) as [v|] eqn:Hget.
  - apply In_get; [assumption|]. apply (Permutation_in _ Hperm). apply get_In. assumption.
  - apply get_none. apply get_none in Hget. intros Hin. apply Hget.
    unfold keys in *. apply (Permutation_in _ (Permutation_sym (Permutation_map fst Hperm))).
    assumption.
Qed.

Lemma depends_on_ext tasks tasks' a b :
  (forall k, get k tasks' = get k tasks) ->
  depends_on tasks' a b -> depends_on tasks a b.
Proof. intros Hext [meta [Hget Hin]]. exists meta. rewrite <- Hext. auto. Qed.

Lemma has_cycle_ext tasks tasks' :
  (forall k, get k tasks' = get k tasks) -> has_cycle tasks' -> has_cycle tasks.
Proof.
  intros Hext [a Ha]. exists a.
  assert (Hall : forall x y, clos_trans string (depends_on tasks') x y ->
                             clos_trans string (depends_on tasks) x y).
  { intros x y Hxy. induction Hxy as [x y H|x y z _ IH1 _ IH2].
    - apply t_step. apply (depends_on_ext tasks tasks'); assumption.
    - apply t_trans with (y := y); assumption. }
  apply Hall. assumption.
Qed.

Lemma dangling_ext tasks tasks' :
  (forall k, get k tasks' = get k tasks) -> dangling tasks' -> dangling tasks.
Proof.
  intros Hext [a [b [Hdep Hnot]]]. exists a, b. split.
  - apply (depends_on_ext tasks tasks'); assumption.
  - intros Hin. apply Hnot. apply get_in_keys. apply get_in_keys in Hin.
    destruct Hin as [v Hv]. exists v. rewrite Hext. assumption.
Qed.

Lemma path_length_ext tasks tasks' :
  (forall k, get k tasks' = get k tasks) ->
  forall fuel k, path_length fuel tasks' k = path_length fuel tasks k.
Proof.
  intros Hext. induction fuel as [|n IH]; intros k; [reflexivity|].
  cbn [path_length]. rewrite Hext. destruct (get k tasks) as [meta|]; [|reflexivity].
  f_equal. f_equal. apply map_ext. exact IH.
Qed.

Lemma compute_cpm_returns_ext tasks tasks' es ef :
  wf tasks -> wf tasks' -> (forall k, get k tasks' = get k tasks) ->
  compute_cpm tasks = Ok (es, ef) ->
  exists es' ef', compute_cpm tasks' = Ok (es', ef').
Proof.
  intros Hwf Hwf' Hext Hrun.
  destruct (toposort (initial_remaining tasks') []) as [order|e] eqn:Htopo.
  - destruct (compute_cpm_of_order tasks' order Hwf' Htopo) as [es' [ef' [Hrun' _]]]. eauto.
  - exfalso.
    assert (Hraise : toposort (initial_remaining tasks) [] = Raise CyclicDependency).
    { destruct (toposort_spec tasks' _ (initial_remaining tasks') [] (le_n _)
                  (loop_inv_init tasks' Hwf'))
        as [[final [batches [Hfinal _]]] | [_ [remaining [order [Hinv [Hne Hready]]]]]].
      - rewrite Hfinal in Htopo. discriminate.
      - destruct (closedb tasks') eqn:Hcl.
        + apply toposort_cycle; [assumption|]. apply (has_cycle_ext tasks tasks' Hext).
          apply (stuck_has_cycle tasks' remaining order); try assumption.
          apply closed_check. assumption.
        + apply toposort_dangling; [assumption|]. apply (dangling_ext tasks tasks' Hext).
          apply closedb_false; assumption. }
    unfold compute_cpm in Hrun. rewrite Hraise in Hrun. discriminate.
Qed.

(** X18 (compute_cpm): the earliest starts and finishes do not depend on
    the order in which the tasks were inserted in the mapping: on a mapping
    with the same items in another order the scheduler returns too, with
    the same earliest start and the same earliest finish for every task. *)
Theorem compute_cpm_insertion_order (tasks tasks' : dict task_meta) (es ef : dict Z) :
  wf tasks -> Permutation tasks tasks' ->
  compute_cpm tasks = Ok (es, ef) ->
  exists es' ef',
    compute_cpm tasks' = Ok (es', ef') /\
    forall task, get task es' = get task es /\ get task ef' = get task ef.
Proof.
  intros Hwf Hperm Hrun.
  pose proof (wf_perm _ _ Hwf Hperm) as Hwf'.
  pose proof (get_perm _ _ Hwf Hperm) as Hext.
  destruct (compute_cpm_returns_ext tasks tasks' es ef Hwf Hwf' Hext Hrun)
    as [es' [ef' Hrun']].
  exists es', ef'. split; [assumption|]. intros task.
  destruct (compute_cpm_inv tasks es ef Hwf Hrun) as [order [_ [Hinv [Hes Hef]]]].
  destruct (compute_cpm_inv tasks' es' ef' Hwf' Hrun') as [order' [_ [Hinv' [Hes' Hef']]]].
  destruct (get task tasks) as [meta|] eqn:Hget.
  - assert (Hget' : get task tasks' = Some meta) by (rewrite Hext; assumption).
    destruct (compute_cpm_equations tasks es ef Hwf Hrun task meta Hget)
      as [fs [_ [Hs Hf]]].
    destruct (compute_cpm_equations tasks' es' ef' Hwf' Hrun' task meta Hget')
      as [fs' [_ [Hs' Hf']]].
    assert (Hk : In task (keys tasks)) by (apply get_in_keys; eauto).
    assert (Hk' : In task (keys tasks')) by (apply get_in_keys; eauto).
    pose proof (finish_longest_path tasks es ef Hwf Hrun task Hk) as Hp.
    pose proof (finish_longest_path tasks' es' ef' Hwf' Hrun' task Hk') as Hp'.
    rewrite <- (Permutation_length Hperm), (path_length_ext tasks tasks' Hext) in Hp'.
    rewrite Hp in Hf. rewrite Hp' in Hf'.
    injection Hf as Hf. injection Hf' as Hf'.
    split; [|rewrite Hp, Hp'; reflexivity].
    rewrite Hs, Hs'. f_equal. lia.
  - assert (Hget' : get task tasks' = None) by (rewrite Hext; assumption).
    apply get_none in Hget, Hget'.
    assert (Hn : ~ In task order).
    { intros H. apply Hget. apply (inv_keys _ _ _ Hinv). left. assumption. }
    assert (Hn' : ~ In task order').
    { intros H. apply Hget'. apply (inv_keys _ _ _ Hinv'). left. assumption. }
    rewrite <- Hes in Hn. rewrite <- Hes' in Hn'. apply get_none in Hn, Hn'.
    rewrite Hn, Hn'. split; [reflexivity|].
    assert (Hm : ~ In task (keys ef)) by (rewrite Hef, <- Hes; apply get_none; assumption).
    assert (Hm' : ~ In task (keys ef')) by (rewrite Hef', <- Hes'; apply get_none; assumption).
    apply get_none in Hm, Hm'. rewrite Hm, Hm'. reflexivity.
Qed.

Lemma compute_cpm_insertion_order_witness :
  exists es ef es' ef',
    compute_cpm chain_example = Ok (es, ef) /\
    compute_cpm chain_example_reordered = Ok (es', ef') /\
    forall task, get task es' = get task es /\ get task ef' = get task ef.
Proof.
  destruct (compute_cpm chain_example) as [[es ef]|e] eqn:Hrun;
    [|vm_compute in Hrun; discriminate].
  destruct (compute_cpm_insertion_order chain_example chain_example_reordered es ef)
    as [es' [ef' [Hrun' Hsame]]].
  - apply wf_check. reflexivity.
  - apply perm_swap.
  - exact Hrun.
  - exists es, ef, es', ef'. split; [reflexivity|]. split; assumption.
Defined.

(** ** The last dates of the calendar *)

Lemma date_add_days_cases (d : date) (n : Z) :
  date_add_days d n = Ok (d + n) \/ date_add_days d n = Raise OverflowError.
Proof.
  unfold date_add_days.
  destruct ((Z.abs n <=? timedelta_max) && (1 <=? d + n) && (d + n <=? date_max)); auto.
Qed.

Lemma task_rows_cases p (start : date) es ef :
  forall items,
  (forall k, In k (keys items) -> exists s f, get k es = Some s /\ get k ef = Some f) ->
  (exists rows, task_rows p start es ef items = Ok rows) \/
  task_rows p start es ef items = Raise OverflowError.
Proof.
  induction items as [|[task meta] items IH]; intros Hall.
  - left. exists []. reflexivity.
  - destruct (Hall task (or_introl eq_refl)) as [s [f [Hs Hf]]].
    cbn [task_rows]. unfold getitem. rewrite Hs, Hf. cbn [bind].
    destruct (date_add_days_cases start s) as [H1|H1]; rewrite H1; cbn [bind]; [|auto].
    destruct (date_add_days_cases start f) as [H2|H2]; rewrite H2; cbn [bind]; [|auto].
    destruct IH as [[rows Hrows]|Hraise]; [intros k Hk; apply Hall; right; assumption | |].
    + rewrite Hrows. cbn [bind]. left. eauto.
    + rewrite Hraise. cbn [bind]. auto.
Qed.

(** X19 (build_schedule): for a configured product and constraints on the
    sliders' ranges, a start date less than 62 days before the last date
    of the calendar makes the schedule builder raise [OverflowError]: the
    ship date would be after 9999-12-31. *)
Theorem build_schedule_late_start (p : string) (start : date) (y t b : Z) :
  configured p -> valid_yield y -> valid_throughput t -> valid_bug_count b ->
  date_max < start + 62 ->
  build_schedule p start y t b = Raise OverflowError.
Proof.
  intros Hp Hy Ht Hb Hlate.
  destruct (apply_constraints_product p y t b Hp Hy Ht Hb) as [base [Hbase Happ]].
  destruct (product_cpm_returns p base y t b Hbase) as [es [ef [days [Hrun Hship]]]].
  assert (Hdays : 62 <= days).
  { destruct (product_schedule p 1 y t b Hp Hy Ht Hb) as [_ [days' [_ [Hspec Hbound]]]];
      [unfold valid_date, date_max; lia | unfold date_max; lia |].
    unfold spec_ship_days in Hspec. rewrite Hbase in Hspec. cbn [bind] in Hspec.
    rewrite Hrun in Hspec. cbn [bind snd] in Hspec.
    unfold getitem in Hspec. rewrite Hship in Hspec. injection Hspec as <-. lia. }
  pose proof (build_product_tasks_wf p base Hbase) as Hwf.
  pose proof (adjusted_tasks_wf (spec_factory_duration t) (spec_bug_delay b) (spec_na_delay t)
                (spec_allocation_delay p y) base Hwf) as Hwf'.
  unfold build_schedule. rewrite Hbase. cbn [bind]. rewrite Happ. cbn [bind].
  rewrite Hrun. cbn [bind].
  destruct (task_rows_cases p start es ef (spec_adjusted_tasks p y t b base))
    as [[rows Hrows]|Hraise].
  - intros k Hk. apply get_in_keys in Hk. destruct Hk as [meta Hget].
    destruct (compute_cpm_equations _ es ef Hwf' Hrun k meta Hget) as [fs [_ [Hs Hf]]]. eauto.
  - rewrite Hrows. cbn [bind]. unfold getitem. rewrite Hship. cbn [bind].
    unfold date_add_days.
    replace (start + days <=? date_max) with false by (symmetry; apply Z.leb_gt; lia).
    rewrite andb_false_r. reflexivity.
  - rewrite Hraise. reflexivity.
Qed.

Lemma build_schedule_late_start_witness :
  build_schedule "MacBook Pro" 3652000 85 100 25 = Raise OverflowError.
Proof.
  apply (build_schedule_late_start "MacBook Pro" 3652000 85 100 25).
  - left. reflexivity.
  - unfold valid_yield. lia.
  - unfold valid_throughput. lia.
  - unfold valid_bug_count. lia.
  - unfold date_max. lia.
Defined.

(** ** The bands *)

(** X20 (confidence_band): a higher score never gives a worse band: if a
    score is "Green" every higher score is "Green", if a score is "Red"
    every lower score is "Red", and every band is "Green", "Yellow" or
    "Red" with its own colour. *)
Theorem confidence_band_monotone (s1 s2 : Z) :
  s1 <= s2 ->
  (fst (confidence_band s1) = "Green" -> fst (confidence_band s2) = "Green") /\
  (fst (confidence_band s2) = "Red" -> fst (confidence_band s1) = "Red") /\
  In (confidence_band s1) [("Green", "#2ecc71"); ("Yellow", "#f1c40f"); ("Red", "#e74c3c")].
Proof.
  intros Hle. unfold confidence_band.
  destruct (Z.leb_spec 80 s1), (Z.leb_spec 55 s1), (Z.leb_spec 80 s2), (Z.leb_spec 55 s2);
    try lia; cbn [fst In]; (split; [|split]); try discriminate; auto.
Qed.

Lemma confidence_band_monotone_witness :
  (80 <= 90 /\ fst (confidence_band 80) = "Green" /\ fst (confidence_band 90) = "Green") /\
  (40 <= 50 /\ fst (confidence_band 50) = "Red" /\ fst (confidence_band 40) = "Red") /\
  In (confidence_band 80) [("Green", "#2ecc71"); ("Yellow", "#f1c40f"); ("Red", "#e74c3c")].
Proof.
  destruct (confidence_band_monotone 80 90) as [Hgreen [_ Hband]]; [lia|].
  destruct (confidence_band_monotone 40 50) as [_ [Hred _]]; [lia|].
  split; [|split].
  - split; [lia|]. split; [reflexivity | apply Hgreen; reflexivity].
  - split; [lia|]. split; [reflexivity | apply Hred; reflexivity].
  - exact Hband.
Defined.

(** ** The longest chain of dependencies *)

Lemma chain_length_snoc tasks path k meta :
  get k tasks = Some meta ->
  chain_length tasks (path ++ [k]) = chain_length tasks path + duration meta.
Proof.
  intros Hget. induction path as [|x path IH]; cbn [chain_length fold_right app].
  - rewrite Hget. lia.
  - fold (chain_length tasks (path ++ [k])). fold (chain_length tasks path).
    rewrite IH. destruct (get x tasks); lia.
Qed.

(** A chain that ends in [k] is no longer than the earliest finish of [k],
    when it starts at a task without dependencies or when the earliest
    start of its first task is not negative. *)
Lemma chain_length_le tasks es ef :
  wf tasks -> compute_cpm tasks = Ok (es, ef) ->
  forall a path k, chain tasks a path k ->
  (source tasks a \/ exists s, get a es = Some s /\ 0 <= s) ->
  forall f, get k ef = Some f -> chain_length tasks path <= f.
Proof.
  intros Hwf Hrun a path k Hchain.
  induction Hchain as [k Hk|a path d k Hchain IH [meta [Hget Hin]]]; intros Hstart f Hf.
  - apply get_in_keys in Hk. destruct Hk as [meta Hget].
    destruct (compute_cpm_equations tasks es ef Hwf Hrun k meta Hget) as [fs [Hfs [Hes Hef]]].
    rewrite Hef in Hf. injection Hf as <-.
    cbn [chain_length fold_right]. rewrite Hget.
    destruct Hstart as [[meta' [Hget' Hnil]]|[s [Hs Hpos]]].
    + rewrite Hget in Hget'. injection Hget' as <-. rewrite Hnil in Hfs.
      inversion Hfs; subst. cbn [max_default]. lia.
    + rewrite Hes in Hs. injection Hs as <-. lia.
  - destruct (compute_cpm_equations tasks es ef Hwf Hrun k meta Hget) as [fs [Hfs [_ Hef]]].
    rewrite Hef in Hf. injection Hf as <-.
    destruct (Forall2_get_In_dep ef _ _ d Hfs Hin) as [fd [Hfd Hgd]].
    specialize (IH Hstart fd Hgd).
    rewrite (chain_length_snoc tasks path k meta Hget).
    pose proof (max_default_is_max fs 0) as Hmax.
    destruct fs as [|f0 fs']; [destruct Hfd|]. destruct Hmax as [_ Hmax].
    specialize (Hmax fd Hfd). lia.
Qed.

(** Some chain from a task without dependencies to [k] is as long as the
    earliest finish of [k]. *)
Lemma chain_length_attained tasks es ef :
  wf tasks -> compute_cpm tasks = Ok (es, ef) ->
  forall k f, get k ef = Some f ->
  exists a path, source tasks a /\ chain tasks a path k /\ chain_length tasks path = f.
Proof.
  intros Hwf Hrun.
  destruct (compute_cpm_inv tasks es ef Hwf Hrun) as [order [_ [Hinv [_ Hkeys]]]].
  pose proof (inv_topological _ _ _ Hinv) as Htopo.
  assert (Hall : forall n l1 k l2 f,
            order = (l1 ++ k :: l2)%list -> (List.length l1 < n)%nat ->
            get k ef = Some f ->
            exists a path, source tasks a /\ chain tasks a path k /\
                           chain_length tasks path = f).
  { induction n as [|n IH]; intros l1 k l2 f Heq Hlen Hf; [lia|].
    assert (Hk : In k (keys tasks)).
    { rewrite (inv_keys _ _ _ Hinv). left. rewrite Heq. apply in_elt. }
    pose proof Hk as Hk'. apply get_in_keys in Hk'. destruct Hk' as [meta Hget].
    destruct (compute_cpm_equations tasks es ef Hwf Hrun k meta Hget) as [fs [Hfs [_ Hef]]].
    rewrite Hef in Hf. injection Hf as <-.
    pose proof (max_default_is_max fs 0) as Hmax.
    destruct fs as [|f0 fs'].
    - inversion Hfs as [Hnil|]; subst. exists k, [k].
      split; [exists meta; auto|]. split; [apply chain_one; assumption|].
      cbn [chain_length fold_right max_default]. rewrite Hget. lia.
    - destruct Hmax as [Hin _].
      destruct (Forall2_get_In _ _ _ _ Hfs Hin) as [d [Hd Hgd]].
      assert (Hdl : In d l1) by (apply (Htopo l1 k l2 Heq); exists meta; auto).
      apply in_split in Hdl. destruct Hdl as [l1' [l2' Hl1]].
      destruct (IH l1' d (l2' ++ k :: l2)%list (max_default (f0 :: fs') 0))
        as [a [path [Ha [Hchain Hlength]]]]; [| |exact Hgd|].
      + rewrite Heq, Hl1, <- app_assoc. reflexivity.
      + rewrite Hl1, length_app in Hlen. simpl in Hlen. lia.
      + exists a, (path ++ [k])%list. split; [assumption|].
        split; [apply (chain_snoc tasks a path d k Hchain); exists meta; auto|].
        rewrite (chain_length_snoc tasks path k meta Hget), Hlength. reflexivity. }
  intros k f Hf.
  assert (Hk : In k order).
  { rewrite <- Hkeys. apply get_in_keys. eauto. }
  apply in_split in Hk. destruct Hk as [l1 [l2 Heq]].
  apply (Hall (S (List.length l1)) l1 k l2 f Heq); [lia | assumption].
Qed.

(** X3 (compute_cpm): the earliest finish of a task is the length of the
    longest chain of dependencies that starts at a task without
    dependencies and ends in it, the durations of the chain added up: some
    such chain has this length and none is longer.  When no duration is
    negative, no chain of dependencies that ends in the task is longer,
    wherever it starts. *)
Theorem compute_cpm_longest_path (tasks : dict task_meta) (es ef : dict Z)
    (k : string) (f : Z) :
  wf tasks -> compute_cpm tasks = Ok (es, ef) ->
  get k ef = Some f ->
  (exists a path,
     source tasks a /\ chain tasks a path k /\ chain_length tasks path = f) /\
  (forall a path,
     source tasks a -> chain tasks a path k -> chain_length tasks path <= f) /\
  ((forall name meta, get name tasks = Some meta -> 0 <= duration meta) ->
   forall a path, chain tasks a path k -> chain_length tasks path <= f).
Proof.
  intros Hwf Hrun Hf. split; [|split].
  - apply (chain_length_attained tasks es ef Hwf Hrun k f Hf).
  - intros a path Ha Hchain.
    apply (chain_length_le tasks es ef Hwf Hrun a path k Hchain); [left|]; assumption.
  - intros Hdur a path Hchain.
    apply (chain_length_le tasks es ef Hwf Hrun a path k Hchain); [right | assumption].
    assert (Ha : In a (keys tasks)).
    { clear Hf. induction Hchain as [k Hk|a path d k _ IH _]; assumption. }
    apply get_in_keys in Ha. destruct Ha as [meta Hget].
    destruct (compute_cpm_equations tasks es ef Hwf Hrun a meta Hget) as [fs [Hfs [Hes _]]].
    exists (max_default fs 0). split; [assumption|].
    apply (start_nonneg ef (deps meta) fs); [|assumption].
    apply (compute_cpm_nonneg tasks es ef Hdur Hrun).
Qed.

Lemma compute_cpm_longest_path_witness :
  exists es ef,
    compute_cpm chain_example = Ok (es, ef) /\
    get "A" ef = Some 3 /\
    (exists a path,
       source chain_example a /\ chain chain_example a path "A" /\
       chain_length chain_example path = 3) /\
    (forall a path,
       source chain_example a -> chain chain_example a path "A" ->
       chain_length chain_example path <= 3) /\
    (forall a path, chain chain_example a path "A" -> chain_length chain_example path <= 3).
Proof.
  destruct (compute_cpm chain_example) as [[es ef]|e] eqn:Hrun;
    [|vm_compute in Hrun; discriminate].
  assert (Hf : get "A" ef = Some 3).
  { pose proof Hrun as Hval. vm_compute in Hval. injection Hval as <- <-. reflexivity. }
  exists es, ef. split; [reflexivity|]. split; [exact Hf|].
  destruct (compute_cpm_longest_path chain_example es ef "A" 3) as [Hsome [Hrooted Hany]].
  - apply wf_check. reflexivity.
  - exact Hrun.
  - exact Hf.
  - split; [exact Hsome|]. split; [exact Hrooted|]. apply Hany.
    intros name meta Hget. apply get_In in Hget. simpl in Hget.
    destruct Hget as [Heq|[Heq|[]]]; injection Heq as <- <-; simpl; lia.
Defined.

(** ** The rounding error of the float operations *)

Lemma bracket_compose a b c P Q :
  0 < P -> 0 < Q ->
  b * P <= a < (b + 1) * P -> c * Q <= b < (c + 1) * Q ->
  c * (P * Q) <= a < (c + 1) * (P * Q).
Proof. intros HP HQ Ha Hb. nia. Qed.

Lemma shr_1_value r :
  0 <= shr_m r ->
  0 <= shr_m (shr_1 r) /\
  shr_m (shr_1 r) * 2 <= shr_m r < (shr_m (shr_1 r) + 1) * 2.
Proof.
  destruct r as [m r s]. cbn [shr_m]. intros Hm.
  destruct m as [|[p|p|]|p]; cbn [shr_1 shr_m]; lia.
Qed.

Lemma iter_shr_1_value p :
  forall r, 0 <= shr_m r ->
  0 <= shr_m (iter_pos shr_1 p r) /\
  shr_m (iter_pos shr_1 p r) * 2 ^ Zpos p <= shr_m r
    < (shr_m (iter_pos shr_1 p r) + 1) * 2 ^ Zpos p.
Proof.
  induction p as [p IH|p IH|]; intros r Hr; cbn [iter_pos].
  - destruct (shr_1_value r Hr) as [H1 B1].
    destruct (IH _ H1) as [H2 B2]. destruct (IH _ H2) as [H3 B3].
    split; [assumption|].
    assert (HP : 0 < 2 ^ Zpos p) by (apply Z.pow_pos_nonneg; lia).
    replace (2 ^ Zpos p~1) with (2 * (2 ^ Zpos p * 2 ^ Zpos p)).
    + apply bracket_compose with (b := shr_m (shr_1 r)); [lia | nia | lia |].
      apply bracket_compose with (b := shr_m (iter_pos shr_1 p (shr_1 r))); assumption.
    + rewrite (Pos2Z.inj_xI p), Z.pow_add_r, Z.pow_mul_r by lia.
      change (2 ^ 2) with 4. change (2 ^ 1) with 2.
      replace (4 ^ Zpos p) with (2 ^ Zpos p * 2 ^ Zpos p); [lia|].
      rewrite <- Z.pow_mul_l. reflexivity.
  - destruct (IH _ Hr) as [H2 B2]. destruct (IH _ H2) as [H3 B3].
    split; [assumption|].
    assert (HP : 0 < 2 ^ Zpos p) by (apply Z.pow_pos_nonneg; lia).
    replace (2 ^ Zpos p~0) with (2 ^ Zpos p * 2 ^ Zpos p).
    + apply bracket_compose with (b := shr_m (iter_pos shr_1 p r)); assumption.
    + rewrite (Pos2Z.inj_xO p), Z.pow_mul_r by lia. change (2 ^ 2) with 4.
      rewrite <- Z.pow_mul_l. reflexivity.
  - change (2 ^ 1) with 2. apply shr_1_value. assumption.
Qed.

(** The first shift of a rounding: the mantissa loses [e' - e] bits. *)
Lemma shr_fexp_value m e l :
  0 <= m ->
  e <= snd (shr_fexp prec emax m e l) /\
  shr_m (fst (shr_fexp prec emax m e l)) * 2 ^ (snd (shr_fexp prec emax m e l) - e) <= m
    < (shr_m (fst (shr_fexp prec emax m e l)) + 1) *
      2 ^ (snd (shr_fexp prec emax m e l) - e).
Proof.
  intros Hm. unfold shr_fexp. rewrite fexp_eq. unfold shr.
  destruct (Z.max (Zdigits2 m + e - 53) (-1074) - e) as [|n|n] eqn:Hn;
    cbn [fst snd]; rewrite ?shr_record_of_loc_m, ?Z.sub_diag; try (simpl; lia).
  destruct (iter_shr_1_value n (shr_record_of_loc m l)) as [H0 Hb];
    [rewrite shr_record_of_loc_m; assumption|].
  rewrite shr_record_of_loc_m in Hb. split; [lia|].
  replace (e + Zpos n - e) with (Zpos n) by lia. exact Hb.
Qed.

Lemma round_nearest_even_value m l :
  m <= round_nearest_even m l <= m + 1.
Proof.
  unfold round_nearest_even. destruct l as [|[]]; try lia.
  destruct (Z.even m); lia.
Qed.

Lemma round_error_arith mx m1 m2 m3 P1 P3 a T :
  0 < a -> 0 < P1 -> 0 < P3 ->
  m1 * P1 <= mx < (m1 + 1) * P1 ->
  m1 <= m2 <= m1 + 1 ->
  m3 * P3 <= m2 < (m3 + 1) * P3 ->
  2 * (P3 * P1 * a) <= T ->
  Z.abs (m3 * (P3 * P1 * a) - mx * a) <= T.
Proof.
  intros Ha HP1 HP3 H1 H2 H3 HT.
  assert (U1 : m3 * P3 * P1 <= m2 * P1) by nia.
  assert (U2 : m2 * P1 <= m1 * P1 + P1) by nia.
  assert (L1 : (m2 + 1) * P1 <= (m3 + 1) * P3 * P1) by nia.
  assert (L2 : mx < (m2 + 1) * P1) by nia.
  assert (L3 : P1 <= P3 * P1) by nia.
  assert (HD : - (2 * (P3 * P1)) <= m3 * P3 * P1 - mx <= 2 * (P3 * P1)) by lia.
  assert (HDa : - (2 * (P3 * P1) * a) <= (m3 * P3 * P1 - mx) * a <= 2 * (P3 * P1) * a) by nia.
  lia.
Qed.

(** A rounding moves a value by at most two units of the last place. *)
Lemma binary_round_aux_units sx mx ex lx E B :
  0 <= mx -> -1074 <= ex -> ex <= E -> Zdigits2 mx + ex <= B ->
  -1074 <= E <= 971 -> -1074 <= B -> B - 52 <= E ->
  exponent_ge (binary_round_aux prec emax sx mx ex lx) ex /\
  exists v,
    units (binary_round_aux prec emax sx mx ex lx) = cond_Zopp sx v /\
    0 <= v /\
    Z.abs (v - mx * 2 ^ (ex + 1074)) <= 2 ^ (E + 1075).
Proof.
  intros Hm Hlow He HB HE HB0 HBE. unfold binary_round_aux.
  destruct (shr_fexp_bound mx ex lx Hm) as [H1 [He1 Hd1]].
  destruct (shr_fexp_value mx ex lx Hm) as [Hl1 Hv1].
  destruct (shr_fexp prec emax mx ex lx) as [mrs1 e1].
  cbn [fst snd] in H1, He1, Hd1, Hl1, Hv1.
  destruct (round_nearest_even_bound (shr_m mrs1) (loc_of_shr_record mrs1) H1) as [H2 Hd2].
  pose proof (round_nearest_even_value (shr_m mrs1) (loc_of_shr_record mrs1)) as Hv2.
  set (m2 := round_nearest_even (shr_m mrs1) (loc_of_shr_record mrs1)) in *.
  destruct (shr_fexp_bound m2 e1 loc_Exact H2) as [H3 [He3 Hd3]].
  destruct (shr_fexp_value m2 e1 loc_Exact H2) as [Hl3 Hv3].
  destruct (shr_fexp prec emax m2 e1 loc_Exact) as [mrs3 e3].
  cbn [fst snd] in H3, He3, Hd3, Hl3, Hv3.
  assert (HeE : e3 <= E) by lia.
  set (a := 2 ^ (ex + 1074)) in *.
  set (P1 := 2 ^ (e1 - ex)) in *. set (P3 := 2 ^ (e3 - e1)) in *.
  assert (Ha : 0 < a) by (apply Z.pow_pos_nonneg; lia).
  assert (HP1 : 0 < P1) by (apply Z.pow_pos_nonneg; lia).
  assert (HP3 : 0 < P3) by (apply Z.pow_pos_nonneg; lia).
  assert (Hpow : 2 ^ (e3 + 1074) = P3 * P1 * a).
  { unfold P3, P1, a. rewrite <- !Z.pow_add_r by lia. f_equal. lia. }
  assert (Hle : 2 * 2 ^ (e3 + 1074) <= 2 ^ (E + 1075)).
  { replace (E + 1075) with (Z.succ (E + 1074)) by lia. rewrite Z.pow_succ_r by lia.
    apply Z.mul_le_mono_nonneg_l; [lia|]. apply Z.pow_le_mono_r; lia. }
  assert (Hbound : Z.abs (shr_m mrs3 * 2 ^ (e3 + 1074) - mx * a) <= 2 ^ (E + 1075)).
  { rewrite Hpow in Hle |- *.
    apply (round_error_arith mx (shr_m mrs1) m2 (shr_m mrs3) P1 P3 a); assumption. }
  destruct (shr_m mrs3) as [|m|m] eqn:Hm3; [| |lia].
  - split; [exact I|]. exists 0. cbn [units]. split; [destruct sx; reflexivity|].
    split; [lia | exact Hbound].
  - replace (e3 <=? emax - prec) with true by (symmetry; apply Z.leb_le; unfold emax, prec; lia).
    split; [cbn [exponent_ge]; lia|].
    exists (Zpos m * 2 ^ (e3 + 1074)). cbn [units]. split; [destruct sx; cbn [signed cond_Zopp]; lia|].
    split; [lia | exact Hbound].
Qed.

Lemma iter_xO_value m d : Zpos (Pos.iter xO m d) = Zpos m * 2 ^ Zpos d.
Proof.
  induction d as [|d IH] using Pos.peano_ind.
  - simpl. lia.
  - rewrite Pos.iter_succ, Pos2Z.inj_succ, Z.pow_succ_r by lia.
    rewrite (Pos2Z.inj_xO (Pos.iter xO m d)), IH. lia.
Qed.

(** Aligning a mantissa to a smaller exponent keeps the value. *)
Lemma shl_align_value mx ex t :
  -1074 <= ex -> -1074 <= t ->
  -1074 <= snd (shl_align mx ex t) /\
  Zpos (fst (shl_align mx ex t)) * 2 ^ (snd (shl_align mx ex t) + 1074) =
    Zpos mx * 2 ^ (ex + 1074).
Proof.
  intros Hex Ht. unfold shl_align.
  destruct (t - ex) as [|d|d] eqn:Hd; cbn [fst snd]; try (split; [lia | reflexivity]).
  split; [lia|]. rewrite iter_xO_value, <- Z.mul_assoc, <- Z.pow_add_r by lia.
  f_equal. f_equal. lia.
Qed.

Lemma binary_normalize_units z e sz E B :
  -1074 <= e -> e <= E -> Zdigits2 z + e <= B ->
  -1074 <= E <= 971 -> -1074 <= B -> B - 52 <= E ->
  exponent_ge (binary_normalize prec emax z e sz) (-1074) /\
  Z.abs (units (binary_normalize prec emax z e sz) - z * 2 ^ (e + 1074)) <= 2 ^ (E + 1075).
Proof.
  intros Hlow He HB HE HB0 HBE.
  assert (Hround : forall sx m, Zpos (digits2_pos m) + e <= B ->
            exponent_ge (binary_round prec emax sx m e) (-1074) /\
            Z.abs (units (binary_round prec emax sx m e) -
                   cond_Zopp sx (Zpos m) * 2 ^ (e + 1074)) <= 2 ^ (E + 1075)).
  { intros sx m Hd. unfold binary_round.
    destruct (shl_align_bound m e (fexp prec emax (Zpos (digits2_pos m) + e))) as [Hs Hdig].
    destruct (shl_align_value m e (fexp prec emax (Zpos (digits2_pos m) + e))) as [Hl Hval];
      [assumption | rewrite fexp_eq; lia |].
    destruct (shl_align m e (fexp prec emax (Zpos (digits2_pos m) + e))) as [mz ez].
    cbn [fst snd] in Hs, Hdig, Hl, Hval.
    destruct (binary_round_aux_units sx (Zpos mz) ez loc_Exact E B) as [Hexp [v [Hu [Hv Hb]]]];
      cbn [Zdigits2]; try lia.
    split.
    - destruct (binary_round_aux prec emax sx (Zpos mz) ez loc_Exact); cbn [exponent_ge] in *; lia.
    - rewrite Hu, Hval in *. destruct sx; cbn [cond_Zopp] in *; lia. }
  assert (Hpow : 0 <= 2 ^ (E + 1075)) by (apply Z.pow_nonneg; lia).
  destruct z as [|m|m]; cbn [binary_normalize].
  - split; [exact I|]. cbn [units]. simpl. lia.
  - apply (Hround false m HB).
  - apply (Hround true m HB).
Qed.

(** A subtraction is off the exact difference by at most two units of the
    last place. *)
Lemma fsub_units x y E B :
  within x E B -> within y E B ->
  exponent_ge x (-1074) -> exponent_ge y (-1074) ->
  -1074 <= E <= 971 -> -1074 <= B -> B - 51 <= E ->
  exponent_ge (fsub x y) (-1074) /\
  Z.abs (units (fsub x y) - (units x - units y)) <= 2 ^ (E + 1075).
Proof.
  intros Hx Hy Hlx Hly HE HB0 HBE. unfold fsub.
  assert (Hpow : 0 <= 2 ^ (E + 1075)) by (apply Z.pow_nonneg; lia).
  destruct x as [sx|sx| |sx mx ex], y as [sy|sy| |sy my ey];
    cbn [SFsub within exponent_ge] in *; try contradiction.
  - destruct sx, sy; cbn [units exponent_ge]; split; try exact I; simpl; lia.
  - cbn [units exponent_ge]. split; [assumption|].
    destruct sy; cbn [negb signed]; lia.
  - cbn [units exponent_ge]. split; [assumption|].
    replace (signed sx mx * 2 ^ (ex + 1074) - (signed sx mx * 2 ^ (ex + 1074) - 0)) with 0 by lia.
    simpl. lia.
  - destruct (shl_align_bound mx ex (Z.min ex ey)) as [_ Hdx].
    destruct (shl_align_bound my ey (Z.min ex ey)) as [_ Hdy].
    destruct (shl_align_value mx ex (Z.min ex ey)) as [_ Hvx]; [lia | lia |].
    destruct (shl_align_value my ey (Z.min ex ey)) as [_ Hvy]; [lia | lia |].
    rewrite shl_align_min in Hdx, Hvx by lia. rewrite shl_align_min in Hdy, Hvy by lia.
    set (X := fst (shl_align mx ex (Z.min ex ey))) in *.
    set (Y := fst (shl_align my ey (Z.min ex ey))) in *.
    pose proof (aligned_sum_digits X Y sx sy false (B - Z.min ex ey)) as Hdig.
    cbv iota in Hdig.
    destruct (binary_normalize_units (cond_Zopp sx (Zpos X) - cond_Zopp sy (Zpos Y))
                (Z.min ex ey) false E (B + 1)) as [Hexp Hb]; try lia.
    split; [exact Hexp|].
    replace (units (S754_finite sx mx ex) - units (S754_finite sy my ey))
      with ((cond_Zopp sx (Zpos X) - cond_Zopp sy (Zpos Y)) * 2 ^ (Z.min ex ey + 1074));
      [exact Hb|].
    cbn [units]. rewrite Z.mul_sub_distr_r.
    destruct sx, sy; cbn [cond_Zopp signed]; lia.
Qed.

Lemma round_half_even_near n d :
  0 < d -> 2 * Z.abs (round_half_even n d * d - n) <= d.
Proof.
  intros Hd. unfold round_half_even.
  pose proof (Z.div_mod n d ltac:(lia)) as Hdiv.
  pose proof (Z.mod_pos_bound n d Hd) as Hmod.
  destruct (Z.compare_spec (2 * (n mod d)) d) as [Heq|Hlt|Hgt];
    [destruct (Z.even (n / d))| |]; nia.
Qed.

(** [round] returns an integer at most one half away. *)
Lemma round_near x E B :
  within x E B -> exponent_ge x (-1074) ->
  exists r, round x = Ok r /\ 2 * Z.abs (r * 2 ^ 1074 - units x) <= 2 ^ 1074.
Proof.
  assert (Hpow : 0 < 2 ^ 1074) by (apply Z.pow_pos_nonneg; lia).
  destruct x as [s|s| |s m e]; cbn [within exponent_ge round units]; try contradiction.
  - intros _ _. exists 0. split; [reflexivity | lia].
  - intros _ He. eexists. split; [reflexivity|].
    destruct (Z.leb_spec 0 e) as [Hpos|Hneg].
    + replace (signed s m * 2 ^ e * 2 ^ 1074 - signed s m * 2 ^ (e + 1074)) with 0; [simpl; lia|].
      rewrite Z.pow_add_r by lia. lia.
    + pose proof (round_half_even_near (signed s m) (2 ^ (- e))
                    ltac:(apply Z.pow_pos_nonneg; lia)) as Hnear.
      assert (Hsplit : 2 ^ 1074 = 2 ^ (- e) * 2 ^ (e + 1074)).
      { rewrite <- Z.pow_add_r by lia. f_equal. lia. }
      assert (Hq : 0 < 2 ^ (e + 1074)) by (apply Z.pow_pos_nonneg; lia).
      set (r := round_half_even (signed s m) (2 ^ (- e))) in *.
      set (n := signed s m) in *. set (d := 2 ^ (- e)) in *. set (q := 2 ^ (e + 1074)) in *.
      rewrite Hsplit. clearbody r n d q. clear Hsplit Hpow.
      replace (r * (d * q) - n * q) with ((r * d - n) * q) by lia.
      rewrite Z.abs_mul, (Z.abs_eq q) by lia. nia.
Qed.

(** ** The score against the specification *)

Lemma exponent_geb_ge x L : exponent_geb x L = true -> exponent_ge x L.
Proof. destruct x; simpl; try (intros; exact I). apply Z.leb_le. Qed.

Lemma approxb_approx x tenths eps : approxb x tenths eps = true -> approx x tenths eps.
Proof.
  unfold approxb, approx. rewrite !andb_true_iff, Z.leb_le.
  intros [[Hw He] Hb]. split; [apply withinb_within; assumption|].
  split; [apply exponent_geb_ge; assumption | assumption].
Qed.

Lemma pow_1074 : 2 ^ 1074 = 4398046511104 * 2 ^ 1032.
Proof. change 1074 with (42 + 1032). rewrite Z.pow_add_r by lia. reflexivity. Qed.

Lemma pow_1082 : 2 ^ (8 + 1074) = 256 * 2 ^ 1074.
Proof. rewrite Z.pow_add_r by lia. reflexivity. Qed.

(** A float of magnitude below [2 ^ B] has at most [B] digits before the
    binary point. *)
Lemma within_of_units x E B B' :
  within x E B' -> exponent_ge x (-1074) ->
  Z.abs (units x) < 2 ^ (B + 1074) ->
  within x E B.
Proof.
  destruct x as [s|s| |s m e]; cbn [within exponent_ge units]; try contradiction; try tauto.
  intros [He _] Hlow Hlt. split; [assumption|].
  assert (Hq : 0 < 2 ^ (e + 1074)) by (apply Z.pow_pos_nonneg; lia).
  assert (Habs : Z.abs (signed s m * 2 ^ (e + 1074)) = Zpos m * 2 ^ (e + 1074)).
  { destruct s; cbn [signed]; lia. }
  rewrite Habs in Hlt.
  destruct (Z_lt_le_dec (B - e) 0) as [Hneg|Hpos].
  - exfalso.
    destruct (Z_lt_le_dec (B + 1074) 0) as [Hn|Hp].
    + rewrite (Z.pow_neg_r 2 (B + 1074) Hn) in Hlt. lia.
    + assert (Hmono : 2 ^ (B + 1074) <= 2 ^ (e + 1074)) by (apply Z.pow_le_mono_r; lia).
      assert (Hone : 1 * 2 ^ (e + 1074) <= Zpos m * 2 ^ (e + 1074))
        by (apply Z.mul_le_mono_nonneg_r; lia).
      lia.
  - replace (B + 1074) with ((B - e) + (e + 1074)) in Hlt by lia.
    rewrite (Z.pow_add_r 2 (B - e) (e + 1074)) in Hlt by lia.
    assert (Hm : Zpos m < 2 ^ (B - e))
      by (apply (Z.mul_lt_mono_pos_r (2 ^ (e + 1074))); assumption).
    pose proof (digits_le_of_lt m (B - e) Hpos Hm). lia.
Qed.

Lemma fsub_approx x y Tx Ty ex ey :
  approx x Tx ex -> approx y Ty ey ->
  Z.abs (Tx - Ty) <= 2000 -> 0 <= ex -> 0 <= ey -> ex + ey + 10 <= 1000 ->
  approx (fsub x y) (Tx - Ty) (ex + ey + 10).
Proof.
  intros [Hwx [Hlx Hbx]] [Hwy [Hly Hby]] HT Hex Hey Heps.
  destruct (fsub_units x y (-43) 8 Hwx Hwy Hlx Hly) as [Hl Hu]; try lia.
  pose proof (fsub_within x y (-43) 8 Hwx Hwy) as Hw.
  change (-43 + 1075) with 1032 in Hu.
  assert (HW : 0 < 2 ^ 1032) by (apply Z.pow_pos_nonneg; lia).
  pose proof pow_1074 as H1074. pose proof pow_1082 as H1082.
  set (W := 2 ^ 1032) in *. set (U := 2 ^ 1074) in *.
  set (ux := units x) in *. set (uy := units y) in *. set (uf := units (fsub x y)) in *.
  assert (Hb : Z.abs (10 * uf - (Tx - Ty) * U) <= (ex + ey + 10) * W) by lia.
  split; [|split; [assumption | exact Hb]].
  apply (within_of_units _ _ _ (8 + 2)); [apply Hw; lia | assumption |].
  fold uf. rewrite H1082. fold U. lia.
Qed.

Lemma round_approx x T eps :
  approx x T eps -> 0 <= eps <= 1000 ->
  exists r, round x = Ok r /\ Z.abs (10 * r - T) <= 5.
Proof.
  intros [Hw [Hl Hb]] Heps.
  destruct (round_near x _ _ Hw Hl) as [r [Hr Hnear]].
  exists r. split; [assumption|].
  assert (HW : 0 < 2 ^ 1032) by (apply Z.pow_pos_nonneg; lia).
  pose proof pow_1074 as H1074.
  set (W := 2 ^ 1032) in *. set (U := 2 ^ 1074) in *. set (ux := units x) in *.
  assert (H : Z.abs ((10 * r - T) * U) < 6 * U) by lia.
  rewrite Z.abs_mul, (Z.abs_eq U) in H by lia. nia.
Qed.

(** *** The four penalties, value by value *)

Lemma score_after_yield_approx (y : Z) :
  valid_yield y ->
  exists s, score_after_yield y = Ok s /\ approx s (1000 - spec_yield_penalty_tenths y) 1.
Proof.
  intros Hy.
  pose (P := fun y =>
    match score_after_yield y with
    | Ok s => approxb s (1000 - spec_yield_penalty_tenths y) 1
    | Raise _ => false
    end).
  assert (HP : P y = true).
  { apply (forall_Zrange P 40 100); [vm_compute; reflexivity | exact Hy]. }
  unfold P in HP. destruct (score_after_yield y) as [s|e]; [|discriminate].
  exists s. split; [reflexivity | apply approxb_approx; assumption].
Qed.

Lemma throughput_penalty_approx (t : Z) :
  valid_throughput t ->
  exists p, int_mul_float (Z.max 0 (100 - t)) lit_0_4 = Ok p /\
            approx p (Z.max 0 (100 - t) * 4) 1.
Proof.
  intros Ht.
  pose (P := fun t =>
    match int_mul_float (Z.max 0 (100 - t)) lit_0_4 with
    | Ok p => approxb p (Z.max 0 (100 - t) * 4) 1
    | Raise _ => false
    end).
  assert (HP : P t = true).
  { apply (forall_Zrange P 60 120); [vm_compute; reflexivity | exact Ht]. }
  unfold P in HP. destruct (int_mul_float (Z.max 0 (100 - t)) lit_0_4) as [p|e]; [|discriminate].
  exists p. split; [reflexivity | apply approxb_approx; assumption].
Qed.

Lemma bug_penalty_approx (b : Z) :
  valid_bug_count b ->
  exists p, int_mul_float b lit_0_2 = Ok p /\ approx p (b * 2) 1.
Proof.
  intros Hb.
  pose (P := fun b =>
    match int_mul_float b lit_0_2 with
    | Ok p => approxb p (b * 2) 1
    | Raise _ => false
    end).
  assert (HP : P b = true).
  { apply (forall_Zrange P 0 200); [vm_compute; reflexivity | exact Hb]. }
  unfold P in HP. destruct (int_mul_float b lit_0_2) as [p|e]; [|discriminate].
  exists p. split; [reflexivity | apply approxb_approx; assumption].
Qed.

Lemma delay_penalty_approx (d : Z) :
  0 <= d <= 255 ->
  exists p, int_mul_float d lit_0_5 = Ok p /\ approx p (d * 5) 1.
Proof.
  intros Hd.
  pose (P := fun d =>
    match int_mul_float d lit_0_5 with
    | Ok p => approxb p (d * 5) 1
    | Raise _ => false
    end).
  assert (HP : P d = true).
  { apply (forall_Zrange P 0 255); [vm_compute; reflexivity | exact Hd]. }
  unfold P in HP. destruct (int_mul_float d lit_0_5) as [p|e]; [|discriminate].
  exists p. split; [reflexivity | apply approxb_approx; assumption].
Qed.

(** [confidence_score], penalty by penalty. *)
Lemma confidence_score_stages y t b d s0 p1 p2 p3 r :
  score_after_yield y = Ok s0 ->
  int_mul_float (Z.max 0 (100 - t)) lit_0_4 = Ok p1 ->
  int_mul_float b lit_0_2 = Ok p2 ->
  int_mul_float (Z.max 0 d) lit_0_5 = Ok p3 ->
  round (fsub (fsub (fsub s0 p1) p2) p3) = Ok r ->
  confidence_score y t b d = Ok (Z.max 0 (Z.min 100 r)).
Proof.
  intros H0 H1 H2 H3 Hr. unfold confidence_score. unfold score_after_yield in H0.
  destruct (if y <? 70
            then (p <- int_mul_float (70 - y) lit_1_2 ;; float_add_int p 10)
            else int_mul_float (Z.max 0 (85 - y)) lit_0_4) as [penalty|e];
    cbn [bind] in *; [|discriminate].
  rewrite H0. cbn [bind]. rewrite H1. cbn [bind]. rewrite H2. cbn [bind].
  rewrite H3. cbn [bind]. rewrite Hr. reflexivity.
Qed.

Lemma spec_yield_penalty_bounds y :
  valid_yield y -> 0 <= spec_yield_penalty_tenths y <= 460.
Proof.
  unfold valid_yield, spec_yield_penalty_tenths. intros Hy.
  destruct (y <? 70) eqn:E; [apply Z.ltb_lt in E | apply Z.ltb_ge in E]; lia.
Qed.

(** The score after the bug penalty, for sliders on their ranges. *)
Lemma score_after_bugs_approx y t b :
  valid_yield y -> valid_throughput t -> valid_bug_count b ->
  exists s0 p1 p2,
    score_after_yield y = Ok s0 /\
    int_mul_float (Z.max 0 (100 - t)) lit_0_4 = Ok p1 /\
    int_mul_float b lit_0_2 = Ok p2 /\
    approx (fsub (fsub s0 p1) p2) (spec_score_tenths y t b 0) 23.
Proof.
  intros Hy Ht Hb.
  destruct (score_after_yield_approx y Hy) as [s0 [H0 A0]].
  destruct (throughput_penalty_approx t Ht) as [p1 [H1 A1]].
  destruct (bug_penalty_approx b Hb) as [p2 [H2 A2]].
  pose proof (spec_yield_penalty_bounds y Hy) as Hpen.
  unfold valid_throughput in Ht. unfold valid_bug_count in Hb.
  exists s0, p1, p2. split; [assumption|]. split; [assumption|]. split; [assumption|].
  pose proof (fsub_approx s0 p1 _ _ 1 1 A0 A1 ltac:(lia) ltac:(lia) ltac:(lia) ltac:(lia)) as A01.
  pose proof (fsub_approx _ p2 _ _ _ 1 A01 A2 ltac:(lia) ltac:(lia) ltac:(lia) ltac:(lia)) as A012.
  unfold spec_score_tenths. replace (Z.max 0 0 * 5) with 0 by reflexivity.
  replace (1000 - spec_yield_penalty_tenths y - Z.max 0 (100 - t) * 4 - b * 2 - 0)
    with (1000 - spec_yield_penalty_tenths y - Z.max 0 (100 - t) * 4 - b * 2) by lia.
  exact A012.
Qed.

(** Delays up to 255 days: the rounded float score is at most one half
    away from the score of the specification. *)
Lemma confidence_score_small_delay y t b d :
  valid_yield y -> valid_throughput t -> valid_bug_count b -> d <= 255 ->
  exists r,
    confidence_score y t b d = Ok (Z.max 0 (Z.min 100 r)) /\
    Z.abs (10 * r - spec_score_tenths y t b d) <= 5.
Proof.
  intros Hy Ht Hb Hd.
  destruct (score_after_bugs_approx y t b Hy Ht Hb) as [s0 [p1 [p2 [H0 [H1 [H2 A2]]]]]].
  destruct (delay_penalty_approx (Z.max 0 d) ltac:(lia)) as [p3 [H3 A3]].
  pose proof (spec_yield_penalty_bounds y Hy) as Hpen.
  unfold valid_throughput in Ht. unfold valid_bug_count in Hb.
  assert (HT : spec_score_tenths y t b d = spec_score_tenths y t b 0 - Z.max 0 d * 5).
  { unfold spec_score_tenths. replace (Z.max 0 0 * 5) with 0 by reflexivity. lia. }
  assert (HT0 : -20 <= spec_score_tenths y t b 0 <= 1000).
  { unfold spec_score_tenths. replace (Z.max 0 0 * 5) with 0 by reflexivity. lia. }
  pose proof (fsub_approx _ p3 _ _ _ 1 A2 A3 ltac:(lia) ltac:(lia) ltac:(lia) ltac:(lia)) as A.
  rewrite <- HT in A.
  destruct (round_approx _ _ _ A ltac:(lia)) as [r [Hr Hnear]].
  exists r. split; [|assumption].
  apply (confidence_score_stages y t b d s0 p1 p2 p3 r); assumption.
Qed.

(** *** Long delays *)

Lemma digits_ge p : 2 ^ (Zpos (digits2_pos p) - 1) <= Zpos p.
Proof.
  induction p as [p IH|p IH|]; cbn [digits2_pos]; [| |simpl; lia].
  - rewrite Pos2Z.inj_succ. replace (Z.succ (Zpos (digits2_pos p)) - 1)
      with (Z.succ (Zpos (digits2_pos p) - 1)) by lia.
    rewrite Z.pow_succ_r by lia. lia.
  - rewrite Pos2Z.inj_succ. replace (Z.succ (Zpos (digits2_pos p)) - 1)
      with (Z.succ (Zpos (digits2_pos p) - 1)) by lia.
    rewrite Z.pow_succ_r by lia. lia.
Qed.

Lemma digits_mono p q :
  Zpos p <= Zpos q -> Zpos (digits2_pos p) <= Zpos (digits2_pos q).
Proof.
  intros Hle. destruct (Z_le_gt_dec (Zpos (digits2_pos p)) (Zpos (digits2_pos q))) as [H|H];
    [assumption|].
  exfalso. pose proof (digits_lt q) as Hq. pose proof (digits_ge p) as Hp.
  assert (Hmono : 2 ^ Zpos (digits2_pos q) <= 2 ^ (Zpos (digits2_pos p) - 1))
    by (apply Z.pow_le_mono_r; lia).
  lia.
Qed.

Lemma digits_mul_ge p q :
  Zpos (digits2_pos p) + Zpos (digits2_pos q) - 1 <= Zpos (digits2_pos (p * q)).
Proof.
  destruct (Z_le_gt_dec (Zpos (digits2_pos p) + Zpos (digits2_pos q) - 1)
              (Zpos (digits2_pos (p * q)))) as [H|H]; [assumption|].
  exfalso. pose proof (digits_lt (p * q)) as Hpq.
  pose proof (digits_ge p) as Hp. pose proof (digits_ge q) as Hq.
  assert (Hmono : 2 ^ Zpos (digits2_pos (p * q)) <=
                  2 ^ (Zpos (digits2_pos p) - 1 + (Zpos (digits2_pos q) - 1)))
    by (apply Z.pow_le_mono_r; lia).
  rewrite Z.pow_add_r in Hmono by lia. rewrite Pos2Z.inj_mul in Hpq.
  assert (H0p : 0 < 2 ^ (Zpos (digits2_pos p) - 1)) by (apply Z.pow_pos_nonneg; lia).
  assert (H0q : 0 < 2 ^ (Zpos (digits2_pos q) - 1)) by (apply Z.pow_pos_nonneg; lia).
  assert (Hprod : 2 ^ (Zpos (digits2_pos p) - 1) * 2 ^ (Zpos (digits2_pos q) - 1)
                  <= Zpos p * Zpos q) by (apply Z.mul_le_mono_nonneg; lia).
  lia.
Qed.

(** A shift of a rounding keeps the magnitude of a number that is not tiny. *)
Lemma shr_fexp_lower m e l L :
  0 < m -> L <= Zdigits2 m + e -> -1073 <= L ->
  0 < shr_m (fst (shr_fexp prec emax m e l)) /\
  L <= Zdigits2 (shr_m (fst (shr_fexp prec emax m e l))) + snd (shr_fexp prec emax m e l).
Proof.
  intros Hm HL Hlow. unfold shr_fexp. rewrite fexp_eq. unfold shr.
  destruct (Z.max (Zdigits2 m + e - 53) (-1074) - e) as [|n|n] eqn:Hn;
    cbn [fst snd]; rewrite ?shr_record_of_loc_m; try (split; [assumption | lia]).
  destruct (iter_shr_1_digits n (shr_record_of_loc m l)) as [H0 Hd];
    [rewrite shr_record_of_loc_m; lia|].
  rewrite shr_record_of_loc_m in Hd.
  assert (Hdig : 1 <= Zdigits2 (shr_m (iter_pos shr_1 n (shr_record_of_loc m l)))) by lia.
  split; [|lia].
  destruct (shr_m (iter_pos shr_1 n (shr_record_of_loc m l))); simpl in Hdig; lia.
Qed.

Lemma Zdigits2_mono m m' : 0 < m -> m <= m' -> Zdigits2 m <= Zdigits2 m'.
Proof.
  intros Hm Hle. destruct m as [|p|p]; try lia. destruct m' as [|q|q]; try lia.
  cbn [Zdigits2]. apply digits_mono. assumption.
Qed.

(** A rounding keeps the sign, and the magnitude of a number that is
    neither tiny nor huge. *)
Lemma binary_round_aux_lower sx mx ex lx E B L :
  0 < mx -> ex <= E -> Zdigits2 mx + ex <= B ->
  -1074 <= E <= 971 -> -1074 <= B -> B - 52 <= E ->
  L <= Zdigits2 mx + ex -> -1073 <= L ->
  exists m e,
    binary_round_aux prec emax sx mx ex lx = S754_finite sx m e /\
    L <= Zpos (digits2_pos m) + e.
Proof.
  intros Hm He HB HE HB0 HBE HL Hlow. unfold binary_round_aux.
  destruct (shr_fexp_bound mx ex lx ltac:(lia)) as [H1 [He1 Hd1]].
  destruct (shr_fexp_lower mx ex lx L Hm HL Hlow) as [Hp1 Hl1].
  destruct (shr_fexp prec emax mx ex lx) as [mrs1 e1].
  cbn [fst snd] in H1, He1, Hd1, Hp1, Hl1.
  destruct (round_nearest_even_bound (shr_m mrs1) (loc_of_shr_record mrs1) H1) as [H2 Hd2].
  pose proof (round_nearest_even_value (shr_m mrs1) (loc_of_shr_record mrs1)) as Hv2.
  pose proof (Zdigits2_mono (shr_m mrs1)
                (round_nearest_even (shr_m mrs1) (loc_of_shr_record mrs1)) Hp1 (proj1 Hv2))
    as Hmono.
  set (m2 := round_nearest_even (shr_m mrs1) (loc_of_shr_record mrs1)) in *.
  destruct (shr_fexp_bound m2 e1 loc_Exact H2) as [H3 [He3 Hd3]].
  destruct (shr_fexp_lower m2 e1 loc_Exact L ltac:(lia) ltac:(lia) Hlow) as [Hp3 Hl3].
  destruct (shr_fexp prec emax m2 e1 loc_Exact) as [mrs3 e3].
  cbn [fst snd] in H3, He3, Hd3, Hp3, Hl3.
  destruct (shr_m mrs3) as [|m|m] eqn:Hm3; try lia.
  replace (e3 <=? emax - prec) with true by (symmetry; apply Z.leb_le; unfold emax, prec; lia).
  exists m, e3. split; [reflexivity|]. cbn [Zdigits2] in Hl3. exact Hl3.
Qed.

Lemma binary_round_aux_sign sx mx ex lx :
  0 <= mx -> sx = true -> nonpositive (binary_round_aux prec emax sx mx ex lx).
Proof.
  intros Hm ->. unfold binary_round_aux.
  destruct (shr_fexp_bound mx ex lx Hm) as [H1 _].
  destruct (shr_fexp prec emax mx ex lx) as [mrs1 e1]. cbn [fst snd] in H1.
  destruct (round_nearest_even_bound (shr_m mrs1) (loc_of_shr_record mrs1) H1) as [H2 _].
  destruct (shr_fexp_bound (round_nearest_even (shr_m mrs1) (loc_of_shr_record mrs1))
              e1 loc_Exact H2) as [H3 _].
  destruct (shr_fexp prec emax (round_nearest_even (shr_m mrs1) (loc_of_shr_record mrs1))
              e1 loc_Exact) as [mrs3 e3]. cbn [fst snd] in H3.
  destruct (shr_m mrs3) as [|m|m]; [exact I | | lia].
  destruct (e3 <=? emax - prec); reflexivity.
Qed.

(** The delay penalty of 256 days or more is a float of 128 or more. *)
Lemma delay_penalty_large (d : Z) :
  256 <= d -> d < 2 ^ 1000 ->
  exists m e,
    int_mul_float d lit_0_5 = Ok (S754_finite false m e) /\
    8 <= Zpos (digits2_pos m) + e /\
    within (S754_finite false m e) 951 1002.
Proof.
  intros Hlo Hhi.
  destruct (of_int_within d 1000 ltac:(lia) ltac:(lia)) as [x [Hx Hwx]].
  change (Z.max 0 (1000 - 52)) with 948 in Hwx. change (1000 + 1) with 1001 in Hwx.
  assert (Hxl : exists mx ex, x = S754_finite false mx ex /\ 9 <= Zpos (digits2_pos mx) + ex).
  { unfold of_int in Hx. destruct d as [|p|p]; try lia. cbn [binary_normalize] in Hx.
    unfold binary_round in Hx.
    destruct (shl_align_bound p 0 (fexp prec emax (Zpos (digits2_pos p) + 0))) as [Hs Hdig].
    destruct (shl_align p 0 (fexp prec emax (Zpos (digits2_pos p) + 0))) as [mz ez].
    cbn [fst snd] in Hs, Hdig.
    assert (Hp : 9 <= Zpos (digits2_pos p)).
    { destruct (Z_le_gt_dec 9 (Zpos (digits2_pos p))) as [H|H]; [assumption|].
      exfalso. pose proof (digits_lt p) as Hlt.
      assert (Hmono : 2 ^ Zpos (digits2_pos p) <= 2 ^ 8) by (apply Z.pow_le_mono_r; lia).
      change (2 ^ 8) with 256 in Hmono. lia. }
    assert (Hdp : Zpos (digits2_pos p) <= 1000) by (apply digits_le_of_lt; lia).
    destruct (binary_round_aux_lower false (Zpos mz) ez loc_Exact 948 1000 9)
      as [m [e [Hr Hl]]]; cbn [Zdigits2]; try lia.
    rewrite Hr in Hx. cbn [finite_or_overflow] in Hx. injection Hx as <-.
    exists m, e. auto. }
  destruct Hxl as [mx [ex [-> Hl]]]. cbn [within] in Hwx.
  unfold int_mul_float. rewrite Hx. cbn [bind]. unfold fmul, lit_0_5. cbn [SFmul xorb].
  pose proof (digits_mul mx 4503599627370496) as Hup.
  pose proof (digits_mul_ge mx 4503599627370496) as Hdown.
  change (Zpos (digits2_pos 4503599627370496)) with 53 in Hup, Hdown.
  destruct (binary_round_aux_lower false (Zpos (mx * 4503599627370496)) (ex + -53)
              loc_Exact 949 1001 8) as [m [e [Hr Hlow]]]; cbn [Zdigits2]; try lia.
  exists m, e. split; [rewrite Hr; reflexivity|]. split; [assumption|].
  pose proof (binary_round_aux_within false (Zpos (mx * 4503599627370496)) (ex + -53)
                loc_Exact 949 1001) as Hw.
  rewrite Hr in Hw. apply (within_mono _ 949 (1001 + 1)); [|lia|lia].
  apply Hw; cbn [Zdigits2]; lia.
Qed.

(** A number below 128 minus a number of 128 or more is not positive. *)
Lemma fsub_nonpositive x E my ey :
  within x E 7 -> 8 <= Zpos (digits2_pos my) + ey ->
  nonpositive (fsub x (S754_finite false my ey)).
Proof.
  intros Hx Hy. unfold fsub.
  destruct x as [sx|sx| |sx mx ex]; cbn [SFsub within] in *; try contradiction.
  - reflexivity.
  - destruct (shl_align_bound mx ex (Z.min ex ey)) as [_ Hdx].
    destruct (shl_align_bound my ey (Z.min ex ey)) as [_ Hdy].
    rewrite shl_align_min in Hdx by lia. rewrite shl_align_min in Hdy by lia.
    set (X := fst (shl_align mx ex (Z.min ex ey))) in *.
    set (Y := fst (shl_align my ey (Z.min ex ey))) in *.
    assert (HXY : Zpos X < Zpos Y).
    { pose proof (digits_lt X) as HX. pose proof (digits_ge Y) as HY.
      assert (Hmono : 2 ^ Zpos (digits2_pos X) <= 2 ^ (Zpos (digits2_pos Y) - 1))
        by (apply Z.pow_le_mono_r; lia).
      lia. }
    cbn [cond_Zopp].
    destruct (cond_Zopp sx (Zpos X) - Zpos Y) as [|k|k] eqn:HD;
      [destruct sx; cbn [cond_Zopp] in HD; lia
      |destruct sx; cbn [cond_Zopp] in HD; lia|].
    cbn [binary_normalize]. unfold binary_round.
    destruct (shl_align k (Z.min ex ey) (fexp prec emax (Zpos (digits2_pos k) + Z.min ex ey)))
      as [mz ez].
    apply binary_round_aux_sign; [lia | reflexivity].
Qed.

Lemma round_nonpositive x r : nonpositive x -> round x = Ok r -> r <= 0.
Proof.
  destruct x as [s|s| |s m e]; cbn [nonpositive round]; try discriminate.
  - intros _ [= <-]. lia.
  - intros -> [= <-]. change (signed true m) with (Zneg m).
    destruct (Z.leb_spec 0 e) as [Hpos|Hneg].
    + assert (H : 0 < 2 ^ e) by (apply Z.pow_pos_nonneg; lia).
      pose proof (Z.mul_nonpos_nonneg (Zneg m) (2 ^ e) ltac:(lia) ltac:(lia)) as Hle.
      exact Hle.
    + assert (Hd : 0 < 2 ^ (- e)) by (apply Z.pow_pos_nonneg; lia).
      pose proof (round_half_even_near (Zneg m) (2 ^ (- e)) Hd) as Hnear.
      set (q := round_half_even (Zneg m) (2 ^ (- e))) in *. set (dd := 2 ^ (- e)) in *.
      clearbody q dd. nia.
Qed.

(** Delays of 256 days or more: the score is 0. *)
Lemma confidence_score_large_delay y t b d :
  valid_yield y -> valid_throughput t -> valid_bug_count b ->
  256 <= d -> d < 2 ^ 1000 ->
  confidence_score y t b d = Ok 0.
Proof.
  intros Hy Ht Hb Hlo Hhi.
  destruct (score_after_bugs_approx y t b Hy Ht Hb) as [s0 [p1 [p2 [H0 [H1 [H2 A2]]]]]].
  destruct (delay_penalty_large d Hlo Hhi) as [m [e [H3 [Hl Hw3]]]].
  destruct A2 as [Hw2 [Hl2 Hb2]].
  pose proof (spec_yield_penalty_bounds y Hy) as Hpen.
  assert (HT0 : -20 <= spec_score_tenths y t b 0 <= 1000).
  { unfold spec_score_tenths, valid_throughput, valid_bug_count in *.
    replace (Z.max 0 0 * 5) with 0 by reflexivity. lia. }
  set (s2 := fsub (fsub s0 p1) p2) in *.
  assert (Hw7 : within s2 (-43) 7).
  { apply (within_of_units _ _ _ 8); [assumption | assumption |].
    assert (HW : 0 < 2 ^ 1032) by (apply Z.pow_pos_nonneg; lia).
    pose proof pow_1074 as H1074.
    assert (H1081 : 2 ^ (7 + 1074) = 128 * 2 ^ 1074)
      by (rewrite Z.pow_add_r by lia; reflexivity).
    rewrite H1081.
    set (W := 2 ^ 1032) in *. set (U := 2 ^ 1074) in *. set (u := units s2) in *.
    set (T := spec_score_tenths y t b 0) in *. clearbody W U u T. lia. }
  pose proof (fsub_nonpositive s2 (-43) m e Hw7 Hl) as Hneg.
  pose proof (fsub_within s2 (S754_finite false m e) 951 1002) as Hw.
  destruct (round_returns (fsub s2 (S754_finite false m e)) 951 (1002 + 2)) as [r Hr].
  { apply Hw; try lia; [|assumption]. apply (within_mono _ _ _ _ _ Hw7); lia. }
  pose proof (round_nonpositive _ _ Hneg Hr) as Hr0.
  replace d with (Z.max 0 d) in H3 by lia.
  rewrite (confidence_score_stages y t b d s0 p1 p2 _ r H0 H1 H2 H3 Hr).
  f_equal. lia.
Qed.

(** *** The score *)

(** An integer at most one half away from a number of tenths that is not
    halfway between two integers is its rounding, by either rule. *)
Lemma nearest_is_rounding (c s : Z) :
  Z.abs (10 * s - c) <= 5 -> c mod 10 <> 5 ->
  s = round_half_even c 10 /\ s = (c + 5) / 10.
Proof.
  intros Hnear Htie. unfold round_half_even.
  pose proof (Z.div_mod c 10 ltac:(lia)) as Hdiv.
  pose proof (Z.mod_pos_bound c 10 ltac:(lia)) as Hmod.
  split.
  - destruct (Z.compare_spec (2 * (c mod 10)) 10) as [Heq|Hlt|Hgt]; lia.
  - apply (Z.div_unique (c + 5) 10 s (c + 5 - 10 * s)); lia.
Qed.

(** The scorer on inputs of the documented ranges: a tie of the
    specification's score is not rounded as the specification allows, and
    a delay too large for a float raises [OverflowError].  At yield 40,
    throughput 61, 82 bugs and 1 day of delay the score is 21.5 and the
    scorer returns 21; at the sliders 68, 97 and 17 the simulation gives
    Vision Pro 7 days of delay and the score 79.5, the scorer returns 79,
    which is "Yellow", where 80 is "Green". *)
Lemma confidence_score_rounding_counterexample :
  (valid_yield 40 /\ valid_throughput 61 /\ valid_bug_count 82 /\
   spec_score_tenths 40 61 82 1 = 215 /\
   spec_score_half_even 40 61 82 1 = 22 /\ spec_score_half_up 40 61 82 1 = 22 /\
   confidence_score 40 61 82 1 = Ok 21) /\
  (valid_yield 68 /\ valid_throughput 97 /\ valid_bug_count 17 /\
   spec_score_tenths 68 97 17 7 = 795 /\
   spec_score_half_even 68 97 17 7 = 80 /\ spec_score_half_up 68 97 17 7 = 80 /\
   confidence_score 68 97 17 7 = Ok 79 /\
   fst (confidence_band 80) = "Green" /\ fst (confidence_band 79) = "Yellow" /\
   exists baseline current logs rows,
     simulation 739252 68 97 17 = Ok (baseline, current, logs, rows) /\
     In (mk_risk "Vision Pro" "Launch Confidence" 79 "Yellow" "#f1c40f") rows) /\
  (valid_yield 85 /\ valid_throughput 100 /\ valid_bug_count 25 /\
   confidence_score 85 100 25 (2 ^ 1024) = Raise OverflowError).
Proof.
  unfold valid_yield, valid_throughput, valid_bug_count.
  split; [|split].
  - repeat (split; [lia|]). repeat (split; [reflexivity|]). vm_compute. reflexivity.
  - repeat (split; [lia|]). repeat (split; [vm_compute; reflexivity|]).
    do 4 eexists. split; [vm_compute; reflexivity|].
    right. right. left. reflexivity.
  - repeat (split; [lia|]). vm_compute. reflexivity.
Qed.

(** C5, amended (confidence_score): for every yield, throughput and bug
    count within their documented ranges and every delay below 2^1000
    days, the scorer returns an integer score between 0 and 100 that is at
    most one half away from the score of the specification, 100 minus the
    four penalties, clamped to [0, 100].  When that score is not halfway
    between two integers, the scorer returns it rounded to the nearest
    integer, which is what both roundings of the specification give; on a
    tie it returns one of the two neighbours. *)
Theorem confidence_score_nearest (y t b d : Z) :
  valid_yield y -> valid_throughput t -> valid_bug_count b -> d < 2 ^ 1000 ->
  exists score,
    confidence_score y t b d = Ok score /\
    0 <= score <= 100 /\
    Z.abs (10 * score - spec_clamped_tenths y t b d) <= 5 /\
    (spec_clamped_tenths y t b d mod 10 <> 5 ->
     score = spec_score_half_even y t b d /\ score = spec_score_half_up y t b d).
Proof.
  intros Hy Ht Hb Hd.
  assert (H : exists score,
            confidence_score y t b d = Ok score /\ 0 <= score <= 100 /\
            Z.abs (10 * score - spec_clamped_tenths y t b d) <= 5).
  { destruct (Z_le_gt_dec d 255) as [Hsmall|Hlarge].
    - destruct (confidence_score_small_delay y t b d Hy Ht Hb Hsmall) as [r [Hr Hnear]].
      exists (Z.max 0 (Z.min 100 r)). split; [assumption|]. split; [lia|].
      unfold spec_clamped_tenths. lia.
    - exists 0. split; [apply confidence_score_large_delay; assumption || lia|].
      split; [lia|].
      pose proof (spec_yield_penalty_bounds y Hy) as Hpen.
      unfold spec_clamped_tenths, spec_score_tenths, valid_throughput, valid_bug_count in *.
      lia. }
  destruct H as [score [Hrun [Hrange Hnear]]].
  exists score. split; [assumption|]. split; [assumption|]. split; [assumption|].
  intros Htie. unfold spec_score_half_even, spec_score_half_up.
  apply nearest_is_rounding; assumption.
Qed.

Lemma confidence_score_nearest_witness :
  exists score,
    confidence_score 55 80 120 4 = Ok score /\
    0 <= score <= 100 /\
    Z.abs (10 * score - spec_clamped_tenths 55 80 120 4) <= 5 /\
    spec_clamped_tenths 55 80 120 4 mod 10 <> 5 /\
    score = spec_score_half_even 55 80 120 4 /\ score = spec_score_half_up 55 80 120 4.
Proof.
  destruct (confidence_score_nearest 55 80 120 4) as [score [Hrun [Hrange [Hnear Hround]]]].
  - unfold valid_yield. lia.
  - unfold valid_throughput. lia.
  - unfold valid_bug_count. lia.
  - reflexivity.
  - assert (Htie : spec_clamped_tenths 55 80 120 4 mod 10 <> 5)
      by (vm_compute; discriminate).
    exists score. split; [assumption|]. split; [assumption|]. split; [assumption|].
    split; [exact Htie | exact (Hround Htie)].
Defined.

(** ** The constraint applicator beyond the sliders' ranges *)

(** A quotient of two integers is no larger than the dividend. *)
Lemma truediv_within (a b K : Z) :
  0 <= K <= 1023 -> Z.abs a < 2 ^ K -> b <> 0 ->
  exists q, truediv a b = Ok q /\ within q (Z.max 0 (K - 52)) (K + 1).
Proof.
  intros HK Ha Hb. unfold truediv.
  destruct (Z.eqb_spec b 0) as [|_]; [contradiction|].
  destruct (Z.eqb_spec a 0) as [|Ha0].
  - eexists. split; [reflexivity | exact I].
  - assert (H : forall sx sy ma mb, Zpos ma < 2 ^ K ->
              within (SFdiv prec emax (S754_finite sx ma 0) (S754_finite sy mb 0))
                (Z.max 0 (K - 52)) (K + 1)).
    { intros sx sy ma mb Hma. cbn [SFdiv]. unfold SFdiv_core_binary.
      set (e' := Z.min _ (0 - 0)).
      assert (He' : e' <= 0) by (unfold e'; lia).
      set (s := 0 - 0 - e').
      set (m' := match s with
                 | Z.pos _ => Z.shiftl (Z.pos ma) s | 0 => Z.pos ma | Z.neg _ => 0
                 end).
      assert (Hm' : 0 <= m' /\ m' < 2 ^ (K + s)).
      { unfold m'. destruct s as [|ps|ps] eqn:Hs.
        - rewrite Z.add_0_r. lia.
        - rewrite Z.shiftl_mul_pow2, Z.pow_add_r by lia.
          assert (Hp : 0 < 2 ^ Zpos ps) by (apply Z.pow_pos_nonneg; lia). nia.
        - lia. }
      destruct (Z.div_eucl m' (Z.pos mb)) as [q r] eqn:Hdiv.
      assert (Hq : q = m' / Z.pos mb) by (unfold Z.div; rewrite Hdiv; reflexivity).
      assert (Hq0 : 0 <= q) by (rewrite Hq; apply Z.div_pos; lia).
      assert (Hqm : q <= m').
      { rewrite Hq. apply Z.div_le_upper_bound; [lia|]. nia. }
      apply binary_round_aux_within; try lia.
      assert (Hdig : Zdigits2 q <= K + s) by (apply Zdigits2_le_of_lt; lia).
      unfold s in Hdig. lia. }
    assert (Hw : within (SFdiv prec emax (exact_int a) (exact_int b))
                   (Z.max 0 (K - 52)) (K + 1)).
    { destruct a as [|pa|pa], b as [|pb|pb]; try contradiction;
        try (exfalso; apply Ha0; reflexivity); cbn [exact_int]; apply H; lia. }
    eexists. split; [apply (within_finite _ _ _ Hw) | exact Hw].
Qed.

Lemma truediv_ceil_returns (a b : Z) :
  Z.abs a < 2 ^ 1001 -> b <> 0 -> exists z, (q <- truediv a b ;; ceil q) = Ok z.
Proof.
  intros Ha Hb. destruct (truediv_within a b 1001 ltac:(lia) Ha Hb) as [q [Hq Hw]].
  destruct (ceil_returns _ _ _ Hw) as [z Hz]. exists z. rewrite Hq. exact Hz.
Qed.

Lemma compute_allocation_delays_returns (y : Z) :
  Z.abs y < 2 ^ 1000 -> exists delays, compute_allocation_delays y = Ok delays.
Proof.
  intros Hy. pose proof pow_1000_1001 as Hp. unfold compute_allocation_delays.
  destruct (70 <=? y); [eauto|].
  assert (H0 : 1024 <= 2 ^ 1000).
  { change 1024 with (2 ^ 10). apply Z.pow_le_mono_r; lia. }
  destruct (truediv_within (70 - y) 70 1001 ltac:(lia) ltac:(lia) ltac:(lia)) as [q [Hq Hw]].
  rewrite Hq. cbn [bind].
  destruct (of_int_within 28 5 ltac:(lia) ltac:(simpl; lia)) as [x [Hx Hwx]].
  unfold float_mul_int. rewrite Hx. cbn [bind].
  pose proof (fmul_within q x _ _ _ _ 956 1008 Hw Hwx) as Hm.
  destruct (ceil_returns (fmul q x) 956 (1008 + 1)) as [z Hz]; [apply Hm; simpl; lia|].
  rewrite Hz. cbn [bind]. eauto.
Qed.

Lemma scale_duration_returns_wide (d : Z) (fm : float) :
  Z.abs d < 2 ^ 1000 -> within fm 0 8 -> exists z, scale_duration d fm = Ok z.
Proof.
  intros Hd Hfm.
  destruct (of_int_within d 1000 ltac:(lia) Hd) as [x [Hx Hwx]].
  pose proof (fmul_within x fm _ _ _ _ 957 1009 Hwx Hfm) as Hm.
  destruct (ceil_returns (fmul x fm) 957 (1009 + 1)) as [z Hz]; [apply Hm; simpl; lia|].
  exists z. unfold scale_duration, int_mul_float. rewrite Hx. cbn [bind]. exact Hz.
Qed.

(** The applicator returns whenever the constraints and the durations of
    the factory tasks are of magnitude below [2 ^ 1000]. *)
Lemma apply_constraints_returns_wide tasks p y t b :
  Z.abs y < 2 ^ 1000 -> Z.abs t < 2 ^ 1000 -> Z.abs b < 2 ^ 1000 ->
  (forall name meta, In (name, meta) tasks -> type meta = "factory" ->
     Z.abs (duration meta) < 2 ^ 1000) ->
  exists updated ad nd, apply_constraints tasks p y t b = Ok (updated, ad, nd).
Proof.
  intros Hy Ht Hb Hdur. pose proof pow_1000_1001 as Hp. unfold apply_constraints.
  assert (H0 : 1024 <= 2 ^ 1000).
  { change 1024 with (2 ^ 10). apply Z.pow_le_mono_r; lia. }
  destruct (compute_allocation_delays_returns y Hy) as [ad Had]. rewrite Had. cbn [bind].
  destruct (truediv_within 100 (Z.max 1 t) 7 ltac:(lia) ltac:(simpl; lia) ltac:(lia))
    as [fm [Hfm Hw]].
  rewrite Hfm. cbn [bind].
  destruct (truediv_ceil_returns b 12 ltac:(lia) ltac:(lia)) as [bd Hbd].
  unfold compute_bug_delay. rewrite Hbd. cbn [bind].
  destruct (truediv_ceil_returns (Z.max 0 (90 - t)) 10 ltac:(lia) ltac:(lia)) as [c Hc].
  assert (Hna : compute_na_delay t = Ok (c * 2)).
  { unfold compute_na_delay.
    destruct (truediv (Z.max 0 (90 - t)) 10) as [q|e]; cbn [bind] in *; [|discriminate].
    rewrite Hc. reflexivity. }
  rewrite Hna. cbn [bind].
  destruct (adjust_tasks_returns fm bd (c * 2) (get_default p 0 ad) tasks []) as [updated Hupd].
  { intros name meta Hin Hf. apply scale_duration_returns_wide; [|exact Hw].
    apply (Hdur name meta Hin Hf). }
  rewrite Hupd. cbn [bind]. eauto.
Qed.

(** C10 (apply_constraints): for every task mapping (a mapping holds each
    task name once), product name and constraint values, the mapping that
    the applicator returns has exactly the task names of its input, in the
    same order, and every task keeps its deps and its type: only the
    duration may differ.  The applicator returns whenever the three
    constraints and the durations of the factory tasks are of magnitude
    below 2^1000, which covers their documented ranges and every mapping
    of the program. *)
Theorem apply_constraints_frame (tasks : dict task_meta) (p : string) (y t b : Z) :
  wf tasks ->
  (forall updated ad nd,
     apply_constraints tasks p y t b = Ok (updated, ad, nd) ->
     keys updated = keys tasks /\
     forall name meta, get name tasks = Some meta ->
       exists d, get name updated = Some (mk_meta d (deps meta) (type meta))) /\
  (Z.abs y < 2 ^ 1000 -> Z.abs t < 2 ^ 1000 -> Z.abs b < 2 ^ 1000 ->
   (forall name meta, In (name, meta) tasks -> type meta = "factory" ->
      Z.abs (duration meta) < 2 ^ 1000) ->
   exists updated ad nd, apply_constraints tasks p y t b = Ok (updated, ad, nd)).
Proof.
  intros Hwf. split.
  - intros updated ad nd Hrun.
    destruct (apply_constraints_adjusted _ _ _ _ _ _ _ _ Hwf Hrun) as [fm [bd [al ->]]].
    split; [apply adjusted_tasks_keys|]. intros name meta Hget.
    rewrite adjusted_tasks_get, Hget. eauto.
  - apply apply_constraints_returns_wide.
Qed.

Lemma apply_constraints_frame_witness :
  (forall updated ad nd,
     apply_constraints factory_example "iPad Pro" 55 0 (-75) = Ok (updated, ad, nd) ->
     keys updated = keys factory_example /\
     forall name meta, get name factory_example = Some meta ->
       exists d, get name updated = Some (mk_meta d (deps meta) (type meta))) /\
  exists updated ad nd,
    apply_constraints factory_example "iPad Pro" 55 0 (-75) = Ok (updated, ad, nd).
Proof.
  destruct (apply_constraints_frame factory_example "iPad Pro" 55 0 (-75)) as [Hframe Hreturns].
  - apply wf_check. reflexivity.
  - split; [exact Hframe|]. apply Hreturns.
    + reflexivity.
    + reflexivity.
    + reflexivity.
    + intros name meta Hin Hf. simpl in Hin.
      destruct Hin as [Heq|[Heq|[]]]; injection Heq as <- <-; reflexivity.
Defined.
